(** * Dynasty Dash: the name-matching and valuation pipeline of [app.py]

    A shallow embedding of the reconciliation core of [src/app.py]
    ([normalize_name], the roster matching loop, [safe_float], [parse_age],
    [classify_team]) together with the properties the specification states
    about it, and of the code around it ([get_sleeper_player_map],
    [parse_rosters_into_dataframe], [get_all_ktc_players_paginated], the
    team tab) with further properties of the whole.

    Modelling conventions.
    - A Python [str] is a [string]; a character is the code point it
      denotes, so the model covers the strings over code points 0..255
      (Latin-1).  On that range [str.isspace], [str.lower] and the regular
      expression class [\d] are the functions written below.
    - A Python exception is a constructor of [exn]; a computation that can
      raise returns [res].
    - A Python [float] is an IEEE-754 binary64 number, [spec_float] with
      precision 53 and maximal exponent 1024, with the rounding of
      [SpecFloat] (to nearest, ties to even).  Rocq's primitive floats are
      used only to name constants by their literals.
    - A pandas frame is the list of its rows; a frame built from an empty
      list has no columns.  [Series.sum] and [Series.mean] read NaN as 0
      and add the column as numpy does, by pairwise summation (module
      [Np]); the optional accelerator bottleneck, which is not among the
      imports of [app.py], is taken to be absent.
    - The fuzzy matcher [fuzzywuzzy.process.extractOne] is a library
      outside the repository: it is a parameter of the matching section,
      and every call to it is recorded in a call log.
    - The HTTP requests are outside the model.  The roster functions take
      the decoded JSON responses; the scraper takes a function [fetch]
      from page numbers to the player divs found on the page, or to the
      error the request raises, and records the pages it asks for. *)

From Stdlib Require Import ZArith NArith List String Ascii Bool Lia Permutation.
From Stdlib Require Import Floats.SpecFloat Floats.PrimFloat Floats.FloatOps.
From Stdlib Require Import DecimalString.
From stdpp Require Import base option list gmap strings.
Import ListNotations.

#[local] Set Warnings "-inexact-float".

Local Open Scope Z_scope.
Local Open Scope list_scope.

(** ** Exceptions and results *)

Inductive exn : Set :=
| IndexError
| KeyError
| TypeError
| ValueError
| AttributeError.

Inductive res (A : Type) : Type :=
| Ok (a : A)
| Raise (e : exn).
Arguments Ok {A} a.
Arguments Raise {A} e.

Definition res_bind {A B : Type} (r : res A) (k : A -> res B) : res B :=
  match r with
  | Ok a => k a
  | Raise e => Raise e
  end.

Declare Scope res_scope.
Delimit Scope res_scope with res.
Notation "x <- r ;; k" := (res_bind r (fun x => k))
  (at level 100, r at next level, right associativity) : res_scope.

(** [try: body except: handler] with a bare [except]. *)
Definition try_except {A : Type} (body : res A) (handler : A) : A :=
  match body with
  | Ok a => a
  | Raise _ => handler
  end.

(** ** Python values that reach the numeric parsers *)

Definition float : Type := spec_float.

Inductive value : Type :=
| VNone
| VStr (s : string)
| VInt (z : Z)
| VFloat (f : float).

(** ** Strings *)

Module Str.

Definition chars (s : string) : list ascii := list_ascii_of_string s.
Definition of_chars (l : list ascii) : string := string_of_list_ascii l.

Definition code (c : ascii) : N := N_of_ascii c.

(** [str.isspace] on a single character (code points below 256). *)
Definition isspace (c : ascii) : bool :=
  let n := code c in
  ((9 <=? n) && (n <=? 13) || (28 <=? n) && (n <=? 32)
   || (n =? 133) || (n =? 160))%N.

(** A decimal digit, the class [\d]. *)
Definition isdigit (c : ascii) : bool :=
  let n := code c in ((48 <=? n) && (n <=? 57))%N.

Definition digit_val (c : ascii) : N := (code c - 48)%N.

(** [str.lower] on a single character. *)
Definition lower_char (c : ascii) : ascii :=
  let n := code c in
  if ((65 <=? n) && (n <=? 90)
      || (192 <=? n) && (n <=? 222) && negb (n =? 215))%N
  then ascii_of_N (n + 32) else c.

Definition lower (s : string) : string :=
  of_chars (map lower_char (chars s)).

Fixpoint lstrip_chars (l : list ascii) : list ascii :=
  match l with
  | c :: l' => if isspace c then lstrip_chars l' else l
  | [] => []
  end.

Definition rstrip_chars (l : list ascii) : list ascii :=
  rev (lstrip_chars (rev l)).

(** [str.strip()] *)
Definition strip (s : string) : string :=
  of_chars (rstrip_chars (lstrip_chars (chars s))).

(** [str.split()] with no argument: the maximal runs of characters that
    are not white space, in order.  [cur] holds the run being read,
    reversed. *)
Fixpoint split_go (cur : list ascii) (l : list ascii) : list string :=
  match l with
  | [] => match cur with [] => [] | _ => [of_chars (rev cur)] end
  | c :: l' =>
      if isspace c
      then match cur with
           | [] => split_go [] l'
           | _ => of_chars (rev cur) :: split_go [] l'
           end
      else split_go (c :: cur) l'
  end.

Definition split (s : string) : list string := split_go [] (chars s).

(** [str.replace(old, "")] for a one-character [old]. *)
Definition remove_char (old : ascii) (s : string) : string :=
  of_chars (List.filter (fun c => negb (Ascii.eqb c old)) (chars s)).

End Str.

(** ** Lists as Python lists *)

(** [l[0]] *)
Definition index0 {A : Type} (l : list A) : res A :=
  match l with
  | x :: _ => Ok x
  | [] => Raise IndexError
  end.

(** [l[-1]] *)
Definition index_last {A : Type} (l : list A) : res A :=
  match last l with
  | Some x => Ok x
  | None => Raise IndexError
  end.

(** ** The name normalizer (app.py, lines 246-249) *)

Definition normalize_name (name : string) : res (string * string) :=
  let parts := Str.split (Str.lower (Str.strip name)) in
  (first <- index0 parts;;
   last <- (if (1 <? length parts)%nat then index_last parts else Ok ""%string);;
   Ok (first, last))%res.

(** ** Frames

    [ktc_df] is the frame [pd.DataFrame(all_players)] (app.py, line 150):
    one row per scraped record.  A frame built from an empty list of
    records has no column at all, so selecting a column of it raises
    [KeyError]. *)

Module Ktc.
Record Row : Type := {
  Rank : string;
  Name : string;
  Team : string;
  Position : string;
  Age : string;
  KTC_Value : string
}.
End Ktc.

Definition column {R A : Type} (proj : R -> A) (df : list R) : res (list A) :=
  match df with
  | [] => Raise KeyError
  | _ :: _ => Ok (map proj df)
  end.

(** [df[df["Name"] == name]] *)
Definition rows_named (name : string) (ktc_df : list Ktc.Row) : list Ktc.Row :=
  List.filter (fun r => String.eqb (Ktc.Name r) name) ktc_df.

(** The rows appended to [your_team_value_data] (app.py, lines 273-287). *)
Module Team.
Record Row : Type := {
  Player : string;
  KTC_Name : string;
  Position : value;
  KTC_Value : value;
  Age : value
}.
End Team.

(** ** Computations that call the fuzzy matcher

    A computation takes the log of the calls made to [extractOne] so far
    (the query and the choices of each call) and returns its outcome with
    the extended log. *)

Definition calls : Type := list (string * list string).
Definition M (A : Type) : Type := calls -> res A * calls.

Definition mret {A : Type} (a : A) : M A := fun log => (Ok a, log).

Definition mbind {A B : Type} (c : M A) (k : A -> M B) : M B :=
  fun log =>
    match c log with
    | (Ok a, log') => k a log'
    | (Raise e, log') => (Raise e, log')
    end.

Definition lift {A : Type} (r : res A) : M A := fun log => (r, log).

Declare Scope M_scope.
Delimit Scope M_scope with M.
Notation "x <- c ;; k" := (mbind c (fun x => k))
  (at level 100, c at next level, right associativity) : M_scope.

(** ** The matcher (app.py, lines 251-289) *)

(** The comprehension that builds [ktc_name_map]: rows are visited in
    order and a later row replaces an earlier one with the same key. *)
Fixpoint build_name_map (rows : list Ktc.Row)
    (m : gmap (string * string) Ktc.Row) : res (gmap (string * string) Ktc.Row) :=
  match rows with
  | [] => Ok m
  | row :: rest =>
      (k <- normalize_name (Ktc.Name row);;
       build_name_map rest (<[k := row]> m))%res
  end.

Definition ktc_name_map (ktc_df : list Ktc.Row) : res (gmap (string * string) Ktc.Row) :=
  build_name_map ktc_df ∅.

(** [a, b = x]: unpacking [None] raises [TypeError]. *)
Definition unpack_pair {A B : Type} (x : option (A * B)) : res (A * B) :=
  match x with
  | Some p => Ok p
  | None => Raise TypeError
  end.

Definition matched (p_name : string) (best_match : Ktc.Row) : Team.Row :=
  {| Team.Player := p_name;
     Team.KTC_Name := Ktc.Name best_match;
     Team.Position := VStr (Ktc.Position best_match);
     Team.KTC_Value := VStr (Ktc.KTC_Value best_match);
     Team.Age := VStr (Ktc.Age best_match) |}.

Definition no_match (p_name : string) : Team.Row :=
  {| Team.Player := p_name;
     Team.KTC_Name := "No Match";
     Team.Position := VNone;
     Team.KTC_Value := VNone;
     Team.Age := VNone |}.

Section Matcher.

(** [process.extractOne(query, choices)] with the default processor and
    scorer: the best choice with its score, or [None]. *)
Variable extractOne : string -> list string -> option (string * Z).

Definition call_extractOne (query : string) (choices : list string)
  : M (option (string * Z)) :=
  fun log => (Ok (extractOne query choices), log ++ [(query, choices)]).

Variable ktc_df : list Ktc.Row.

(** Lines 258-270: the row chosen for one roster player, if any. *)
Definition best_match_of (name_map : gmap (string * string) Ktc.Row)
    (p_name : string) : M (option Ktc.Row) :=
  (key <- lift (normalize_name p_name);;
   match name_map !! key with
   | Some row => mret (Some row)
   | None =>
       names <- lift (column Ktc.Name ktc_df);;
       found <- call_extractOne p_name names;;
       pair <- lift (unpack_pair found);;
       let '(best_match_name, score) := pair in
       if negb (score =? 0) && (80 <? score)
       then row <- lift (index0 (rows_named best_match_name ktc_df));;
            mret (Some row)
       else mret None
   end)%M.

(** Lines 272-287: the row appended for one roster player. *)
Definition match_player (name_map : gmap (string * string) Ktc.Row)
    (p_name : string) : M Team.Row :=
  (best_match <- best_match_of name_map p_name;;
   mret match best_match with
        | Some row => matched p_name row
        | None => no_match p_name
        end)%M.

(** Lines 256-287: the loop over [roster_players]. *)
Fixpoint match_loop (name_map : gmap (string * string) Ktc.Row)
    (roster_players : list string) (your_team_value_data : list Team.Row)
  : M (list Team.Row) :=
  match roster_players with
  | [] => mret your_team_value_data
  | p_name :: rest =>
      (row <- match_player name_map p_name;;
       match_loop name_map rest (your_team_value_data ++ [row]))%M
  end.

(** Lines 251-287. *)
Definition match_roster (roster_players : list string) : M (list Team.Row) :=
  (name_map <- lift (ktc_name_map ktc_df);;
   match_loop name_map roster_players [])%M.

End Matcher.

(** ** Floats: IEEE-754 binary64 *)

Module F.

Definition prec : Z := 53.
Definition emax : Z := 1024.

Definition zero : float := S754_zero false.
Definition nan : float := S754_nan.

Definition add : float -> float -> float := SFadd prec emax.
Definition div : float -> float -> float := SFdiv prec emax.
Definition ltb : float -> float -> bool := SFltb.
Definition leb : float -> float -> bool := SFleb.

Definition is_nan (x : float) : bool :=
  match x with S754_nan => true | _ => false end.

(** The float nearest to an integer ([float(n)], and the conversion of an
    [int] operand compared with a float). *)
Definition of_Z (n : Z) : float := binary_normalize prec emax n 0 false.

(** The float nearest to [(-1)^neg * m * 10^e], ties to even: what
    [float] returns for a decimal numeral with digits [m] and decimal
    exponent [e]. *)
Definition of_decimal (neg : bool) (m : N) (e : Z) : float :=
  match m with
  | N0 => S754_zero neg
  | Npos p =>
      match e with
      | Zneg k =>
          SFdiv prec emax (S754_finite neg p 0)
                          (S754_finite false (10 ^ k)%positive 0)
      | Z0 => binary_round prec emax neg p 0
      | Zpos k => binary_round prec emax neg (p * 10 ^ k)%positive 0
      end
  end.

End F.

(** ** [float(s)] for a string [s] *)

Module PyFloat.
Import Str.

(** The longest prefix of decimal digits, and the rest. *)
Fixpoint take_digits (l : list ascii) : list ascii * list ascii :=
  match l with
  | c :: l' =>
      if isdigit c
      then let '(ds, rest) := take_digits l' in (c :: ds, rest)
      else ([], l)
  | [] => ([], [])
  end.

Definition number (ds : list ascii) : N :=
  fold_left (fun acc c => (10 * acc + digit_val c)%N) ds 0%N.

Definition parse_sign (l : list ascii) : bool * list ascii :=
  match l with
  | "-"%char :: l' => (true, l')
  | "+"%char :: l' => (false, l')
  | _ => (false, l)
  end.

(** An exponent part [e], [e+], [e-] followed by at least one digit;
    anything else is left unread. *)
Definition parse_exponent (l : list ascii) : Z * list ascii :=
  match l with
  | c :: l1 =>
      if Ascii.eqb c "e" || Ascii.eqb c "E"
      then let '(neg, l2) := parse_sign l1 in
           let '(ds, l3) := take_digits l2 in
           match ds with
           | [] => (0, l)
           | _ :: _ =>
               let n := Z.of_N (number ds) in
               (if neg then - n else n, l3)
           end
      else (0, l)
  | [] => (0, l)
  end.

(** A decimal numeral at the start of [l]: sign, digits with an optional
    point (at least one digit in all), optional exponent. *)
Definition parse_decimal (l : list ascii) : option (float * list ascii) :=
  let '(neg, l1) := parse_sign l in
  let '(ip, l2) := take_digits l1 in
  let '(fp, l3) :=
    match l2 with
    | "."%char :: l2' => take_digits l2'
    | _ => ([], l2)
    end in
  match ip ++ fp with
  | [] => None
  | ds =>
      let '(e, l4) := parse_exponent l3 in
      Some (F.of_decimal neg (number ds) (e - Z.of_nat (length fp)), l4)
  end.

(** [word] read at the start of [l] without regard to case. *)
Fixpoint strip_word (word l : list ascii) : option (list ascii) :=
  match word, l with
  | [], _ => Some l
  | w :: word', c :: l' =>
      if Ascii.eqb (lower_char c) w then strip_word word' l' else None
  | _ :: _, [] => None
  end.

(** [inf], [infinity] or [nan], with an optional sign. *)
Definition parse_inf_or_nan (l : list ascii) : option (float * list ascii) :=
  let '(neg, l1) := parse_sign l in
  match strip_word (chars "inf") l1 with
  | Some l2 =>
      match strip_word (chars "inity") l2 with
      | Some l3 => Some (S754_infinity neg, l3)
      | None => Some (S754_infinity neg, l2)
      end
  | None =>
      match strip_word (chars "nan") l1 with
      | Some l2 => Some (S754_nan, l2)
      | None => None
      end
  end.

(** Underscores may only stand between two digits and are dropped;
    [prev] is the character read last. *)
Fixpoint drop_underscores (prev : option ascii) (l : list ascii)
  : option (list ascii) :=
  match l with
  | [] =>
      match prev with
      | Some "_"%char => None
      | _ => Some []
      end
  | c :: l' =>
      if Ascii.eqb c "_"
      then match prev with
           | Some p => if isdigit p then drop_underscores (Some c) l' else None
           | None => None
           end
      else match prev with
           | Some "_"%char =>
               if isdigit c
               then cons c <$> drop_underscores (Some c) l'
               else None
           | _ => cons c <$> drop_underscores (Some c) l'
           end
  end.

Definition of_chars_stripped (l : list ascii) : res float :=
  match drop_underscores None l with
  | None => Raise ValueError
  | Some l' =>
      match parse_decimal l' with
      | Some (f, []) => Ok f
      | Some (_, _ :: _) => Raise ValueError
      | None =>
          match parse_inf_or_nan l' with
          | Some (f, []) => Ok f
          | _ => Raise ValueError
          end
      end
  end.

(** The characters [float] skips around a numeral: those of C's
    [isspace], tab to carriage return and the space, and the white space
    above code point 127 (U+0085 and U+00A0), which is turned into spaces
    first.  The separators U+001C to U+001F are white space for
    [str.strip] but not for [float]. *)
Definition isspace (c : ascii) : bool :=
  let n := code c in
  ((9 <=? n) && (n <=? 13) || (n =? 32) || (n =? 133) || (n =? 160))%N.

Fixpoint lstrip_chars (l : list ascii) : list ascii :=
  match l with
  | c :: l' => if isspace c then lstrip_chars l' else l
  | [] => []
  end.

Definition rstrip_chars (l : list ascii) : list ascii :=
  rev (lstrip_chars (rev l)).

(** [float(s)]: white space around the numeral is ignored, the whole of
    the rest must be a numeral. *)
Definition of_string (s : string) : res float :=
  of_chars_stripped (rstrip_chars (lstrip_chars (chars s))).

End PyFloat.

(** [float(x)] for the values of the model. *)
Definition py_float (v : string) : res float := PyFloat.of_string v.

(** ** Regular expressions: the fragment used by [parse_age] *)

Module Re.

Inductive t : Type :=
| Digit                (* \d *)
| Char (c : ascii)     (* an escaped or literal character *)
| Seq (a b : t)        (* ab *)
| Plus (a : t)         (* a+, greedy *)
| Opt (a : t)          (* a?, greedy *)
| Group (a : t).       (* (a) *)

(** The ways [r] matches at the start of [s], each given by what is left
    of [s], in the order a backtracking matcher tries them.  [fuel]
    bounds the repetitions of [Plus]. *)
Fixpoint ends (r : t) (fuel : nat) (s : list ascii) : list (list ascii) :=
  match r with
  | Digit =>
      match s with
      | c :: s' => if Str.isdigit c then [s'] else []
      | [] => []
      end
  | Char c0 =>
      match s with
      | c :: s' => if Ascii.eqb c c0 then [s'] else []
      | [] => []
      end
  | Seq a b => concat (map (ends b fuel) (ends a fuel s))
  | Plus a =>
      (fix more (n : nat) (s : list ascii) : list (list ascii) :=
         concat (map (fun s' =>
                        match n with
                        | O => [s']
                        | S n' => more n' s' ++ [s']
                        end)
                     (ends a fuel s))) fuel s
  | Opt a => ends a fuel s ++ [s]
  | Group a => ends a fuel s
  end.

(** [re.match]: the text of the first way [r] matches at the start of
    [s]. *)
Definition match_at (r : t) (s : list ascii) : option (list ascii) :=
  match ends r (length s) s with
  | rest :: _ => Some (take (length s - length rest)%nat s)
  | [] => None
  end.

(** [re.search]: the match at the leftmost position that has one. *)
Fixpoint search (r : t) (s : list ascii) : option (list ascii) :=
  match match_at r s with
  | Some m => Some m
  | None =>
      match s with
      | _ :: s' => search r s'
      | [] => None
      end
  end.

End Re.

(** ** [parse_age] (app.py, lines 152-162) *)

(** The pattern [(\d+(\.\d+)?)]; its group 1 encloses the whole pattern, so
    [match.group(1)] is the text of the match. *)
Definition age_pattern : Re.t :=
  Re.Group (Re.Seq (Re.Plus Re.Digit)
                   (Re.Opt (Re.Group (Re.Seq (Re.Char ".") (Re.Plus Re.Digit))))).

Definition parse_age (age_str : value) : res float :=
  match age_str with
  | VStr s =>
      match Re.search age_pattern (Str.chars s) with
      | Some group1 => py_float (Str.of_chars group1)
      | None => Ok F.zero
      end
  | _ => Ok F.zero
  end.

(** ** [safe_float] (app.py, lines 292-296) *)

(** [v.replace(",", "")]: only a [str] has the method used here. *)
Definition replace_commas (v : value) : res string :=
  match v with
  | VStr s => Ok (Str.remove_char "," s)
  | _ => Raise AttributeError
  end.

Definition safe_float (v : value) : float :=
  try_except (s <- replace_commas v;; py_float s)%res F.zero.

(** ** Sums of arrays of doubles

    [ndarray.sum()] on a contiguous one-dimensional array of doubles:
    numpy's [add.reduce], whose inner loop is the pairwise summation
    [DOUBLE_pairwise_sum].  Fewer than 8 entries are added from left to
    right; up to 128 entries are added in eight interleaved accumulators,
    which are then added as a balanced tree, followed by the entries left
    over; a longer array is split in two near the middle, at a multiple of
    8. *)

Module Np.

Definition neg_zero : float := S754_zero true.

(** [res += a[i]] for the entries of [a] in order. *)
Definition add_all (res : float) (a : list float) : float :=
  fold_left F.add a res.

(** [r[j] += a[i + j]] for the accumulators [r] and one block of [a]. *)
Fixpoint add_lanes (r a : list float) : list float :=
  match r, a with
  | x :: r', y :: a' => F.add x y :: add_lanes r' a'
  | _, _ => r
  end.

(** The loop [for (i = 8; i < n - n % 8; i += 8)], which runs over
    [blocks] blocks of eight entries: the accumulators after it and the
    entries it leaves. *)
Fixpoint add_blocks (blocks : nat) (r a : list float)
  : list float * list float :=
  match blocks with
  | O => (r, a)
  | S blocks' => add_blocks blocks' (add_lanes r (firstn 8 a)) (skipn 8 a)
  end.

(** The branch for 8 to 128 entries. *)
Definition unrolled_sum (a : list float) : float :=
  let '(r, rest) :=
    add_blocks (length a / 8 - 1)%nat (firstn 8 a) (skipn 8 a) in
  match r with
  | [r0; r1; r2; r3; r4; r5; r6; r7] =>
      add_all (F.add (F.add (F.add r0 r1) (F.add r2 r3))
                     (F.add (F.add r4 r5) (F.add r6 r7))) rest
  | _ => add_all neg_zero a
  end.

(** [DOUBLE_pairwise_sum(a, n)], with a bound on the depth of the
    recursion; the length of [a] is bound enough ([pairwise_sum_split]
    below). *)
Fixpoint pairwise_sum_upto (depth : nat) (a : list float) : float :=
  let n := length a in
  if (n <? 8)%nat then add_all neg_zero a
  else if (n <=? 128)%nat then unrolled_sum a
  else match depth with
       | O => unrolled_sum a
       | S depth' =>
           let n2 := (n / 2 - (n / 2) mod 8)%nat in
           F.add (pairwise_sum_upto depth' (firstn n2 a))
                 (pairwise_sum_upto depth' (skipn n2 a))
       end.

Definition pairwise_sum (a : list float) : float :=
  pairwise_sum_upto (length a) a.

(** The reduction: it starts from -0.0, which leaves every sum as it is,
    and gives 0.0 for the empty array. *)
Definition sum (a : list float) : float :=
  match a with
  | [] => F.zero
  | _ :: _ => F.add neg_zero (pairwise_sum a)
  end.

End Np.

(** ** Series of floats

    [Series.sum()] and [Series.mean()] skip NaN entries: the sum is the
    sum of the array with NaN read as 0, the mean divides it by the number
    of entries that are not NaN and is NaN when there is none. *)

Definition fill_nan (x : float) : float := if F.is_nan x then F.zero else x.

Definition series_sum (xs : list float) : float :=
  Np.sum (map fill_nan xs).

Definition series_count (xs : list float) : nat :=
  length (List.filter (fun x => negb (F.is_nan x)) xs).

Definition series_mean (xs : list float) : float :=
  match series_count xs with
  | O => F.nan
  | S _ as count => F.div (series_sum xs) (F.of_Z (Z.of_nat count))
  end.

(** [Series.apply(f)] for an [f] that may raise. *)
Fixpoint apply {A B : Type} (f : A -> res B) (col : list A) : res (list B) :=
  match col with
  | [] => Ok []
  | x :: col' => (y <- f x;; ys <- apply f col';; Ok (y :: ys))%res
  end.

(** ** [classify_team] (app.py, lines 164-180)

    The frame it receives has the columns [Age] and [Value_Numeric], and
    the column [Age_Numeric] if it was computed before. *)

Module Frame.
Record t : Type := {
  Age : list value;
  Value_Numeric : list float;
  Age_Numeric : option (list float)
}.
End Frame.

(** Lines 170-171: the frame is updated in place. *)
Definition with_age_numeric (team_value_df : Frame.t) : res (Frame.t * list float) :=
  match Frame.Age_Numeric team_value_df with
  | Some col => Ok (team_value_df, col)
  | None =>
      (col <- apply parse_age (Frame.Age team_value_df);;
       Ok ({| Frame.Age := Frame.Age team_value_df;
              Frame.Value_Numeric := Frame.Value_Numeric team_value_df;
              Frame.Age_Numeric := Some col |}, col))%res
  end.

(** [x > n] for a float [x] and an integer literal [n]. *)
Definition gt_int (x : float) (n : Z) : bool := F.ltb (F.of_Z n) x.
Definition lt_int (x : float) (n : Z) : bool := F.ltb x (F.of_Z n).

Definition classify_team (team_value_df : Frame.t) : res (string * Frame.t) :=
  let total_ktc := series_sum (Frame.Value_Numeric team_value_df) in
  (r <- with_age_numeric team_value_df;;
   let '(team_value_df, age_numeric) := r in
   let avg_age := series_mean age_numeric in
   if gt_int total_ktc 110000 && gt_int avg_age 25
   then Ok ("Contender"%string, team_value_df)
   else if lt_int total_ktc 90000 && lt_int avg_age 24
   then Ok ("Rebuild"%string, team_value_df)
   else Ok ("Tweener"%string, team_value_df))%res.

(** ** The team summary (app.py, lines 289-312) *)

(** [team_value_df["Value_Numeric"].sum()] for the frame built from
    [your_team_value_data]. *)
Definition total_value (your_team_value_data : list Team.Row) : float :=
  series_sum (map safe_float (map Team.KTC_Value your_team_value_data)).

Record Summary : Type := {
  total_val : float;
  label : string;
  mean_age : float
}.

Definition team_summary (your_team_value_data : list Team.Row) : res Summary :=
  (ktc_value <- column Team.KTC_Value your_team_value_data;;
   let value_numeric := map safe_float ktc_value in
   let total_val := series_sum value_numeric in
   age <- column Team.Age your_team_value_data;;
   r <- classify_team {| Frame.Age := age;
                         Frame.Value_Numeric := value_numeric;
                         Frame.Age_Numeric := None |};;
   let '(label, team_value_df) := r in
   age_numeric <- apply parse_age (Frame.Age team_value_df);;
   Ok {| total_val := total_val;
         label := label;
         mean_age := series_mean age_numeric |})%res.

(** ** A matcher that meets the contract assumed of [extractOne]

    The first choice of greatest score, for a given scorer: what
    [max(..., key=score)] returns over the scored choices. *)

(** What is assumed of [extractOne] for a scorer [ratio]: over a
    non-empty list of choices it returns a choice of greatest score, with
    that score. *)
Definition returns_best (ratio : string -> string -> Z)
    (extractOne : string -> list string -> option (string * Z)) : Prop :=
  forall query choices,
    choices <> [] ->
    exists c, extractOne query choices = Some (c, ratio query c)
              /\ In c choices
              /\ forall c', In c' choices -> ratio query c' <= ratio query c.

Fixpoint first_best (ratio : string -> string -> Z) (query : string)
    (choices : list string) : option (string * Z) :=
  match choices with
  | [] => None
  | c :: rest =>
      match first_best ratio query rest with
      | Some (c', s') =>
          if s' <=? ratio query c then Some (c, ratio query c) else Some (c', s')
      | None => Some (c, ratio query c)
      end
  end.

(** A name on which [normalize_name] returns: it has a token. *)
Definition has_token (name : string) : Prop :=
  exists key, normalize_name name = Ok key.

(** ** The first numeral of a text

    What the specification calls the first decimal-or-integer numeric
    substring: at the leftmost position where a digit stands, the longest
    run of digits, with a point and a further non-empty run of digits when
    they follow at once. *)

Definition numeral_at (l : list ascii) : option (list ascii * list ascii) :=
  match PyFloat.take_digits l with
  | ([], _) => None
  | (ip, "."%char :: rest) => Some (ip, fst (PyFloat.take_digits rest))
  | (ip, _) => Some (ip, [])
  end.

Fixpoint first_numeral (l : list ascii) : option (list ascii * list ascii) :=
  match numeral_at l with
  | Some n => Some n
  | None =>
      match l with
      | _ :: l' => first_numeral l'
      | [] => None
      end
  end.

(** The text of a numeral with integer digits [ip] and fraction digits
    [fp], and the float nearest to the number it denotes. *)
Definition numeral_text (n : list ascii * list ascii) : list ascii :=
  let '(ip, fp) := n in
  match fp with
  | [] => ip
  | _ :: _ => ip ++ "."%char :: fp
  end.

Definition numeral_value (n : list ascii * list ascii) : float :=
  let '(ip, fp) := n in
  F.of_decimal false (PyFloat.number (ip ++ fp)) (- Z.of_nat (length fp)).

Definition spec_parse_age (age_str : value) : float :=
  match age_str with
  | VStr s =>
      match first_numeral (Str.chars s) with
      | Some n => numeral_value n
      | None => F.zero
      end
  | _ => F.zero
  end.

Definition starts_with_digit (l : list ascii) : bool :=
  match l with
  | c :: _ => Str.isdigit c
  | [] => false
  end.

(** What may follow a numeral with fraction digits [fp] for it to be the
    whole of the match: no digit, and after a numeral without fraction no
    point followed by a digit either. *)
Definition numeral_ends (fp post : list ascii) : Prop :=
  starts_with_digit post = false
  /\ (fp = [] -> forall post', post = "."%char :: post' -> starts_with_digit post' = false).

(** The repetitions of [\d+] after its first digit, as [Re.ends] unfolds
    them. *)
Fixpoint digits_more (n : nat) (s : list ascii) : list (list ascii) :=
  concat (map (fun s' =>
                 match n with
                 | O => [s']
                 | S n' => digits_more n' s' ++ [s']
                 end)
              match s with
              | c :: s' => if Str.isdigit c then [s'] else []
              | [] => []
              end).

(** ** Floats that are integers

    The binary64 representation of a positive integer below 2^53: the
    mantissa is the integer shifted to 53 bits. *)
Definition canon (p : positive) : float :=
  let d := Zpos (digits2_pos p) in
  S754_finite false (Z.to_pos (Zpos p * 2 ^ (53 - d))) (d - 53).

(** [x >= 0] for a float that is not NaN. *)
Definition nonneg (x : float) : bool :=
  match x with
  | S754_zero _ => true
  | S754_infinity s => negb s
  | S754_finite s _ _ => negb s
  | S754_nan => false
  end.

(** The integer a value column entry denotes when it is [None] (read as 0
    by [safe_float]) or a numeral of digits grouped by commas. *)
Definition int_value (v : value) : option Z :=
  match v with
  | VNone => Some 0
  | VStr s =>
      let l := Str.chars s in
      if forallb (fun c => Str.isdigit c || Ascii.eqb c ",") l
         && existsb Str.isdigit l
      then Some (Z.of_N (PyFloat.number (List.filter Str.isdigit l)))
      else None
  | _ => None
  end.

(** A row whose value is such an entry. *)
Definition grouped_int (r : Team.Row) : Prop :=
  is_Some (int_value (Team.KTC_Value r)).

Definition row_int (r : Team.Row) : Z :=
  match int_value (Team.KTC_Value r) with
  | Some n => n
  | None => 0
  end.

(** The sum of the values of the rows as integers. *)
Definition exact_total (rows : list Team.Row) : Z :=
  fold_right Z.add 0 (map row_int rows).

(** The characters of the texts [float] accepts: white space, digits,
    signs, the point, the exponent letter, the underscore, and the letters
    of "inf", "infinity" and "nan" in either case. *)
Definition float_char (c : ascii) : bool :=
  PyFloat.isspace c || Str.isdigit c
  || existsb (Ascii.eqb c) (Str.chars "+-._eE")
  || existsb (Ascii.eqb (Str.lower_char c)) (Str.chars "infatyn").

(** ** Sample data

    The two records and the roster of the scenario of the specification,
    and frames and rows for the examples. *)

(** A scorer for the examples: 100 for equal strings, 90 for strings equal
    up to case, 0 otherwise. *)
Definition sample_ratio (a b : string) : Z :=
  if String.eqb a b then 100
  else if String.eqb (Str.lower a) (Str.lower b) then 90
  else 0.

Definition sample_extractOne : string -> list string -> option (string * Z) :=
  first_best sample_ratio.

Definition jefferson : Ktc.Row :=
  {| Ktc.Rank := "1"; Ktc.Name := "Justin Jefferson"; Ktc.Team := "MIN";
     Ktc.Position := "WR1"; Ktc.Age := "24.1 y.o."; Ktc.KTC_Value := "9,500" |}.

Definition chase : Ktc.Row :=
  {| Ktc.Rank := "2"; Ktc.Name := "Ja'Marr Chase"; Ktc.Team := "CIN";
     Ktc.Position := "WR2"; Ktc.Age := "23.9 y.o."; Ktc.KTC_Value := "9,999" |}.

Definition sample_ktc_df : list Ktc.Row := [jefferson; chase].

Definition sample_name_map : gmap (string * string) Ktc.Row :=
  match ktc_name_map sample_ktc_df with
  | Ok m => m
  | Raise _ => ∅
  end.

(** A row of the team frame with a given value text. *)
Definition value_row (player value : string) : Team.Row :=
  {| Team.Player := player;
     Team.KTC_Name := player;
     Team.Position := VStr "WR1";
     Team.KTC_Value := VStr value;
     Team.Age := VStr "25 y.o." |}.

Definition rows_2_53 : list Team.Row :=
  [value_row "A" "9,007,199,254,740,992"; value_row "B" "1"; value_row "C" "1"].

Definition rows_2_53_reordered : list Team.Row :=
  [value_row "B" "1"; value_row "C" "1"; value_row "A" "9,007,199,254,740,992"].

(** Eight rows, the least number that the sum adds in eight
    accumulators. *)
Definition rows_2_53_eight : list Team.Row :=
  value_row "A" "9,007,199,254,740,992" :: repeat (value_row "B" "1") 7.

Definition rows_tenths : list Team.Row :=
  [value_row "A" "0.1"; value_row "B" "0.2"; value_row "C" "0.3"].

Definition sample_team : list Team.Row :=
  [matched "Justin Jefferson" jefferson; no_match "Unknown Player123"].

Definition frame_of (ages : list string) (values : list Z) : Frame.t :=
  {| Frame.Age := map VStr ages;
     Frame.Value_Numeric := map F.of_Z values;
     Frame.Age_Numeric := None |}.

Definition contender_df : Frame.t :=
  frame_of ["27 y.o."; "26 y.o."; "25 y.o."] [40000; 40000; 40000].
Definition rebuild_df : Frame.t :=
  frame_of ["21 y.o."; "23 y.o."] [40000; 40000].
Definition tweener_df : Frame.t :=
  frame_of ["25 y.o."; "25 y.o."] [50000; 50000].

(** * Rosters, scraper and team tab *)

(** ** Words and blank names *)

(** A text laid out as words: white space [g0], then each word followed
    by its own white space. *)
Definition spaced (g0 : list ascii) (words : list (list ascii * list ascii))
  : list ascii :=
  g0 ++ concat (map (fun w => fst w ++ snd w) words).

(** Words are non-empty and free of white space; what follows a word is
    white space, and is not empty when another word comes after. *)
Fixpoint well_spaced (words : list (list ascii * list ascii)) : Prop :=
  match words with
  | [] => True
  | (t, g) :: rest =>
      t <> []
      /\ Forall (fun c => Str.isspace c = false) t
      /\ Forall (fun c => Str.isspace c = true) g
      /\ (rest <> [] -> g <> [])
      /\ well_spaced rest
  end.

(** A name with no character other than white space. *)
Definition blank (s : string) : Prop :=
  Forall (fun c => Str.isspace c = true) (Str.chars s).

(** ** The rows behind a key, and where the rows of the team come from *)

(** The rows of the valuation frame whose name has a given key. *)
Definition has_key (key : string * string) (row : Ktc.Row) : bool :=
  match normalize_name (Ktc.Name row) with
  | Ok k => bool_decide (k = key)
  | Raise _ => false
  end.

(** The roster names the loop hands to [extractOne]: those whose key is
    not in the mapping. *)
Definition fuzzy_needed (name_map : gmap (string * string) Ktc.Row)
    (p_name : string) : bool :=
  match normalize_name p_name with
  | Ok key =>
      match name_map !! key with
      | Some _ => false
      | None => true
      end
  | Raise _ => false
  end.

(** A row of the team frame that comes from the valuation frame or is the
    "No Match" row. *)
Definition from_valuation (ktc_df : list Ktc.Row) (row : Team.Row) : Prop :=
  (exists r, In r ktc_df /\ row = matched (Team.Player row) r)
  \/ row = no_match (Team.Player row).

(** ** The decoded responses of the roster source

    The scalars of the responses are [None], strings and integers; in a
    record that stands for a JSON object a field is [None] when the key is
    absent.  A list of player ids is [None] when the key is absent or its
    value is null. *)

Inductive scalar : Type :=
| SNone
| SStr (s : string)
| SInt (z : Z).

#[global] Instance scalar_eq_dec : EqDecision scalar.
Proof. solve_decision. Defined.

#[global] Instance scalar_countable : Countable scalar :=
  inj_countable'
    (fun v => match v with
              | SNone => inl ()
              | SStr s => inr (inl s)
              | SInt z => inr (inr z)
              end)
    (fun x => match x with
              | inl _ => SNone
              | inr (inl s) => SStr s
              | inr (inr z) => SInt z
              end)
    (fun v => match v with SNone | SStr _ | SInt _ => eq_refl end).

(** [str(v)], also what an f-string puts for [v]. *)
Definition py_str (v : scalar) : string :=
  match v with
  | SNone => "None"
  | SStr s => s
  | SInt z => NilZero.string_of_int (Z.to_int z)
  end.

Module Sleeper.
Record Player : Type := {
  first_name : option scalar;
  last_name : option scalar
}.
Record User : Type := {
  user_id : option scalar;
  display_name : option scalar
}.
Record Roster : Type := {
  owner_id : option scalar;
  roster_id : option scalar;
  players : option (list scalar);
  taxi : option (list scalar);
  reserve : option (list scalar)
}.
End Sleeper.

(** [d[key]] *)
Definition getitem (field : option scalar) : res scalar :=
  match field with
  | Some v => Ok v
  | None => Raise KeyError
  end.

(** ** [get_sleeper_player_map] (app.py, lines 21-29), from the decoded
    response [data] *)

(** [pdata.get(key, "").strip()]: only a [str] has [strip]. *)
Definition get_stripped (field : option scalar) : res string :=
  match field with
  | None => Ok (Str.strip "")
  | Some (SStr s) => Ok (Str.strip s)
  | Some _ => Raise AttributeError
  end.

(** Lines 23-27. *)
Definition full_name_of (pid : string) (pdata : Sleeper.Player) : res string :=
  (first <- get_stripped (Sleeper.first_name pdata);;
   last <- get_stripped (Sleeper.last_name pdata);;
   let full_name := Str.strip (first +:+ " " +:+ last) in
   Ok (if String.eqb full_name "" || String.eqb full_name "None None"
       then pid else full_name))%res.

Fixpoint player_map_loop (items : list (string * Sleeper.Player))
    (player_map : gmap string string) : res (gmap string string) :=
  match items with
  | [] => Ok player_map
  | (pid, pdata) :: rest =>
      (full_name <- full_name_of pid pdata;;
       player_map_loop rest (<[pid := full_name]> player_map))%res
  end.

Definition get_sleeper_player_map (data : list (string * Sleeper.Player))
  : res (gmap string string) :=
  player_map_loop data ∅.

(** ** [parse_rosters_into_dataframe] (app.py, lines 56-83) *)

Module League.
Record Row : Type := {
  Owner : scalar;
  Roster_ID : scalar;
  Players : list string;
  Taxi_Squad : list string;
  Reserve : list string
}.
End League.

(** Line 61. *)
Fixpoint user_map_loop (users_data : list Sleeper.User)
    (user_map : gmap scalar scalar) : res (gmap scalar scalar) :=
  match users_data with
  | [] => Ok user_map
  | u :: rest =>
      (uid <- getitem (Sleeper.user_id u);;
       let name := match Sleeper.display_name u with
                   | Some v => v
                   | None => SStr ("User " +:+ py_str uid)
                   end in
       user_map_loop rest (<[uid := name]> user_map))%res
  end.

(** Lines 72-73. *)
Definition id_to_name (player_map : gmap string string) (pid : scalar) : string :=
  match player_map !! py_str pid with
  | Some name => name
  | None => "Unknown (" +:+ py_str pid +:+ ")"
  end.

(** [x or []] *)
Definition or_empty (ids : option (list scalar)) : list scalar :=
  match ids with
  | Some l => l
  | None => []
  end.

(** Lines 65-81: the row appended for one roster. *)
Definition roster_row (user_map : gmap scalar scalar)
    (player_map : gmap string string) (roster : Sleeper.Roster) : res League.Row :=
  let owner_id := match Sleeper.owner_id roster with
                  | Some v => v
                  | None => SStr ""
                  end in
  let owner_name := match user_map !! owner_id with
                    | Some v => v
                    | None => SStr ("User " +:+ py_str owner_id)
                    end in
  let players := or_empty (Sleeper.players roster) in
  let taxi := or_empty (Sleeper.taxi roster) in
  let reserve := or_empty (Sleeper.reserve roster) in
  (rid <- getitem (Sleeper.roster_id roster);;
   Ok {| League.Owner := owner_name;
         League.Roster_ID := rid;
         League.Players := map (id_to_name player_map) players;
         League.Taxi_Squad := map (id_to_name player_map) taxi;
         League.Reserve := map (id_to_name player_map) reserve |})%res.

Fixpoint rosters_loop (user_map : gmap scalar scalar)
    (player_map : gmap string string) (rosters_data : list Sleeper.Roster)
    (rows : list League.Row) : res (list League.Row) :=
  match rosters_data with
  | [] => Ok rows
  | roster :: rest =>
      (row <- roster_row user_map player_map roster;;
       rosters_loop user_map player_map rest (rows ++ [row]))%res
  end.

Definition parse_rosters_into_dataframe (users_data : list Sleeper.User)
    (rosters_data : list Sleeper.Roster) (player_map : gmap string string)
  : res (list League.Row) :=
  (user_map <- user_map_loop users_data ∅;;
   rosters_loop user_map player_map rosters_data [])%res.
(** A name field [strip] can be applied to: absent or a string. *)
Definition name_field_ok (field : option scalar) : bool :=
  match field with
  | None | Some (SStr _) => true
  | Some _ => false
  end.

Definition player_ok (item : string * Sleeper.Player) : bool :=
  name_field_ok (Sleeper.first_name (snd item))
  && name_field_ok (Sleeper.last_name (snd item)).

(** The text of a name field, the empty string for an absent field; a
    field that holds no string has none. *)
Definition name_text (field : option scalar) : option string :=
  match field with
  | None => Some ""%string
  | Some (SStr s) => Some s
  | Some _ => None
  end.

Definition has_field (field : option scalar) : bool :=
  match field with
  | Some _ => true
  | None => false
  end.

(** ** The team tab (app.py, lines 216-312) *)

(** [row["Owner"] == username] *)
Definition owned_by (username : string) (row : League.Row) : bool :=
  match League.Owner row with
  | SStr s => String.eqb s username
  | _ => false
  end.

(** Line 217: [rosters_df[rosters_df["Owner"] == username]]. *)
Definition my_roster_of (username : string) (rosters_df : list League.Row)
  : res (list League.Row) :=
  (owners <- column League.Owner rosters_df;;
   Ok (List.filter (owned_by username) rosters_df))%res.

(** Lines 242-244. *)
Fixpoint roster_players_of (my_roster : list League.Row)
    (roster_players : list string) : list string :=
  match my_roster with
  | [] => roster_players
  | row_data :: rest =>
      roster_players_of rest (roster_players ++ League.Players row_data)
  end.

(** What the tab shows: the warning of line 233, or the team frame with
    its summary. *)
Inductive TeamTab : Type :=
| Warning
| Shown (team_value_df : list Team.Row) (summary : Summary).

Definition team_tab (extractOne : string -> list string -> option (string * Z))
    (username : string) (rosters_df : list League.Row) (ktc_df : list Ktc.Row)
  : M TeamTab :=
  (my_roster <- lift (my_roster_of username rosters_df);;
   match my_roster with
   | [] => mret Warning
   | _ :: _ =>
       your_team_value_data <-
         match_roster extractOne ktc_df (roster_players_of my_roster []);;
       summary <- lift (team_summary your_team_value_data);;
       mret (Shown your_team_value_data summary)
   end)%M.

(** The label for a total value and an average age. *)
Definition label_for (total_ktc avg_age : float) : string :=
  if gt_int total_ktc 110000 && gt_int avg_age 25 then "Contender"
  else if lt_int total_ktc 90000 && lt_int avg_age 24 then "Rebuild"
  else "Tweener".
(** The frame [classify_team] returns when the column [Age_Numeric] it
    needs is [col]. *)
Definition with_age_column (df : Frame.t) (col : list float) : Frame.t :=
  match Frame.Age_Numeric df with
  | Some _ => df
  | None => {| Frame.Age := Frame.Age df;
               Frame.Value_Numeric := Frame.Value_Numeric df;
               Frame.Age_Numeric := Some col |}
  end.

(** ** Further sample data *)

Definition sample_rosters_df : list League.Row :=
  [ {| League.Owner := SStr "drew"; League.Roster_ID := SInt 1;
       League.Players := ["Justin Jefferson"; "Unknown Player123"];
       League.Taxi_Squad := []; League.Reserve := [] |};
    {| League.Owner := SStr "sam"; League.Roster_ID := SInt 2;
       League.Players := []; League.Taxi_Squad := ["Ja'Marr Chase"];
       League.Reserve := [] |} ].

(** ** [get_all_ktc_players_paginated] (app.py, lines 86-150)

    A page is what [soup.find_all("div", class_="onePlayer")] returns for
    it: the list of its player divs.  A player div is given by the results
    of the [find] calls the code makes on it: [None] where nothing is
    found, and for an element that is only read the text of the element. *)

Module Html.
(** [<div class="player-name">]: the text of its first [<a>] and of its
    [<span class="player-team">]. *)
Record NameTag : Type := {
  a : option string;
  player_team : option string
}.
(** [<div class="position-team">]: the text of its [<p class="position">]
    and of its [<p class="position hidden-xs">]. *)
Record PositionTeam : Type := {
  position : option string;
  position_hidden_xs : option string
}.
(** [<div class="onePlayer">]: the attribute [data-attr], the name tag,
    the position div, and for a [<div class="value">] the text of its
    first [<p>]. *)
Record PlayerDiv : Type := {
  data_attr : option string;
  player_name : option NameTag;
  position_team : option PositionTeam;
  value : option (option string)
}.
End Html.

(** [found.text] for the result of a [find]: [None] has no attribute. *)
Definition text (found : option string) : res string :=
  match found with
  | Some t => Ok t
  | None => Raise AttributeError
  end.

(** Lines 114-142: the body of the [try]. *)
Definition parse_player_div (player_div : Html.PlayerDiv) : res Ktc.Row :=
  let rank := Str.strip (default ""%string (Html.data_attr player_div)) in
  let name_tag := Html.player_name player_div in
  (name <- match name_tag with
           | Some tag => (t <- text (Html.a tag);; Ok (Str.strip t))
           | None => Ok "Unknown"%string
           end;;
   let team_span := match name_tag with
                    | Some tag => Html.player_team tag
                    | None => None
                    end in
   let team := match team_span with
               | Some t => Str.strip t
               | None => "N/A"%string
               end in
   let position_div := Html.position_team player_div in
   position <- match position_div with
               | Some div => (t <- text (Html.position div);; Ok (Str.strip t))
               | None => Ok "Unknown"%string
               end;;
   let age_span := match position_div with
                   | Some div => Html.position_hidden_xs div
                   | None => None
                   end in
   let age := match age_span with
              | Some t => Str.strip t
              | None => "N/A"%string
              end in
   value <- match Html.value player_div with
            | Some value_div => (t <- text value_div;; Ok (Str.strip t))
            | None => Ok "0"%string
            end;;
   Ok {| Ktc.Rank := rank;
         Ktc.Name := name;
         Ktc.Team := team;
         Ktc.Position := position;
         Ktc.Age := age;
         Ktc.KTC_Value := value |})%res.

(** Lines 113-144: the loop over the divs of a page; a div whose parsing
    raises is skipped. *)
Fixpoint divs_loop (player_divs : list Html.PlayerDiv)
    (all_players : list Ktc.Row) : list Ktc.Row :=
  match player_divs with
  | [] => all_players
  | player_div :: rest =>
      divs_loop rest
        (try_except
           (row <- parse_player_div player_div;; Ok (all_players ++ [row]))%res
           all_players)
  end.

(** Lines 102-148: the loop over the page numbers.  [fetch page_num] is
    the request for a page with its parsing, which raises when the request
    fails; [fetched] lists the pages requested so far. *)
Fixpoint pages_loop (fetch : nat -> res (list Html.PlayerDiv))
    (pages : list nat) (all_players : list Ktc.Row) (fetched : list nat)
  : res (list Ktc.Row) * list nat :=
  match pages with
  | [] => (Ok all_players, fetched)
  | page_num :: rest =>
      let fetched := fetched ++ [page_num] in
      match fetch page_num with
      | Raise e => (Raise e, fetched)
      | Ok [] => (Ok all_players, fetched)
      | Ok player_divs =>
          let all_players := divs_loop player_divs all_players in
          if (length player_divs <? 50)%nat
          then (Ok all_players, fetched)
          else pages_loop fetch rest all_players fetched
      end
  end.

Definition get_all_ktc_players_paginated
    (fetch : nat -> res (list Html.PlayerDiv)) (max_pages : Z)
  : res (list Ktc.Row) * list nat :=
  pages_loop fetch (seq 0 (Z.to_nat max_pages)) [] [].

(** The records of the divs of a page that are not skipped. *)
Fixpoint kept (player_divs : list Html.PlayerDiv) : list Ktc.Row :=
  match player_divs with
  | [] => []
  | player_div :: rest =>
      match parse_player_div player_div with
      | Ok row => row :: kept rest
      | Raise _ => kept rest
      end
  end.

(** A string that neither starts nor ends with white space. *)
Definition starts_with_space (l : list ascii) : bool :=
  match l with
  | c :: _ => Str.isspace c
  | [] => false
  end.

Definition trimmed (s : string) : Prop :=
  starts_with_space (Str.chars s) = false
  /\ starts_with_space (rev (Str.chars s)) = false.

(** A div whose name tag has an anchor of blank text. *)
Definition blank_anchor (d : Html.PlayerDiv) : Prop :=
  exists tag t, Html.player_name d = Some tag /\ Html.a tag = Some t /\ blank t.

(** Pages of [n] divs each, the last one of [m]. *)
Definition sample_div (name : string) : Html.PlayerDiv :=
  {| Html.data_attr := Some "1"%string;
     Html.player_name := Some {| Html.a := Some name; Html.player_team := None |};
     Html.position_team := None;
     Html.value := Some (Some " 9,500 "%string) |}.

Definition sample_fetch (page_num : nat) : res (list Html.PlayerDiv) :=
  match page_num with
  | 0%nat => Ok (repeat (sample_div " Justin Jefferson ") 50)
  | 1%nat => Ok [sample_div "Ja'Marr Chase"]
  | _ => Raise ValueError
  end.

Definition row_trimmed (row : Ktc.Row) : Prop :=
  trimmed (Ktc.Rank row) /\ trimmed (Ktc.Name row) /\ trimmed (Ktc.Team row)
  /\ trimmed (Ktc.Position row) /\ trimmed (Ktc.Age row)
  /\ trimmed (Ktc.KTC_Value row).

(** A scorer that accepts a prefix. *)
Definition prefix_ratio (a b : string) : Z :=
  if String.prefix a b then 85 else 0.

Definition sample_player_data : list (string * Sleeper.Player) :=
  [ ("4034"%string,
     {| Sleeper.first_name := Some (SStr " Justin");
        Sleeper.last_name := Some (SStr "Jefferson ") |});
    ("7564"%string,
     {| Sleeper.first_name := Some (SStr "Ja'Marr");
        Sleeper.last_name := Some (SStr "Chase") |});
    ("DET"%string,
     {| Sleeper.first_name := None; Sleeper.last_name := None |}) ].

Definition sample_player_map : gmap string string :=
  match get_sleeper_player_map sample_player_data with
  | Ok m => m
  | Raise _ => ∅
  end.

Definition sample_users_data : list Sleeper.User :=
  [ {| Sleeper.user_id := Some (SStr "u1");
       Sleeper.display_name := Some (SStr "drew") |} ].

Definition sample_rosters_data : list Sleeper.Roster :=
  [ {| Sleeper.owner_id := Some (SStr "u1");
       Sleeper.roster_id := Some (SInt 1);
       Sleeper.players := Some [SStr "4034"; SInt 99];
       Sleeper.taxi := None;
       Sleeper.reserve := Some [SStr "DET"] |} ].

Definition sample_league_df : list League.Row :=
  match parse_rosters_into_dataframe sample_users_data sample_rosters_data
          sample_player_map with
  | Ok rows => rows
  | Raise _ => []
  end.

(** * Properties *)

(** ** The name normalizer *)

Lemma normalize_name_tokens name :
  normalize_name name =
  match Str.split (Str.lower (Str.strip name)) with
  | [] => Raise IndexError
  | [first] => Ok (first, ""%string)
  | first :: (_ :: _) as parts =>
      match last parts with
      | Some l => Ok (first, l)
      | None => Raise IndexError
      end
  end.
Proof.
  unfold normalize_name.
  destruct (Str.split (Str.lower (Str.strip name))) as [|first [|second rest]];
    try reflexivity.
  cbn [index0 res_bind length Nat.ltb Nat.leb]. unfold index_last.
  cbn [last]. destruct (last (second :: rest)); reflexivity.
Qed.

Lemma normalize_name_ok_iff name :
  has_token name <-> Str.split (Str.lower (Str.strip name)) <> [].
Proof.
  unfold has_token. rewrite normalize_name_tokens.
  destruct (Str.split (Str.lower (Str.strip name))) as [|first [|second rest]].
  - split; [intros [k H]; discriminate H | intros H; now contradiction H].
  - split; [discriminate | intros _; eexists; reflexivity].
  - split; [discriminate | intros _]. cbn [last].
    destruct (last (second :: rest)) eqn:E; [eexists; reflexivity|].
    apply last_None in E. discriminate E.
Qed.

(** C7 (the code misses the case): [normalize_name] raises [IndexError] on
    the empty name, and on a name of white space only, where the
    specification gives the pair of empty strings. *)
Theorem normalize_name_empty_raises :
  normalize_name "" = Raise IndexError /\
  normalize_name "   " = Raise IndexError.
Proof. split; reflexivity. Qed.

(** ** The matcher *)

Lemma build_name_map_lookup rows :
  forall m m' key row,
    build_name_map rows m = Ok m' ->
    m' !! key = Some row ->
    (In row rows /\ normalize_name (Ktc.Name row) = Ok key) \/ m !! key = Some row.
Proof.
  induction rows as [|r rows IH]; intros m m' key row Hbuild Hlook.
  - injection Hbuild as <-. now right.
  - cbn [build_name_map] in Hbuild.
    destruct (normalize_name (Ktc.Name r)) as [k|e] eqn:Hk; [|discriminate].
    cbn [res_bind] in Hbuild.
    destruct (IH _ _ _ _ Hbuild Hlook) as [[Hin Hn]|Hm].
    + left. split; [now right | exact Hn].
    + destruct (decide (k = key)) as [->|Hne].
      * rewrite lookup_insert_eq in Hm. injection Hm as <-.
        left. split; [now left | exact Hk].
      * rewrite lookup_insert_ne in Hm by exact Hne. now right.
Qed.

Lemma ktc_name_map_lookup ktc_df name_map key row :
  ktc_name_map ktc_df = Ok name_map ->
  name_map !! key = Some row ->
  In row ktc_df /\ normalize_name (Ktc.Name row) = Ok key.
Proof.
  intros Hbuild Hlook.
  destruct (build_name_map_lookup _ _ _ _ _ Hbuild Hlook) as [H|H]; [exact H|].
  rewrite lookup_empty in H. discriminate.
Qed.

Section MatcherFacts.

Variable extractOne : string -> list string -> option (string * Z).
Variable ktc_df : list Ktc.Row.

Lemma best_match_of_exact name_map p_name key row log :
  normalize_name p_name = Ok key ->
  name_map !! key = Some row ->
  best_match_of extractOne ktc_df name_map p_name log = (Ok (Some row), log).
Proof.
  intros Hkey Hlook. unfold best_match_of, mbind, lift.
  rewrite Hkey, Hlook. reflexivity.
Qed.

(** C1: a roster name whose key is in the mapping built from the
    valuation list gets the record stored under that key, a record of
    the valuation list with the same key: the row built for the player
    has the name, the position, the value and the age of that record.
    The call log is left as it was: [extractOne] is not called for that
    name. *)
Theorem exact_match_direct name_map p_name key row log :
  ktc_name_map ktc_df = Ok name_map ->
  normalize_name p_name = Ok key ->
  name_map !! key = Some row ->
  match_player extractOne ktc_df name_map p_name log
    = (Ok {| Team.Player := p_name;
             Team.KTC_Name := Ktc.Name row;
             Team.Position := VStr (Ktc.Position row);
             Team.KTC_Value := VStr (Ktc.KTC_Value row);
             Team.Age := VStr (Ktc.Age row) |}, log)
  /\ In row ktc_df
  /\ normalize_name (Ktc.Name row) = Ok key.
Proof.
  intros Hbuild Hkey Hlook. split.
  - unfold match_player, mbind.
    rewrite (best_match_of_exact _ _ _ _ _ Hkey Hlook). reflexivity.
  - exact (ktc_name_map_lookup _ _ _ _ Hbuild Hlook).
Qed.

End MatcherFacts.

(** [exact_match_direct] at the record of Justin Jefferson. *)
Lemma exact_match_direct_witness :
  match_player sample_extractOne sample_ktc_df sample_name_map
    "justin  JEFFERSON" []
    = (Ok {| Team.Player := "justin  JEFFERSON";
             Team.KTC_Name := "Justin Jefferson";
             Team.Position := VStr "WR1";
             Team.KTC_Value := VStr "9,500";
             Team.Age := VStr "24.1 y.o." |}, [])
  /\ In jefferson sample_ktc_df
  /\ normalize_name (Ktc.Name jefferson) = Ok ("justin", "jefferson")%string.
Proof.
  apply (exact_match_direct sample_extractOne sample_ktc_df sample_name_map
           "justin  JEFFERSON" ("justin", "jefferson")%string jefferson []).
  - vm_compute. reflexivity.
  - vm_compute. reflexivity.
  - vm_compute. reflexivity.
Defined.

(** *** The fuzzy fallback *)


Lemma rows_named_find name (ktc_df : list Ktc.Row) :
  In name (map Ktc.Name ktc_df) ->
  exists row,
    List.find (fun r => String.eqb (Ktc.Name r) name) ktc_df = Some row
    /\ index0 (rows_named name ktc_df) = Ok row
    /\ Ktc.Name row = name.
Proof.
  induction ktc_df as [|r rows IH]; intros Hin; [destruct Hin|].
  unfold rows_named. cbn [List.filter List.find].
  destruct (String.eqb (Ktc.Name r) name) eqn:E.
  - exists r. apply String.eqb_eq in E. now repeat split.
  - destruct Hin as [Heq|Hin].
    + apply String.eqb_neq in E. contradiction.
    + exact (IH Hin).
Qed.


Section FuzzyFallback.

(** The scorer of the library, and what is assumed of [extractOne]: over a
    non-empty list of choices it returns a choice of greatest score, with
    that score. *)
Variable ratio : string -> string -> Z.
Variable extractOne : string -> list string -> option (string * Z).
Hypothesis extractOne_best :
  forall query choices,
    choices <> [] ->
    exists c, extractOne query choices = Some (c, ratio query c)
              /\ In c choices
              /\ forall c', In c' choices -> ratio query c' <= ratio query c.

Variable ktc_df : list Ktc.Row.


End FuzzyFallback.

(** C2: for a roster name whose key is not in the mapping the matcher
    calls [extractOne] once, with the raw name and all valuation names.
    The candidate it returns, a name of the valuation list with its score,
    is the one taken, of greatest score over all valuation names when
    [extractOne] returns a best choice; it is accepted exactly when the
    score is above 80: then the row built has the name, the position, the
    value and the age of the first record of that name; otherwise it is
    the "No Match" row, whose position, value and age are [None]. *)
Theorem fuzzy_fallback_threshold
    (extractOne : string -> list string -> option (string * Z))
    (ktc_df : list Ktc.Row) name_map p_name key name score log :
  normalize_name p_name = Ok key ->
  name_map !! key = None ->
  extractOne p_name (map Ktc.Name ktc_df) = Some (name, score) ->
  In name (map Ktc.Name ktc_df) ->
  exists best,
    List.find (fun r => String.eqb (Ktc.Name r) name) ktc_df = Some best
    /\ (forall ratio,
          returns_best ratio extractOne ->
          score = ratio p_name name
          /\ forall r, In r ktc_df -> ratio p_name (Ktc.Name r) <= score)
    /\ (80 < score ->
        match_player extractOne ktc_df name_map p_name log
        = (Ok {| Team.Player := p_name;
                 Team.KTC_Name := name;
                 Team.Position := VStr (Ktc.Position best);
                 Team.KTC_Value := VStr (Ktc.KTC_Value best);
                 Team.Age := VStr (Ktc.Age best) |},
           log ++ [(p_name, map Ktc.Name ktc_df)]))
    /\ (score <= 80 ->
        match_player extractOne ktc_df name_map p_name log
        = (Ok {| Team.Player := p_name;
                 Team.KTC_Name := "No Match";
                 Team.Position := VNone;
                 Team.KTC_Value := VNone;
                 Team.Age := VNone |},
           log ++ [(p_name, map Ktc.Name ktc_df)])).
Proof.
  intros Hkey Hlook Hex Hin.
  destruct (rows_named_find name ktc_df Hin) as (best & Hfind & Hrow & Hname).
  exists best. split; [exact Hfind|]. split.
  { intros ratio Hbest.
    destruct (Hbest p_name (map Ktc.Name ktc_df)) as (c & Hc & _ & Hmax).
    - intros E. rewrite E in Hin. destruct Hin.
    - rewrite Hex in Hc. injection Hc as <- ->. split; [reflexivity|].
      intros r Hr. apply Hmax. now apply in_map. }
  assert (Hrun : forall log,
             best_match_of extractOne ktc_df name_map p_name log
             = (Ok (if 80 <? score then Some best else None),
                log ++ [(p_name, map Ktc.Name ktc_df)])).
  { intros l. unfold best_match_of, mbind, lift, call_extractOne, column.
    rewrite Hkey, Hlook. destruct ktc_df as [|r0 rows] eqn:Edf; [destruct Hin|].
    rewrite <- Edf in *. rewrite Hex. cbn [unpack_pair].
    destruct (80 <? score) eqn:E.
    - apply Z.ltb_lt in E.
      replace (score =? 0) with false by (symmetry; apply Z.eqb_neq; lia).
      cbn [negb andb]. rewrite Hrow. reflexivity.
    - rewrite andb_false_r. reflexivity. }
  unfold match_player, mbind. rewrite Hrun. split; intros Hs.
  - apply Z.ltb_lt in Hs. rewrite Hs. unfold mret, matched. now rewrite Hname.
  - apply Z.ltb_ge in Hs. rewrite Hs. reflexivity.
Qed.

(** [fuzzy_fallback_threshold] at a name that resembles no record, with
    the sample scorer, and at a name that is the start of one, with the
    scorer that accepts a prefix. *)
Lemma fuzzy_fallback_threshold_witness :
  match_player sample_extractOne sample_ktc_df sample_name_map
    "Unknown Player123" []
  = (Ok {| Team.Player := "Unknown Player123";
           Team.KTC_Name := "No Match";
           Team.Position := VNone;
           Team.KTC_Value := VNone;
           Team.Age := VNone |},
     [("Unknown Player123"%string, ["Justin Jefferson"; "Ja'Marr Chase"]%string)])
  /\ match_player (first_best prefix_ratio) sample_ktc_df sample_name_map
       "Ja'Marr" []
     = (Ok {| Team.Player := "Ja'Marr";
              Team.KTC_Name := "Ja'Marr Chase";
              Team.Position := VStr "WR2";
              Team.KTC_Value := VStr "9,999";
              Team.Age := VStr "23.9 y.o." |},
        [("Ja'Marr"%string, ["Justin Jefferson"; "Ja'Marr Chase"]%string)]).
Proof.
  split.
  - destruct (fuzzy_fallback_threshold sample_extractOne sample_ktc_df
                sample_name_map "Unknown Player123"
                ("unknown", "player123")%string "Justin Jefferson" 0 [])
      as (best & _ & _ & _ & H).
    + vm_compute. reflexivity.
    + vm_compute. reflexivity.
    + vm_compute. reflexivity.
    + now left.
    + apply H. lia.
  - destruct (fuzzy_fallback_threshold (first_best prefix_ratio) sample_ktc_df
                sample_name_map "Ja'Marr" ("ja'marr", "")%string
                "Ja'Marr Chase" 85 [])
      as (best & Hbest & _ & H & _).
    + vm_compute. reflexivity.
    + vm_compute. reflexivity.
    + vm_compute. reflexivity.
    + right. now left.
    + vm_compute in Hbest. injection Hbest as <-. apply H. lia.
Defined.

(** *** The loop over the roster *)

Section LoopFacts.

Variable extractOne : string -> list string -> option (string * Z).
Variable ktc_df : list Ktc.Row.




End LoopFacts.

(** C6 (the code misses the case): with an empty valuation list the frame
    has no column [Name], and the first roster player makes the matcher
    raise [KeyError]; no "No Match" row is built and [extractOne] is not
    reached. *)
Theorem empty_valuation_list_raises
    (extractOne : string -> list string -> option (string * Z))
    p_name rest key log :
  normalize_name p_name = Ok key ->
  match_roster extractOne [] (p_name :: rest) log = (Raise KeyError, log).
Proof.
  intros Hkey.
  unfold match_roster, mbind, lift. cbn [ktc_name_map build_name_map match_loop].
  unfold mbind, match_player, mbind, best_match_of, mbind, lift.
  rewrite Hkey, lookup_empty. reflexivity.
Qed.

Lemma empty_valuation_list_raises_witness :
  match_roster sample_extractOne [] ["Justin Jefferson"; "Unknown Player123"]%string []
  = (Raise KeyError, []).
Proof.
  apply (empty_valuation_list_raises sample_extractOne "Justin Jefferson"
           ["Unknown Player123"%string] ("justin", "jefferson")%string []).
  vm_compute. reflexivity.
Defined.

(** C8 (the code misses two cases): the loop does not always produce a row
    per roster player.  With a one-player roster it produces no row at all
    when the valuation list is empty, and none either when a valuation
    record has an empty name, since building the mapping raises. *)
Theorem match_roster_no_rows
    (extractOne : string -> list string -> option (string * Z)) :
  match_roster extractOne [] ["Justin Jefferson"%string] [] = (Raise KeyError, [])
  /\ match_roster extractOne
       [{| Ktc.Rank := "1"; Ktc.Name := ""; Ktc.Team := "N/A";
           Ktc.Position := "WR1"; Ktc.Age := "N/A"; Ktc.KTC_Value := "0" |}]
       ["Justin Jefferson"%string] [] = (Raise IndexError, []).
Proof. split; reflexivity. Qed.

(** What does hold of the loop: over a non-empty valuation list, when every
    name has a token and [extractOne] meets its contract, the loop returns
    one row per roster player, in the order of the roster. *)

Lemma build_name_map_ok rows :
  Forall (fun r => has_token (Ktc.Name r)) rows ->
  forall m, exists m', build_name_map rows m = Ok m'.
Proof.
  induction 1 as [|r rows [k Hk] _ IH]; intros m.
  - now exists m.
  - cbn [build_name_map]. rewrite Hk. cbn [res_bind]. apply IH.
Qed.

Section LoopCompletes.

Variable ratio : string -> string -> Z.
Variable extractOne : string -> list string -> option (string * Z).
Hypothesis extractOne_best :
  forall query choices,
    choices <> [] ->
    exists c, extractOne query choices = Some (c, ratio query c)
              /\ In c choices
              /\ forall c', In c' choices -> ratio query c' <= ratio query c.

Variable ktc_df : list Ktc.Row.
Hypothesis ktc_df_rows : ktc_df <> [].




End LoopCompletes.

(** ** Binary64 arithmetic on integers *)

Lemma digits2_pos_size p : digits2_pos p = Pos.size p.
Proof. induction p; simpl; congruence. Qed.

Lemma digits2_bounds p :
  2 ^ (Zpos (digits2_pos p) - 1) <= Zpos p < 2 ^ Zpos (digits2_pos p).
Proof.
  induction p as [p IH|p IH|].
  - cbn [digits2_pos]. rewrite Pos2Z.inj_succ.
    replace (Z.succ (Zpos (digits2_pos p)) - 1) with (Z.succ (Zpos (digits2_pos p) - 1)) by lia.
    rewrite !Z.pow_succ_r by lia. lia.
  - cbn [digits2_pos]. rewrite Pos2Z.inj_succ.
    replace (Z.succ (Zpos (digits2_pos p)) - 1) with (Z.succ (Zpos (digits2_pos p) - 1)) by lia.
    rewrite !Z.pow_succ_r by lia. lia.
  - cbn. lia.
Qed.

Lemma digits2_unique p d :
  2 ^ (d - 1) <= Zpos p < 2 ^ d -> Zpos (digits2_pos p) = d.
Proof.
  intros [Hlo Hhi]. pose proof (digits2_bounds p) as [Hlo' Hhi'].
  assert (0 < d). { destruct (Z_lt_le_dec 0 d); [assumption|]. 
    assert (2 ^ d <= 2 ^ 0) by (destruct (Z.eq_dec d 0) as [->|]; [lia|rewrite Z.pow_neg_r by lia; cbn; lia]). cbn in H. lia. }
  destruct (Z.lt_trichotomy (Zpos (digits2_pos p)) d) as [H1|[H1|H1]]; [|assumption|].
  - assert (2 ^ Zpos (digits2_pos p) <= 2 ^ (d - 1)) by (apply Z.pow_le_mono_r; lia). lia.
  - assert (2 ^ d <= 2 ^ (Zpos (digits2_pos p) - 1)) by (apply Z.pow_le_mono_r; lia). lia.
Qed.

Lemma iter_xO_Z m k : Zpos (Pos.iter xO m k) = Zpos m * 2 ^ Zpos k.
Proof.
  revert m. induction k using Pos.peano_ind; intros m.
  - cbn. lia.
  - rewrite Pos.iter_succ, Pos2Z.inj_succ, Z.pow_succ_r by lia.
    rewrite Pos2Z.inj_xO, IHk. lia.
Qed.

Lemma iter_shr_1_exact n : forall z, 0 < z ->
  SpecFloat.iter_pos shr_1 n {| shr_m := z * 2 ^ Zpos n; shr_r := false; shr_s := false |}
  = {| shr_m := z; shr_r := false; shr_s := false |}.
Proof.
  assert (Hone : forall z, 0 < z ->
     shr_1 {| shr_m := z * 2; shr_r := false; shr_s := false |}
     = {| shr_m := z; shr_r := false; shr_s := false |}).
  { intros z Hz. destruct z as [|p|p]; try lia. rewrite Z.mul_comm. reflexivity. }
  induction n as [n IH|n IH|]; intros z Hz.
  - cbn [SpecFloat.iter_pos].
    replace (z * 2 ^ Zpos n~1) with ((z * 2 ^ Zpos n * 2 ^ Zpos n) * 2).
    2:{ replace (Zpos n~1) with (Zpos n + Zpos n + 1) by lia.
        rewrite !Z.pow_add_r by lia. change (2 ^ 1) with 2. ring. }
    rewrite Hone by (apply Z.mul_pos_pos; [apply Z.mul_pos_pos|]; lia).
    rewrite IH by (apply Z.mul_pos_pos; lia). apply IH; assumption.
  - cbn [SpecFloat.iter_pos].
    replace (z * 2 ^ Zpos n~0) with ((z * 2 ^ Zpos n) * 2 ^ Zpos n).
    2:{ replace (Zpos n~0) with (Zpos n + Zpos n) by lia.
        rewrite !Z.pow_add_r by lia. ring. }
    rewrite IH by (apply Z.mul_pos_pos; lia). apply IH; assumption.
  - cbn [SpecFloat.iter_pos]. change (2 ^ 1) with 2. apply Hone; assumption.
Qed.

Lemma Zdigits2_mul_pow2 z n :
  0 < z -> 0 <= n -> Zdigits2 (z * 2 ^ n) = Zdigits2 z + n.
Proof.
  intros Hz Hn. destruct z as [|p|p]; try lia.
  assert (Hpos : 0 < Zpos p * 2 ^ n) by (apply Z.mul_pos_pos; [lia | apply Z.pow_pos_nonneg; lia]).
  destruct (Zpos p * 2 ^ n) as [|r|r] eqn:Hr; try lia.
  cbn [Zdigits2]. apply digits2_unique. rewrite <- Hr.
  pose proof (digits2_bounds p) as [Hlo Hhi].
  assert (Hd : 0 < Zpos (digits2_pos p)) by lia.
  replace (Zpos (digits2_pos p) + n - 1) with ((Zpos (digits2_pos p) - 1) + n) by lia.
  rewrite !Z.pow_add_r by lia.
  assert (0 < 2 ^ n) by (apply Z.pow_pos_nonneg; lia).
  split; [apply Z.mul_le_mono_nonneg_r | apply Z.mul_lt_mono_pos_r]; lia.
Qed.

Lemma fexp_normal e : -1021 <= e -> fexp F.prec F.emax e = e - 53.
Proof. unfold fexp, emin, F.prec, F.emax. lia. Qed.

Lemma shr_fexp_exact z n e :
  0 < z -> 0 <= n -> Zdigits2 z = 53 -> -1074 <= e + n ->
  shr_fexp F.prec F.emax (z * 2 ^ n) e loc_Exact
  = ({| shr_m := z; shr_r := false; shr_s := false |}, e + n).
Proof.
  intros Hz Hn Hd He. unfold shr_fexp.
  rewrite Zdigits2_mul_pow2, Hd by assumption.
  rewrite fexp_normal by lia.
  replace (53 + n + e - 53 - e) with n by lia.
  cbn [shr_record_of_loc]. unfold shr.
  destruct n as [|q|q]; try lia.
  - rewrite Z.pow_0_r, Z.mul_1_r, Z.add_0_r. reflexivity.
  - rewrite iter_shr_1_exact by assumption. reflexivity.
Qed.

Lemma binary_round_aux_exact z n e :
  0 < z -> 0 <= n -> Zdigits2 z = 53 -> -1074 <= e + n <= 971 ->
  binary_round_aux F.prec F.emax false (z * 2 ^ n) e loc_Exact
  = S754_finite false (Z.to_pos z) (e + n).
Proof.
  intros Hz Hn Hd He. unfold binary_round_aux.
  rewrite shr_fexp_exact by (assumption || lia).
  cbn [shr_m loc_of_shr_record round_nearest_even].
  rewrite <- (Z.mul_1_r z) at 1. change 1 with (2 ^ 0) at 1.
  rewrite shr_fexp_exact by (assumption || lia).
  cbn [shr_m]. destruct z as [|p|p]; try lia.
  rewrite Z.add_0_r.
  replace (e + n <=? F.emax - F.prec) with true
    by (symmetry; apply Z.leb_le; unfold F.emax, F.prec; lia).
  reflexivity.
Qed.

Lemma binary_round_value m k p :
  Zpos m = Zpos p * 2 ^ k -> 0 <= k -> Zpos p < 2 ^ 53 ->
  binary_round F.prec F.emax false m (- k) = canon p.
Proof.
  intros Hm Hk Hp. unfold binary_round, canon.
  set (d := Zpos (digits2_pos p)).
  pose proof (digits2_bounds p) as [Hlo Hhi]. fold d in Hlo, Hhi.
  assert (Hd1 : 1 <= d) by (unfold d; lia).
  assert (Hd53 : d <= 53).
  { destruct (Z_le_gt_dec d 53); [assumption|].
    assert (2 ^ 53 <= 2 ^ (d - 1)) by (apply Z.pow_le_mono_r; lia). lia. }
  assert (Hdm : Zpos (digits2_pos m) = d + k).
  { change (Zpos (digits2_pos m)) with (Zdigits2 (Zpos m)).
    rewrite Hm, Zdigits2_mul_pow2 by lia. reflexivity. }
  rewrite Hdm. replace (d + k + - k) with d by lia.
  rewrite fexp_normal by lia.
  set (zc := Zpos p * 2 ^ (53 - d)).
  assert (Hzc : 0 < zc) by (apply Z.mul_pos_pos; [lia | apply Z.pow_pos_nonneg; lia]).
  assert (Hdzc : Zdigits2 zc = 53).
  { unfold zc. rewrite Zdigits2_mul_pow2 by lia. cbn [Zdigits2]. fold d. lia. }
  unfold shl_align.
  destruct (d - 53 - - k) as [|q|q] eqn:Hq.
  - replace (Zpos m) with (zc * 2 ^ 0).
    2:{ rewrite Hm. unfold zc. rewrite <- Z.mul_assoc, <- Z.pow_add_r by lia.
        f_equal. f_equal. lia. }
    rewrite binary_round_aux_exact by (assumption || lia).
    f_equal. lia.
  - replace (Zpos m) with (zc * 2 ^ Zpos q).
    2:{ rewrite Hm. unfold zc. rewrite <- Z.mul_assoc, <- Z.pow_add_r by lia.
        f_equal. f_equal. lia. }
    rewrite binary_round_aux_exact by (assumption || lia).
    f_equal. lia.
  - rewrite iter_xO_Z.
    replace (Zpos m * 2 ^ Zpos q) with (zc * 2 ^ 0).
    2:{ rewrite Hm. unfold zc. rewrite Z.pow_0_r, Z.mul_1_r.
        rewrite <- Z.mul_assoc, <- Z.pow_add_r by lia. f_equal. f_equal. lia. }
    rewrite binary_round_aux_exact by (assumption || lia).
    f_equal. lia.
Qed.

Lemma of_Z_pos p : Zpos p < 2 ^ 53 -> F.of_Z (Zpos p) = canon p.
Proof.
  intros Hp. unfold F.of_Z, binary_normalize.
  change 0 with (- 0). apply binary_round_value; [|lia|assumption].
  rewrite Z.pow_0_r. lia.
Qed.

Lemma shl_align_fst m e e' :
  e' <= e -> Zpos (fst (shl_align m e e')) = Zpos m * 2 ^ (e - e').
Proof.
  intros He. unfold shl_align. destruct (e' - e) as [|q|q] eqn:Hq; try lia.
  - cbn [fst]. replace (e - e') with 0 by lia. rewrite Z.pow_0_r. lia.
  - cbn [fst]. rewrite iter_xO_Z. f_equal. f_equal. lia.
Qed.

Lemma canon_add a b :
  Zpos a + Zpos b < 2 ^ 53 ->
  F.add (canon a) (canon b) = canon (a + b).
Proof.
  intros Hab. unfold F.add, canon at 1 2. cbn [SFadd cond_Zopp].
  set (da := Zpos (digits2_pos a)). set (db := Zpos (digits2_pos b)).
  pose proof (digits2_bounds a) as [Hloa Hhia]. fold da in Hloa, Hhia.
  pose proof (digits2_bounds b) as [Hlob Hhib]. fold db in Hlob, Hhib.
  assert (Hda : 1 <= da <= 53).
  { split; [unfold da; lia|]. destruct (Z_le_gt_dec da 53); [assumption|].
    assert (2 ^ 53 <= 2 ^ (da - 1)) by (apply Z.pow_le_mono_r; lia). lia. }
  assert (Hdb : 1 <= db <= 53).
  { split; [unfold db; lia|]. destruct (Z_le_gt_dec db 53); [assumption|].
    assert (2 ^ 53 <= 2 ^ (db - 1)) by (apply Z.pow_le_mono_r; lia). lia. }
  set (ez := Z.min (da - 53) (db - 53)).
  rewrite !shl_align_fst by (unfold ez; lia).
  assert (Hpa : 0 < Zpos a * 2 ^ (53 - da)) by (apply Z.mul_pos_pos; [lia | apply Z.pow_pos_nonneg; lia]).
  assert (Hpb : 0 < Zpos b * 2 ^ (53 - db)) by (apply Z.mul_pos_pos; [lia | apply Z.pow_pos_nonneg; lia]).
  rewrite !Z2Pos.id by assumption.
  rewrite <- !Z.mul_assoc, <- !Z.pow_add_r by (unfold ez; lia).
  replace (53 - da + (da - 53 - ez)) with (- ez) by lia.
  replace (53 - db + (db - 53 - ez)) with (- ez) by lia.
  rewrite <- Z.mul_add_distr_r.
  assert (Hs : 0 < (Zpos a + Zpos b) * 2 ^ (- ez))
    by (apply Z.mul_pos_pos; [lia | apply Z.pow_pos_nonneg; unfold ez; lia]).
  destruct ((Zpos a + Zpos b) * 2 ^ (- ez)) as [|s|s] eqn:Hsum; try lia.
  cbn [binary_normalize].
  rewrite <- (Z.opp_involutive ez).
  apply binary_round_value; [symmetry; exact Hsum | unfold ez; lia | exact Hab].
Qed.

Lemma add_of_Z a b :
  0 <= a -> 0 <= b -> a + b < 2 ^ 53 ->
  F.add (F.of_Z a) (F.of_Z b) = F.of_Z (a + b).
Proof.
  intros Ha Hb Hab.
  destruct a as [|a|a]; [|destruct b as [|b|b]|]; try lia.
  - rewrite Z.add_0_l. destruct b as [|b|b]; try lia; [reflexivity|].
    rewrite of_Z_pos by lia. reflexivity.
  - rewrite Z.add_0_r, of_Z_pos by lia. reflexivity.
  - rewrite !of_Z_pos by lia. change (Zpos a + Zpos b) with (Zpos (a + b)).
    rewrite of_Z_pos by (change (Zpos (a + b)) with (Zpos a + Zpos b); lia).
    apply canon_add. assumption.
Qed.

(** ** Signs *)

Lemma iter_pos_invariant {A} (P : A -> Prop) (f : A -> A) :
  (forall x, P x -> P (f x)) -> forall n x, P x -> P (SpecFloat.iter_pos f n x).
Proof.
  intros Hf. induction n as [n IH|n IH|]; intros x Hx; cbn [SpecFloat.iter_pos]; auto.
Qed.

Lemma shr_1_nonneg mrs : 0 <= shr_m mrs -> 0 <= shr_m (shr_1 mrs).
Proof.
  destruct mrs as [m r s]. cbn [shr_m]. intros Hm.
  destruct m as [|[p|p|]|p]; cbn; lia.
Qed.

Lemma shr_fexp_nonneg m e l :
  0 <= m -> 0 <= shr_m (fst (shr_fexp F.prec F.emax m e l)).
Proof.
  intros Hm. unfold shr_fexp, shr.
  assert (H0 : 0 <= shr_m (shr_record_of_loc m l)) by (destruct l as [|[]]; exact Hm).
  destruct (fexp F.prec F.emax (Zdigits2 m + e) - e); cbn [fst]; try exact H0.
  apply (iter_pos_invariant (fun mrs => 0 <= shr_m mrs)); [apply shr_1_nonneg | exact H0].
Qed.

Lemma round_nearest_even_nonneg m l : 0 <= m -> 0 <= round_nearest_even m l.
Proof.
  intros Hm. destruct l as [|[]]; cbn [round_nearest_even]; try lia.
  destruct (Z.even m); lia.
Qed.

Lemma binary_round_aux_nonneg m e l :
  0 <= m -> nonneg (binary_round_aux F.prec F.emax false m e l) = true.
Proof.
  intros Hm. unfold binary_round_aux.
  pose proof (shr_fexp_nonneg m e l Hm) as H1.
  destruct (shr_fexp F.prec F.emax m e l) as [mrs' e']. cbn [fst] in H1.
  pose proof (shr_fexp_nonneg _ e' loc_Exact
                (round_nearest_even_nonneg _ (loc_of_shr_record mrs') H1)) as H2.
  destruct (shr_fexp F.prec F.emax _ e' loc_Exact) as [mrs'' e'']. cbn [fst] in H2.
  destruct (shr_m mrs'') as [|p|p]; try lia; [reflexivity|].
  destruct (e'' <=? F.emax - F.prec); reflexivity.
Qed.

Lemma binary_round_nonneg m e :
  nonneg (binary_round F.prec F.emax false m e) = true.
Proof.
  unfold binary_round. destruct (shl_align _ _ _) as [mz ez].
  apply binary_round_aux_nonneg. lia.
Qed.

Lemma SFdiv_nonneg p q e1 e2 :
  nonneg (SFdiv F.prec F.emax (S754_finite false p e1) (S754_finite false q e2)) = true.
Proof.
  cbn [SFdiv]. unfold SFdiv_core_binary.
  set (m' := match _ - _ - _ with Z0 => _ | Zpos _ => _ | Zneg _ => _ end).
  assert (Hm' : 0 <= m').
  { unfold m'. destruct (_ - _ - _); try lia. apply Z.shiftl_nonneg. lia. }
  pose proof (Z_div_mod m' (Zpos q) ltac:(lia)) as Hdiv.
  destruct (Z.div_eucl m' (Zpos q)) as [qu r]. destruct Hdiv as [Heq Hr].
  cbn [xorb]. apply binary_round_aux_nonneg. nia.
Qed.

(** ** Comparisons with the thresholds *)

Lemma SFltb_finite_pos m1 e1 m2 e2 :
  SFltb (S754_finite false m1 e1) (S754_finite false m2 e2) = true <->
  e1 < e2 \/ (e1 = e2 /\ (m1 < m2)%positive).
Proof.
  unfold SFltb, SFcompare. change (Pos.compare_cont Eq) with Pos.compare.
  destruct (Z.compare_spec e1 e2) as [He|He|He].
  - destruct (Pos.compare_spec m1 m2) as [Hm|Hm|Hm]; split; intros H;
      try discriminate H; try reflexivity.
    + destruct H as [H|[_ H]]; [lia|]. subst. now apply Pos.lt_irrefl in H.
    + right. split; assumption.
    + destruct H as [H|[_ H]]; [lia|]. exfalso. apply (Pos.lt_irrefl m1).
      now apply Pos.lt_trans with m2.
  - split; intros _; [now left | reflexivity].
  - split; intros H; [discriminate H|]. destruct H as [H|[H _]]; lia.
Qed.

Lemma big_lt m : (m < 6184752906240000)%positive -> (7559142440960000 < m)%positive -> False.
Proof.
  intros Hm Hm'. pose proof (Pos.lt_trans _ _ _ Hm' Hm) as H.
  apply Pos.compare_lt_iff in H. vm_compute in H. discriminate H.
Qed.

Lemma lt_90000_not_gt_110000 x :
  lt_int x 90000 = true -> gt_int x 110000 = false.
Proof.
  unfold lt_int, gt_int, F.ltb.
  replace (F.of_Z 90000) with (S754_finite false 6184752906240000 (-36)) by (vm_compute; reflexivity).
  replace (F.of_Z 110000) with (S754_finite false 7559142440960000 (-36)) by (vm_compute; reflexivity).
  destruct x as [s|s| |s m e].
  - reflexivity.
  - destruct s; [reflexivity | discriminate].
  - reflexivity.
  - destruct s; [reflexivity|].
    intros H. apply SFltb_finite_pos in H.
    destruct (SFltb (S754_finite false 7559142440960000 (-36)) (S754_finite false m e)) eqn:E;
      [|reflexivity].
    apply SFltb_finite_pos in E. exfalso.
    destruct H as [H|[H Hm]]; destruct E as [E|[E Hm']];
      first [exact (big_lt m Hm Hm') | clear - H E; lia].
Qed.

(** ** The pattern of [parse_age] *)

Lemma take_digits_app l :
  l = fst (PyFloat.take_digits l) ++ snd (PyFloat.take_digits l).
Proof.
  induction l as [|c l IH]; [reflexivity|].
  cbn [PyFloat.take_digits]. destruct (Str.isdigit c); [|reflexivity].
  destruct (PyFloat.take_digits l) as [ds rest]. cbn [fst snd app] in *. congruence.
Qed.

Lemma take_digits_length l :
  (length (snd (PyFloat.take_digits l)) <= length l)%nat.
Proof.
  rewrite (take_digits_app l) at 2. rewrite length_app. lia.
Qed.

Lemma ends_plus_digit fuel s :
  Re.ends (Re.Plus Re.Digit) fuel s = digits_more fuel s.
Proof. destruct fuel; reflexivity. Qed.

Lemma digits_more_head n :
  forall s, (length s <= S n)%nat ->
    match PyFloat.take_digits s with
    | ([], _) => digits_more n s = []
    | (_ :: _, rest) => exists tl, digits_more n s = rest :: tl
    end.
Proof.
  induction n as [|n IH]; intros [|c s] Hlen; try reflexivity.
  - cbn [PyFloat.take_digits digits_more]. destruct (Str.isdigit c); [|reflexivity].
    destruct s; [|cbn in Hlen; lia]. cbn. now exists [].
  - cbn [PyFloat.take_digits digits_more]. destruct (Str.isdigit c); [|reflexivity].
    cbn [map concat]. rewrite app_nil_r.
    specialize (IH s ltac:(cbn in Hlen; lia)).
    destruct (PyFloat.take_digits s) as [[|d ds] rest] eqn:E.
    + rewrite IH. exists []. cbn.
      pose proof (take_digits_app s) as Hs. rewrite E in Hs. cbn in Hs. now subst.
    + destruct IH as [tl ->]. now exists (tl ++ [s]).
Qed.

Lemma take_suffix {A} (s m rest : list A) :
  s = m ++ rest -> take (length s - length rest) s = m.
Proof.
  intros ->. rewrite length_app.
  replace (length m + length rest - length rest)%nat with (length m) by lia.
  now rewrite take_app_length.
Qed.

Lemma match_at_age_pattern s :
  Re.match_at age_pattern s = numeral_text <$> numeral_at s.
Proof.
  unfold Re.match_at, age_pattern, numeral_at.
  cbn [Re.ends].
  change ((fix more (n : nat) (s0 : list ascii) {struct n} : list (list ascii) :=
            concat (map (fun s' => match n with O => [s'] | S n' => more n' s' ++ [s'] end)
              match s0 with [] => [] | c :: s' => if Str.isdigit c then [s'] else [] end)))
    with digits_more.
  pose proof (digits_more_head (length s) s ltac:(lia)) as H1.
  pose proof (take_digits_app s) as Hs.
  pose proof (take_digits_length s) as Hl.
  destruct (PyFloat.take_digits s) as [[|d ip] r1] eqn:E1; cbn [fst snd] in *.
  - rewrite H1. reflexivity.
  - destruct H1 as [tl ->]. cbn [map concat].
    destruct r1 as [|c r2].
    + cbn [Re.ends map concat app fmap option_fmap option_map numeral_text].
      f_equal. apply take_suffix. exact Hs.
    + destruct (Ascii.eqb c ".") eqn:Ec.
      * apply Ascii.eqb_eq in Ec. subst c. cbn [Re.ends Ascii.eqb Bool.eqb map concat].
        rewrite app_nil_r.
        change ((fix more (n : nat) (s0 : list ascii) {struct n} : list (list ascii) :=
            concat (map (fun s' => match n with O => [s'] | S n' => more n' s' ++ [s'] end)
              match s0 with [] => [] | c :: s' => if Str.isdigit c then [s'] else [] end)))
          with digits_more.
        pose proof (digits_more_head (length s) r2
                      ltac:(cbn [length] in Hl; lia)) as H2.
        pose proof (take_digits_app r2) as Hr2.
        destruct (PyFloat.take_digits r2) as [[|f fp] r3] eqn:E2; cbn [fst snd] in *.
        -- rewrite H2. cbn [app fmap option_fmap option_map numeral_text].
           f_equal. apply take_suffix. exact Hs.
        -- destruct H2 as [tl2 ->]. cbn [app fmap option_fmap option_map numeral_text].
           f_equal. apply take_suffix. rewrite Hs at 1. rewrite Hr2 at 1.
           cbn [app]. rewrite <- app_assoc. reflexivity.
      * assert (Hc : forall X, match c with "."%char => X | _ => Some (d :: ip, @nil ascii) end = Some (d :: ip, [])).
        { intros X. destruct c as [[] [] [] [] [] [] [] []]; try reflexivity. discriminate. }
        rewrite Hc.
        cbn [map concat app fmap option_fmap option_map numeral_text].
        f_equal. apply take_suffix. exact Hs.
Qed.

Lemma search_age_pattern s :
  Re.search age_pattern s = numeral_text <$> first_numeral s.
Proof.
  induction s as [|c s IH].
  - reflexivity.
  - cbn [Re.search first_numeral]. rewrite match_at_age_pattern.
    destruct (numeral_at (c :: s)); [reflexivity|]. exact IH.
Qed.

(** ** [float] on the text of a numeral *)

Lemma chars_of_chars l : Str.chars (Str.of_chars l) = l.
Proof. apply list_ascii_of_string_of_list_ascii. Qed.

Lemma isdigit_facts c :
  Str.isdigit c = true ->
  Str.isspace c = false /\ c <> "_"%char /\ c <> "-"%char /\ c <> "+"%char
  /\ c <> "."%char /\ c <> ","%char.
Proof.
  destruct c as [[] [] [] [] [] [] [] []]; cbn; intros H;
    try discriminate H; repeat split; discriminate.
Qed.

Lemma take_digits_digits l : Forall (fun c => Str.isdigit c = true) (fst (PyFloat.take_digits l)).
Proof.
  induction l as [|c l IH]; [constructor|].
  cbn [PyFloat.take_digits]. destruct (Str.isdigit c) eqn:E; [|constructor].
  destruct (PyFloat.take_digits l). cbn [fst] in *. now constructor.
Qed.

Lemma take_digits_all ds rest :
  Forall (fun c => Str.isdigit c = true) ds ->
  PyFloat.take_digits (ds ++ rest)
  = (ds ++ fst (PyFloat.take_digits rest), snd (PyFloat.take_digits rest)).
Proof.
  induction 1 as [|c ds Hc _ IH]; cbn [app].
  - now destruct (PyFloat.take_digits rest).
  - cbn [PyFloat.take_digits]. rewrite Hc, IH. reflexivity.
Qed.

Lemma take_digits_only ds :
  Forall (fun c => Str.isdigit c = true) ds -> PyFloat.take_digits ds = (ds, []).
Proof.
  intros H. rewrite <- (app_nil_r ds) at 1. rewrite take_digits_all by exact H.
  cbn [PyFloat.take_digits fst snd]. now rewrite app_nil_r.
Qed.

Lemma numeral_at_digits l ip fp :
  numeral_at l = Some (ip, fp) ->
  ip <> [] /\ Forall (fun c => Str.isdigit c = true) ip
  /\ Forall (fun c => Str.isdigit c = true) fp.
Proof.
  unfold numeral_at. pose proof (take_digits_digits l) as Hip.
  destruct (PyFloat.take_digits l) as [[|d ds] rest]; [discriminate|].
  cbn [fst] in Hip. intros H.
  assert (Hcases : (ip = d :: ds /\ fp = []) \/
                   (ip = d :: ds /\ exists r, fp = fst (PyFloat.take_digits r))).
  { destruct rest as [|c r]; [inversion H; now left|].
    destruct c as [[] [] [] [] [] [] [] []]; inversion H; (now left) || (right; eauto). }
  destruct Hcases as [[-> ->]|[-> [r ->]]]; repeat split; try easy.
  apply take_digits_digits.
Qed.

Lemma first_numeral_digits l ip fp :
  first_numeral l = Some (ip, fp) ->
  ip <> [] /\ Forall (fun c => Str.isdigit c = true) ip
  /\ Forall (fun c => Str.isdigit c = true) fp.
Proof.
  induction l as [|c l IH]; cbn [first_numeral].
  - destruct (numeral_at []) as [n|] eqn:E; [|discriminate].
    intros H; inversion H; subst. exact (numeral_at_digits _ _ _ E).
  - destruct (numeral_at (c :: l)) as [n|] eqn:E; [|exact IH].
    intros H; inversion H; subst. exact (numeral_at_digits _ _ _ E).
Qed.

Lemma float_isspace_isspace c : PyFloat.isspace c = true -> Str.isspace c = true.
Proof.
  destruct c as [[] [] [] [] [] [] [] []]; cbn; intros H;
    (reflexivity || discriminate H).
Qed.

Lemma lstrip_chars_id c l :
  Str.isspace c = false -> PyFloat.lstrip_chars (c :: l) = c :: l.
Proof.
  intros H. cbn [PyFloat.lstrip_chars].
  destruct (PyFloat.isspace c) eqn:E; [|reflexivity].
  apply float_isspace_isspace in E. congruence.
Qed.

Lemma rstrip_chars_id l c :
  Str.isspace c = false -> PyFloat.rstrip_chars (l ++ [c]) = l ++ [c].
Proof.
  intros H. unfold PyFloat.rstrip_chars. rewrite rev_app_distr. cbn [rev app].
  rewrite lstrip_chars_id by exact H. cbn [rev]. now rewrite rev_involutive.
Qed.

Lemma drop_underscores_id l :
  forall prev, prev <> Some "_"%char ->
  Forall (fun c => c <> "_"%char) l ->
  PyFloat.drop_underscores prev l = Some l.
Proof.
  induction l as [|c l IH]; intros prev Hprev Hl.
  - cbn. destruct prev as [p|]; [|reflexivity].
    destruct p as [[] [] [] [] [] [] [] []]; try reflexivity. congruence.
  - inversion Hl as [|? ? Hc Hl']; subst.
    cbn [PyFloat.drop_underscores].
    replace (Ascii.eqb c "_") with false by (symmetry; now apply Ascii.eqb_neq).
    assert (Hrec : cons c <$> PyFloat.drop_underscores (Some c) l = Some (c :: l)).
    { rewrite IH; [reflexivity | congruence | assumption]. }
    destruct prev as [p|]; [|exact Hrec].
    destruct p as [[] [] [] [] [] [] [] []]; try exact Hrec. congruence.
Qed.

Lemma numeral_text_shape ip fp :
  ip <> [] ->
  Forall (fun c => Str.isdigit c = true) ip ->
  Forall (fun c => Str.isdigit c = true) fp ->
  (exists d t, numeral_text (ip, fp) = d :: t /\ Str.isdigit d = true)
  /\ (exists t d, numeral_text (ip, fp) = t ++ [d] /\ Str.isdigit d = true)
  /\ Forall (fun c => c <> "_"%char) (numeral_text (ip, fp)).
Proof.
  intros Hne Hip Hfp. split; [|split].
  - destruct ip as [|d ip]; [contradiction|]. inversion Hip; subst.
    destruct fp; cbn [numeral_text app]; eauto.
  - cbn [numeral_text]. destruct fp as [|f fp].
    + destruct (exists_last Hne) as (t & d & ->). exists t, d. split; [reflexivity|].
      apply Forall_app in Hip as [_ Hd]. now inversion Hd.
    + assert (Hf : f :: fp <> []) by discriminate.
      destruct (exists_last Hf) as (t & d & Ht). rewrite Ht.
      exists (ip ++ "."%char :: t), d. split.
      * now rewrite <- app_assoc.
      * rewrite Ht in Hfp. apply Forall_app in Hfp as [_ Hd]. now inversion Hd.
  - assert (Hd : forall l, Forall (fun c => Str.isdigit c = true) l ->
                           Forall (fun c => c <> "_"%char) l).
    { intros l Hl. eapply Forall_impl; [exact Hl|].
      intros c Hc. now apply isdigit_facts in Hc. }
    cbn [numeral_text]. destruct fp as [|f fp]; [now apply Hd|].
    apply Forall_app. split; [now apply Hd|]. constructor; [discriminate | now apply Hd].
Qed.

Lemma parse_decimal_numeral ip fp :
  ip <> [] ->
  Forall (fun c => Str.isdigit c = true) ip ->
  Forall (fun c => Str.isdigit c = true) fp ->
  PyFloat.parse_decimal (numeral_text (ip, fp)) = Some (numeral_value (ip, fp), []).
Proof.
  intros Hne Hip Hfp. unfold PyFloat.parse_decimal.
  assert (Hsign : PyFloat.parse_sign (numeral_text (ip, fp)) = (false, numeral_text (ip, fp))).
  { destruct (numeral_text_shape ip fp Hne Hip Hfp) as [(d & t & -> & Hd) _].
    apply isdigit_facts in Hd as (_ & _ & Hm & Hp & _).
    unfold PyFloat.parse_sign.
    destruct d as [[] [] [] [] [] [] [] []]; try reflexivity; congruence. }
  rewrite Hsign. cbn [numeral_text numeral_value]. destruct fp as [|f fp].
  - rewrite (take_digits_only ip Hip), !app_nil_r.
    destruct ip as [|d ip]; [contradiction|]. reflexivity.
  - rewrite take_digits_all by assumption.
    change (PyFloat.take_digits ("."%char :: f :: fp)) with (@nil ascii, "."%char :: f :: fp).
    cbn [fst snd]. rewrite app_nil_r, (take_digits_only (f :: fp) Hfp).
    destruct (ip ++ f :: fp) eqn:E; [now destruct ip|].
    cbn [PyFloat.parse_exponent]. rewrite Z.sub_0_l. reflexivity.
Qed.

Lemma py_float_numeral ip fp :
  ip <> [] ->
  Forall (fun c => Str.isdigit c = true) ip ->
  Forall (fun c => Str.isdigit c = true) fp ->
  py_float (Str.of_chars (numeral_text (ip, fp))) = Ok (numeral_value (ip, fp)).
Proof.
  intros Hne Hip Hfp. unfold py_float, PyFloat.of_string. rewrite chars_of_chars.
  destruct (numeral_text_shape ip fp Hne Hip Hfp) as ((d & t & Hhd & Hd) & (t' & d' & Htl & Hd') & Hu).
  rewrite Hhd, lstrip_chars_id by (now apply isdigit_facts in Hd).
  rewrite <- Hhd, Htl, rstrip_chars_id by (now apply isdigit_facts in Hd').
  rewrite <- Htl. unfold PyFloat.of_chars_stripped.
  rewrite drop_underscores_id by (assumption || discriminate).
  now rewrite parse_decimal_numeral.
Qed.

Lemma parse_age_spec v : parse_age v = Ok (spec_parse_age v).
Proof.
  destruct v as [|s| |]; try reflexivity.
  unfold parse_age, spec_parse_age. rewrite search_age_pattern.
  destruct (first_numeral (Str.chars s)) as [[ip fp]|] eqn:E; [|reflexivity].
  cbn [fmap option_fmap option_map].
  destruct (first_numeral_digits _ _ _ E) as (Hne & Hip & Hfp).
  now apply py_float_numeral.
Qed.

(** ** Float literals

    The floats the statements below name by mantissa and exponent, or as
    the float of an integer, are the binary64 values of the literals 25.7,
    12.05, 12345.0, 5.0 and 0.0. *)

Lemma float_literals :
  Prim2SF 25.7%float = S754_finite false 7233906901463859 (-48)
  /\ Prim2SF 12.05%float = S754_finite false 6783546938726810 (-49)
  /\ Prim2SF 12345%float = F.of_Z 12345
  /\ Prim2SF 5%float = F.of_Z 5
  /\ Prim2SF 0%float = F.zero.
Proof. repeat split; vm_compute; reflexivity. Qed.

(** ** The first numeral, declaratively *)

Lemma take_digits_stop l :
  starts_with_digit l = false -> PyFloat.take_digits l = ([], l).
Proof.
  destruct l as [|c l]; [reflexivity|]. cbn. now intros ->.
Qed.

Lemma numeral_at_text ip fp post :
  ip <> [] ->
  Forall (fun c => Str.isdigit c = true) ip ->
  Forall (fun c => Str.isdigit c = true) fp ->
  numeral_ends fp post ->
  numeral_at (numeral_text (ip, fp) ++ post) = Some (ip, fp).
Proof.
  intros Hne Hip Hfp [Hpost Hpoint]. unfold numeral_at. cbn [numeral_text].
  destruct fp as [|f fp].
  - rewrite take_digits_all, take_digits_stop by assumption.
    cbn [fst snd]. rewrite app_nil_r.
    destruct ip as [|d ip]; [contradiction|].
    destruct post as [|c post']; [reflexivity|].
    destruct (Ascii.eqb_spec c ".") as [->|Hc].
    + rewrite take_digits_stop by (now apply Hpoint). reflexivity.
    + destruct c as [[] [] [] [] [] [] [] []]; try reflexivity. contradiction.
  - rewrite <- app_assoc. rewrite take_digits_all by assumption.
    change (PyFloat.take_digits (("."%char :: f :: fp) ++ post))
      with (@nil ascii, "."%char :: (f :: fp) ++ post).
    cbn [fst snd]. rewrite app_nil_r.
    destruct ip as [|d ip]; [contradiction|].
    rewrite take_digits_all, take_digits_stop by assumption.
    cbn [fst]. now rewrite app_nil_r.
Qed.

Lemma first_numeral_skip pre l :
  Forall (fun c => Str.isdigit c = false) pre ->
  first_numeral (pre ++ l) = first_numeral l.
Proof.
  induction 1 as [|c pre Hc _ IH]; [reflexivity|].
  cbn [app first_numeral]. unfold numeral_at at 1.
  cbn [PyFloat.take_digits]. rewrite Hc. exact IH.
Qed.

Lemma first_numeral_none l :
  Forall (fun c => Str.isdigit c = false) l -> first_numeral l = None.
Proof.
  intros H. rewrite <- (app_nil_r l). now rewrite first_numeral_skip.
Qed.

Lemma first_numeral_text pre ip fp post :
  Forall (fun c => Str.isdigit c = false) pre ->
  ip <> [] ->
  Forall (fun c => Str.isdigit c = true) ip ->
  Forall (fun c => Str.isdigit c = true) fp ->
  numeral_ends fp post ->
  first_numeral (pre ++ numeral_text (ip, fp) ++ post) = Some (ip, fp).
Proof.
  intros Hpre Hne Hip Hfp Hends. rewrite first_numeral_skip by assumption.
  pose proof (numeral_at_text ip fp post Hne Hip Hfp Hends) as Hat.
  destruct (numeral_text (ip, fp) ++ post) as [|c l]; cbn [first_numeral];
    now rewrite Hat.
Qed.

(** ** Signs of parsed numbers *)

Lemma of_decimal_nonneg m e : nonneg (F.of_decimal false m e) = true.
Proof.
  unfold F.of_decimal. destruct m as [|p]; [reflexivity|].
  destruct e as [|k|k].
  - apply binary_round_nonneg.
  - apply binary_round_nonneg.
  - apply SFdiv_nonneg.
Qed.

Lemma nonneg_leb x : nonneg x = true -> F.leb F.zero x = true.
Proof. destruct x as [s|[]| |[] m e]; try reflexivity; discriminate. Qed.

Lemma spec_parse_age_nonneg v : nonneg (spec_parse_age v) = true.
Proof.
  destruct v as [|s| |]; try reflexivity. unfold spec_parse_age.
  destruct (first_numeral (Str.chars s)) as [[ip fp]|]; [|reflexivity].
  apply of_decimal_nonneg.
Qed.

(** C4: [parse_age] returns, never raises, and its result is the value of
    the first numeral of the text: 0.0 for a value that is not a string and
    for a text without a digit; for a text that reads [pre], then a numeral
    of digits [ip] with optional fraction digits [fp], then [post], with no
    digit in [pre] and the numeral not continued by [post], the float
    nearest to the number the numeral denotes.  In particular "25.7 y.o."
    gives 25.7, and the empty text and [None] give 0.0. *)
Theorem parse_age_first_numeral :
  (forall v, parse_age v = Ok (spec_parse_age v))
  /\ (forall v, (forall s, v <> VStr s) -> parse_age v = Ok F.zero)
  /\ (forall s, Forall (fun c => Str.isdigit c = false) (Str.chars s) ->
                parse_age (VStr s) = Ok F.zero)
  /\ (forall s pre ip fp post,
        Str.chars s = pre ++ numeral_text (ip, fp) ++ post ->
        Forall (fun c => Str.isdigit c = false) pre ->
        ip <> [] ->
        Forall (fun c => Str.isdigit c = true) ip ->
        Forall (fun c => Str.isdigit c = true) fp ->
        numeral_ends fp post ->
        parse_age (VStr s)
        = Ok (F.of_decimal false (PyFloat.number (ip ++ fp))
                (- Z.of_nat (length fp))))
  /\ parse_age (VStr "25.7 y.o.") = Ok (S754_finite false 7233906901463859 (-48))
  /\ parse_age (VStr "") = Ok F.zero
  /\ parse_age VNone = Ok F.zero.
Proof.
  split; [exact parse_age_spec|]. split; [|split; [|split]].
  - intros [|s| |] Hv; try reflexivity. now destruct (Hv s).
  - intros s Hs. rewrite parse_age_spec. cbn [spec_parse_age].
    now rewrite first_numeral_none.
  - intros s pre ip fp post Hs Hpre Hne Hip Hfp Hends.
    rewrite parse_age_spec. cbn [spec_parse_age].
    rewrite Hs, first_numeral_text by assumption. reflexivity.
  - repeat split; vm_compute; reflexivity.
Qed.

(** [parse_age_first_numeral] at the text "25.7 y.o.": the numeral has
    the digits 25 and 7, and nothing before it. *)
Lemma parse_age_first_numeral_witness :
  parse_age (VStr "25.7 y.o.") = Ok (F.of_decimal false 257 (-1)).
Proof.
  destruct parse_age_first_numeral as (_ & _ & _ & H & _).
  apply (H "25.7 y.o."%string [] (Str.chars "25") (Str.chars "7")
           (Str.chars " y.o.")).
  - reflexivity.
  - constructor.
  - discriminate.
  - repeat constructor.
  - repeat constructor.
  - split; [reflexivity | discriminate].
Defined.

(** C10: for every input [parse_age] returns a float that is at least 0;
    a minus sign before the digits is not read: "-5 y.o." gives 5.0. *)
Theorem parse_age_nonneg :
  (forall v, exists f, parse_age v = Ok f /\ F.leb F.zero f = true)
  /\ parse_age (VStr "-5 y.o.") = Ok (F.of_Z 5).
Proof.
  split.
  - intros v. exists (spec_parse_age v). split; [apply parse_age_spec|].
    apply nonneg_leb, spec_parse_age_nonneg.
  - vm_compute. reflexivity.
Qed.

(** ** [safe_float] *)

Lemma of_decimal_int n : F.of_decimal false n 0 = F.of_Z (Z.of_N n).
Proof. destruct n; reflexivity. Qed.

Lemma filter_commas l :
  forallb (fun c => Str.isdigit c || Ascii.eqb c ",") l = true ->
  List.filter (fun c => negb (Ascii.eqb c ",")) l = List.filter Str.isdigit l.
Proof.
  induction l as [|c l IH]; [reflexivity|]. cbn [forallb List.filter].
  intros H. apply andb_true_iff in H as [Hc Hl]. rewrite (IH Hl).
  destruct (Str.isdigit c) eqn:Ed.
  - apply isdigit_facts in Ed as (_ & _ & _ & _ & _ & Hcomma).
    replace (Ascii.eqb c ",") with false by (symmetry; now apply Ascii.eqb_neq).
    reflexivity.
  - cbn [orb] in Hc. now rewrite Hc.
Qed.

Lemma filter_isdigit l :
  Forall (fun c => Str.isdigit c = true) (List.filter Str.isdigit l).
Proof.
  induction l as [|c l IH]; [constructor|]. cbn [List.filter].
  destruct (Str.isdigit c) eqn:E; [now constructor | exact IH].
Qed.

Lemma filter_isdigit_nonempty l :
  existsb Str.isdigit l = true -> List.filter Str.isdigit l <> [].
Proof.
  induction l as [|c l IH]; [discriminate|]. cbn [existsb List.filter].
  destruct (Str.isdigit c); [discriminate | exact IH].
Qed.

Lemma safe_float_int v n :
  int_value v = Some n -> safe_float v = F.of_Z n.
Proof.
  destruct v as [|s| |]; cbn [int_value]; try discriminate.
  - intros H. injection H as <-. reflexivity.
  - destruct (forallb _ _ && existsb _ _) eqn:E; [|discriminate].
    intros H. injection H as <-. apply andb_true_iff in E as [Hall Hex].
    unfold safe_float, replace_commas, Str.remove_char. cbn [res_bind].
    rewrite (filter_commas _ Hall).
    pose proof (py_float_numeral (List.filter Str.isdigit (Str.chars s)) []
                  (filter_isdigit_nonempty _ Hex) (filter_isdigit _)
                  (List.Forall_nil _)) as Hf.
    cbn [numeral_text numeral_value length Z.of_nat Z.opp] in Hf.
    rewrite app_nil_r in Hf. rewrite Hf. cbn [try_except].
    apply of_decimal_int.
Qed.

(** *** Texts that [float] rejects *)

Lemma float_lstrip_decomp l :
  exists ws, Forall (fun c => PyFloat.isspace c = true) ws
             /\ l = ws ++ PyFloat.lstrip_chars l.
Proof.
  induction l as [|c l (ws & Hws & Hl)]; [now exists []|].
  cbn [PyFloat.lstrip_chars]. destruct (PyFloat.isspace c) eqn:E.
  - exists (c :: ws). split; [now constructor | cbn; congruence].
  - now exists [].
Qed.

Lemma float_rstrip_decomp l :
  exists ws, Forall (fun c => PyFloat.isspace c = true) ws
             /\ l = PyFloat.rstrip_chars l ++ ws.
Proof.
  destruct (float_lstrip_decomp (rev l)) as (ws & Hws & Hl).
  exists (rev ws). split.
  - now apply Forall_rev.
  - unfold PyFloat.rstrip_chars. rewrite <- rev_app_distr, <- Hl.
    now rewrite rev_involutive.
Qed.

Lemma float_char_space c : PyFloat.isspace c = true -> float_char c = true.
Proof. intros H. unfold float_char. now rewrite H. Qed.

Lemma float_char_digit c : Str.isdigit c = true -> float_char c = true.
Proof. intros H. unfold float_char. rewrite H. now rewrite orb_true_r. Qed.

Lemma drop_underscores_chars (P : ascii -> Prop) l :
  P "_"%char ->
  forall prev l',
    PyFloat.drop_underscores prev l = Some l' -> Forall P l' -> Forall P l.
Proof.
  intros Hu. induction l as [|c l IH]; intros prev l' H Hl'; [constructor|].
  cbn [PyFloat.drop_underscores] in H.
  destruct (Ascii.eqb c "_") eqn:Ec.
  - apply Ascii.eqb_eq in Ec. subst c. constructor; [exact Hu|].
    destruct prev as [p|]; [|discriminate].
    destruct (Str.isdigit p); [|discriminate]. exact (IH _ _ H Hl').
  - assert (Hrec : cons c <$> PyFloat.drop_underscores (Some c) l = Some l').
    { destruct prev as [p|]; [|exact H].
      destruct (Ascii.eqb p "_") eqn:Ep.
      - apply Ascii.eqb_eq in Ep. subst p.
        destruct (Str.isdigit c); [exact H | discriminate].
      - destruct p as [[] [] [] [] [] [] [] []]; try exact H; discriminate Ep. }
    destruct (PyFloat.drop_underscores (Some c) l) as [t|] eqn:Et; [|discriminate].
    injection Hrec as <-. inversion Hl'; subst.
    constructor; [assumption | exact (IH _ _ Et ltac:(assumption))].
Qed.

Lemma parse_sign_chars l :
  let '(neg, l1) := PyFloat.parse_sign l in
  exists pre, l = pre ++ l1 /\ Forall (fun c => float_char c = true) pre.
Proof.
  destruct l as [|c l]; [now exists []|].
  unfold PyFloat.parse_sign.
  destruct c as [[] [] [] [] [] [] [] []];
    try (exists []; split; [reflexivity | constructor]);
    (eexists [_]; split; [reflexivity | now repeat constructor]).
Qed.

Lemma take_digits_chars l :
  let '(ds, rest) := PyFloat.take_digits l in
  l = ds ++ rest /\ Forall (fun c => float_char c = true) ds.
Proof.
  pose proof (take_digits_app l) as Happ.
  pose proof (take_digits_digits l) as Hd.
  destruct (PyFloat.take_digits l) as [ds rest]. cbn [fst snd] in *.
  split; [exact Happ|]. eapply Forall_impl; [exact Hd|].
  intros c. apply float_char_digit.
Qed.

Lemma parse_exponent_chars l :
  let '(e, l4) := PyFloat.parse_exponent l in
  exists pre, l = pre ++ l4 /\ Forall (fun c => float_char c = true) pre.
Proof.
  destruct l as [|c l1]; [now exists []|].
  unfold PyFloat.parse_exponent.
  destruct (Ascii.eqb c "e" || Ascii.eqb c "E") eqn:Ec;
    [|exists []; split; [reflexivity | constructor]].
  pose proof (parse_sign_chars l1) as Hs.
  destruct (PyFloat.parse_sign l1) as [neg l2].
  destruct Hs as (ps & -> & Hps).
  pose proof (take_digits_chars l2) as Hd.
  destruct (PyFloat.take_digits l2) as [ds l3]. destruct Hd as [-> Hds].
  destruct ds as [|d ds]; [exists []; split; [reflexivity | constructor]|].
  exists (c :: ps ++ d :: ds). split.
  - cbn [app]. now rewrite <- app_assoc.
  - constructor.
    + unfold float_char. apply orb_true_iff in Ec as [E|E];
        apply Ascii.eqb_eq in E; subst c; reflexivity.
    + apply Forall_app. now split.
Qed.

Lemma parse_decimal_chars l f :
  PyFloat.parse_decimal l = Some (f, []) ->
  Forall (fun c => float_char c = true) l.
Proof.
  unfold PyFloat.parse_decimal.
  pose proof (parse_sign_chars l) as Hs.
  destruct (PyFloat.parse_sign l) as [neg l1]. destruct Hs as (ps & -> & Hps).
  pose proof (take_digits_chars l1) as Hd.
  destruct (PyFloat.take_digits l1) as [ip l2]. destruct Hd as [-> Hip].
  assert (Hfrac : exists pre l3 fp,
             (match l2 with
              | "."%char :: l2' => PyFloat.take_digits l2'
              | _ => ([], l2)
              end) = (fp, l3)
             /\ l2 = pre ++ l3 /\ Forall (fun c => float_char c = true) pre).
  { destruct l2 as [|c l2'].
    - exists [], [], []. repeat split. constructor.
    - destruct (Ascii.eqb c ".") eqn:Ec.
      + apply Ascii.eqb_eq in Ec. subst c.
        pose proof (take_digits_chars l2') as Hd.
        destruct (PyFloat.take_digits l2') as [fp l3]. destruct Hd as [-> Hfp].
        exists ("."%char :: fp), l3, fp. repeat split. now constructor.
      + exists [], (c :: l2'), [].
        destruct c as [[] [] [] [] [] [] [] []]; try discriminate Ec;
          repeat split; constructor. }
  destruct Hfrac as (pre & l3 & fp & -> & -> & Hpre).
  destruct (ip ++ fp) as [|d ds]; [discriminate|].
  pose proof (parse_exponent_chars l3) as He.
  destruct (PyFloat.parse_exponent l3) as [e l4].
  destruct He as (pe & -> & Hpe).
  intros [= _ ->]. rewrite app_nil_r.
  repeat (apply Forall_app; split); assumption.
Qed.

Lemma strip_word_chars word :
  Forall (fun w => existsb (Ascii.eqb w) (Str.chars "infatyn") = true) word ->
  forall l l2,
    PyFloat.strip_word word l = Some l2 ->
    exists pre, l = pre ++ l2 /\ Forall (fun c => float_char c = true) pre.
Proof.
  induction 1 as [|w word Hw _ IH]; intros l l2 H.
  - injection H as <-. now exists [].
  - destruct l as [|c l]; [discriminate|]. cbn [PyFloat.strip_word] in H.
    destruct (Ascii.eqb (Str.lower_char c) w) eqn:Ec; [|discriminate].
    apply Ascii.eqb_eq in Ec. destruct (IH _ _ H) as (pre & -> & Hpre).
    exists (c :: pre). split; [reflexivity|]. constructor; [|exact Hpre].
    unfold float_char. rewrite Ec, Hw. now rewrite !orb_true_r.
Qed.

Lemma parse_inf_or_nan_chars l f :
  PyFloat.parse_inf_or_nan l = Some (f, []) ->
  Forall (fun c => float_char c = true) l.
Proof.
  unfold PyFloat.parse_inf_or_nan.
  pose proof (parse_sign_chars l) as Hs.
  destruct (PyFloat.parse_sign l) as [neg l1]. destruct Hs as (ps & -> & Hps).
  assert (Hword : forall w, In w ["inf"; "inity"; "nan"]%string ->
            Forall (fun w => existsb (Ascii.eqb w) (Str.chars "infatyn") = true)
                   (Str.chars w)).
  { intros w [<-|[<-|[<-|[]]]]; repeat constructor. }
  destruct (PyFloat.strip_word (Str.chars "inf") l1) as [l2|] eqn:E1.
  - destruct (strip_word_chars _ (Hword "inf"%string ltac:(now left)) _ _ E1)
      as (p1 & -> & Hp1).
    destruct (PyFloat.strip_word (Str.chars "inity") l2) as [l3|] eqn:E2.
    + destruct (strip_word_chars _ (Hword "inity"%string ltac:(right; now left))
                  _ _ E2) as (p2 & -> & Hp2).
      intros [= _ ->]. rewrite app_nil_r.
      repeat (apply Forall_app; split); assumption.
    + intros [= _ ->]. rewrite app_nil_r.
      repeat (apply Forall_app; split); assumption.
  - destruct (PyFloat.strip_word (Str.chars "nan") l1) as [l2|] eqn:E2;
      [|discriminate].
    destruct (strip_word_chars _ (Hword "nan"%string ltac:(right; right; now left))
                _ _ E2) as (p2 & -> & Hp2).
    intros [= _ ->]. rewrite app_nil_r.
    repeat (apply Forall_app; split); assumption.
Qed.

Lemma py_float_chars s f :
  py_float s = Ok f -> Forall (fun c => float_char c = true) (Str.chars s).
Proof.
  unfold py_float, PyFloat.of_string.
  destruct (float_lstrip_decomp (Str.chars s)) as (ws1 & Hws1 & Hl).
  destruct (float_rstrip_decomp (PyFloat.lstrip_chars (Str.chars s)))
    as (ws2 & Hws2 & Hr).
  set (core := PyFloat.rstrip_chars (PyFloat.lstrip_chars (Str.chars s))) in *.
  intros H.
  assert (Hcore : Forall (fun c => float_char c = true) core).
  { unfold PyFloat.of_chars_stripped in H.
    destruct (PyFloat.drop_underscores None core) as [l'|] eqn:Eu; [|discriminate].
    apply (drop_underscores_chars (fun c => float_char c = true) core eq_refl
             _ _ Eu).
    destruct (PyFloat.parse_decimal l') as [[f' [|c r]]|] eqn:Ed.
    - exact (parse_decimal_chars _ _ Ed).
    - discriminate.
    - destruct (PyFloat.parse_inf_or_nan l') as [[f' [|c r]]|] eqn:Ei;
        try discriminate.
      exact (parse_inf_or_nan_chars _ _ Ei). }
  rewrite Hl, Hr. repeat (apply Forall_app; split); try assumption.
  - eapply Forall_impl; [exact Hws1|]. intros c. apply float_char_space.
  - eapply Forall_impl; [exact Hws2|]. intros c. apply float_char_space.
Qed.

Lemma safe_float_rejects s :
  Exists (fun c => float_char c = false /\ c <> ","%char) (Str.chars s) ->
  safe_float (VStr s) = F.zero.
Proof.
  intros Hex. unfold safe_float, replace_commas. cbn [res_bind].
  destruct (py_float (Str.remove_char "," s)) as [f|e] eqn:E; [|reflexivity].
  exfalso. apply py_float_chars in E.
  unfold Str.remove_char in E. rewrite chars_of_chars in E.
  apply List.Exists_exists in Hex as (c & Hin & Hc & Hcomma).
  rewrite List.Forall_forall in E.
  assert (Hc' : float_char c = true).
  { apply E. apply filter_In. split; [exact Hin|].
    apply negb_true_iff. now apply Ascii.eqb_neq. }
  congruence.
Qed.

Lemma safe_float_numeral s ip fp :
  ip <> [] ->
  Forall (fun c => Str.isdigit c = true) ip ->
  Forall (fun c => Str.isdigit c = true) fp ->
  List.filter (fun c => negb (Ascii.eqb c ",")) (Str.chars s)
  = numeral_text (ip, fp) ->
  safe_float (VStr s) = numeral_value (ip, fp).
Proof.
  intros Hne Hip Hfp Hs. unfold safe_float, replace_commas, Str.remove_char.
  cbn [res_bind]. rewrite Hs, py_float_numeral by assumption. reflexivity.
Qed.

(** C5: [safe_float] returns for every input, with no error left to
    propagate: for a string, the float parsed from the string without its
    commas, or 0.0 when [float] rejects it; for any other value, whose
    [replace] raises, 0.0.  What [float] rejects includes every string with
    a character, other than a comma, that no text accepted by [float] has.
    A text that is a decimal numeral once its commas are removed gives the
    float nearest to the number it denotes, and digits grouped by commas
    give the integer they denote; in particular "12,345" gives 12345.0 and
    "abc" gives 0.0. *)
Theorem safe_float_total :
  (forall s, safe_float (VStr s)
             = match py_float (Str.remove_char "," s) with
               | Ok f => f
               | Raise _ => F.zero
               end)
  /\ (forall v, (forall s, v <> VStr s) -> safe_float v = F.zero)
  /\ (forall s,
        Exists (fun c => float_char c = false /\ c <> ","%char) (Str.chars s) ->
        safe_float (VStr s) = F.zero)
  /\ (forall s ip fp,
        ip <> [] ->
        Forall (fun c => Str.isdigit c = true) ip ->
        Forall (fun c => Str.isdigit c = true) fp ->
        List.filter (fun c => negb (Ascii.eqb c ",")) (Str.chars s)
        = numeral_text (ip, fp) ->
        safe_float (VStr s) = numeral_value (ip, fp))
  /\ (forall v n, int_value v = Some n -> safe_float v = F.of_Z n)
  /\ safe_float (VStr "12,345") = F.of_Z 12345
  /\ safe_float (VStr "abc") = F.zero.
Proof.
  split; [reflexivity|]. split; [|split; [exact safe_float_rejects|]].
  - intros [|s| |] Hv; try reflexivity. now destruct (Hv s).
  - split; [exact safe_float_numeral|]. split; [exact safe_float_int|].
    split; vm_compute; reflexivity.
Qed.

(** [safe_float_total] at the value text of the sample record, at a value
    with a fraction, and at a text with a letter. *)
Lemma safe_float_total_witness :
  safe_float (VStr "9,500") = F.of_Z 9500
  /\ safe_float (VStr "9,500.25") = Prim2SF 9500.25%float
  /\ safe_float (VStr "9,5oo") = F.zero.
Proof.
  destruct safe_float_total as (_ & _ & Hbad & Hnum & Hint & _).
  split; [|split].
  - apply (Hint (VStr "9,500") 9500). vm_compute. reflexivity.
  - apply (Hnum "9,500.25"%string (Str.chars "9500") (Str.chars "25")).
    + discriminate.
    + repeat constructor.
    + repeat constructor.
    + vm_compute. reflexivity.
  - apply (Hbad "9,5oo"%string).
    apply List.Exists_exists. exists "o"%char.
    split; [vm_compute; tauto|]. split; [reflexivity | discriminate].
Defined.

(** The separators U+001C to U+001F are white space for [str.strip] and
    not for [float]: a value text that starts with one is read as 0.0. *)
Example safe_float_separator :
  Str.strip (String "028" "5") = "5"%string
  /\ safe_float (VStr (String "028" "5")) = F.zero.
Proof. split; vm_compute; reflexivity. Qed.

(** ** The total value *)

Lemma int_value_nonneg v n : int_value v = Some n -> 0 <= n.
Proof.
  destruct v as [|s| |]; cbn [int_value]; try discriminate.
  - intros H. injection H as <-. lia.
  - destruct (_ && _); [|discriminate]. intros H. injection H as <-. lia.
Qed.

Lemma of_Z_fill_nan n : 0 <= n < 2 ^ 53 -> fill_nan (F.of_Z n) = F.of_Z n.
Proof.
  intros Hn. destruct n as [|p|p]; try lia; [reflexivity|].
  rewrite of_Z_pos by lia. reflexivity.
Qed.

(** *** Sums of floats that are integers

    Over non-negative integers whose sum is below 2^53 every addition of
    the pairwise summation is exact, whatever its order. *)

Lemma zsum_nonneg ns :
  Forall (fun n => 0 <= n) ns -> 0 <= fold_right Z.add 0 ns.
Proof. induction 1; cbn [fold_right]; lia. Qed.

Lemma zsum_app ns ms :
  fold_right Z.add 0 (ns ++ ms) = fold_right Z.add 0 ns + fold_right Z.add 0 ms.
Proof. induction ns as [|n ns IH]; cbn [app fold_right]; lia. Qed.

Lemma neg_zero_add_of_Z n :
  0 <= n < 2 ^ 53 -> F.add Np.neg_zero (F.of_Z n) = F.of_Z n.
Proof.
  intros Hn. destruct n as [|p|p]; [reflexivity| |lia].
  rewrite of_Z_pos by lia. reflexivity.
Qed.

Lemma add_all_of_Z ns :
  forall acc,
    Forall (fun n => 0 <= n) ns ->
    0 <= acc ->
    acc + fold_right Z.add 0 ns < 2 ^ 53 ->
    Np.add_all (F.of_Z acc) (map F.of_Z ns)
    = F.of_Z (acc + fold_right Z.add 0 ns).
Proof.
  unfold Np.add_all.
  induction ns as [|n ns IH]; intros acc Hns Hacc Hsum.
  - cbn. now rewrite Z.add_0_r.
  - inversion Hns as [|? ? Hn Hns']; subst. cbn [fold_right] in Hsum.
    pose proof (zsum_nonneg _ Hns') as Hrest.
    cbn [map fold_left fold_right].
    rewrite add_of_Z by lia.
    rewrite IH by (assumption || lia). f_equal. lia.
Qed.

Lemma add_all_neg_zero ns :
  ns <> [] ->
  Forall (fun n => 0 <= n) ns ->
  fold_right Z.add 0 ns < 2 ^ 53 ->
  Np.add_all Np.neg_zero (map F.of_Z ns) = F.of_Z (fold_right Z.add 0 ns).
Proof.
  intros Hne Hns Hsum. destruct ns as [|n ns]; [contradiction|].
  inversion Hns as [|? ? Hn Hns']; subst. cbn [fold_right] in *.
  pose proof (zsum_nonneg _ Hns') as Hrest.
  unfold Np.add_all. cbn [map fold_left].
  rewrite neg_zero_add_of_Z by lia.
  now apply add_all_of_Z.
Qed.

Lemma add_lanes_of_Z rz :
  forall az,
    length az = length rz ->
    Forall (fun n => 0 <= n) rz ->
    Forall (fun n => 0 <= n) az ->
    fold_right Z.add 0 rz + fold_right Z.add 0 az < 2 ^ 53 ->
    exists rz',
      Np.add_lanes (map F.of_Z rz) (map F.of_Z az) = map F.of_Z rz'
      /\ length rz' = length rz
      /\ Forall (fun n => 0 <= n) rz'
      /\ fold_right Z.add 0 rz'
         = fold_right Z.add 0 rz + fold_right Z.add 0 az.
Proof.
  induction rz as [|r rz IH]; intros az Hlen Hrz Haz Hsum.
  - exists []. destruct az; [|discriminate]. now repeat split.
  - destruct az as [|a az]; [discriminate|].
    inversion Hrz as [|? ? Hr Hrz']; subst.
    inversion Haz as [|? ? Ha Haz']; subst.
    cbn [fold_right length] in *.
    pose proof (zsum_nonneg _ Hrz'). pose proof (zsum_nonneg _ Haz').
    destruct (IH az) as (rz' & Hrun & Hl & Hnn & Hs);
      [lia | assumption | assumption | lia |].
    exists (r + a :: rz'). cbn [map Np.add_lanes].
    rewrite add_of_Z by lia. rewrite Hrun. cbn [map length fold_right].
    repeat split; [lia | constructor; [lia | assumption] | lia].
Qed.

Lemma add_blocks_of_Z blocks :
  forall rz az,
    length rz = 8%nat ->
    (8 * blocks <= length az)%nat ->
    Forall (fun n => 0 <= n) rz ->
    Forall (fun n => 0 <= n) az ->
    fold_right Z.add 0 rz + fold_right Z.add 0 az < 2 ^ 53 ->
    exists rz' rest,
      Np.add_blocks blocks (map F.of_Z rz) (map F.of_Z az)
      = (map F.of_Z rz', map F.of_Z rest)
      /\ length rz' = 8%nat
      /\ Forall (fun n => 0 <= n) rz'
      /\ Forall (fun n => 0 <= n) rest
      /\ fold_right Z.add 0 rz' + fold_right Z.add 0 rest
         = fold_right Z.add 0 rz + fold_right Z.add 0 az.
Proof.
  induction blocks as [|k IH]; intros rz az Hlen Hk Hrz Haz Hsum.
  - exists rz, az. now repeat split.
  - cbn [Np.add_blocks]. rewrite List.firstn_map, List.skipn_map.
    pose proof (List.firstn_skipn 8 az) as Hsplit.
    assert (Hf : Forall (fun n => 0 <= n) (firstn 8 az))
      by (apply List.Forall_forall; intros x Hx; rewrite List.Forall_forall in Haz;
          apply Haz; rewrite <- Hsplit; apply in_or_app; now left).
    assert (Hs : Forall (fun n => 0 <= n) (skipn 8 az))
      by (apply List.Forall_forall; intros x Hx; rewrite List.Forall_forall in Haz;
          apply Haz; rewrite <- Hsplit; apply in_or_app; now right).
    assert (Hz : fold_right Z.add 0 az
                 = fold_right Z.add 0 (firstn 8 az)
                   + fold_right Z.add 0 (skipn 8 az))
      by (rewrite <- zsum_app; now rewrite Hsplit).
    pose proof (zsum_nonneg _ Hf). pose proof (zsum_nonneg _ Hs).
    destruct (add_lanes_of_Z rz (firstn 8 az)) as (rz1 & Hrun & Hl & Hnn & Hs1);
      [rewrite List.length_firstn; lia | assumption | assumption | lia |].
    rewrite Hrun.
    destruct (IH rz1 (skipn 8 az)) as (rz' & rest & Hrun' & Hl' & Hnn' & Hrest & Hs');
      [lia | rewrite List.length_skipn; lia | assumption | assumption | lia |].
    exists rz', rest. repeat split; try assumption. lia.
Qed.

Lemma unrolled_sum_of_Z ns :
  (8 <= length ns)%nat ->
  Forall (fun n => 0 <= n) ns ->
  fold_right Z.add 0 ns < 2 ^ 53 ->
  Np.unrolled_sum (map F.of_Z ns) = F.of_Z (fold_right Z.add 0 ns).
Proof.
  intros Hlen Hns Hsum. unfold Np.unrolled_sum.
  rewrite List.length_map, List.firstn_map, List.skipn_map.
  pose proof (List.firstn_skipn 8 ns) as Hsplit.
  assert (Hf : Forall (fun n => 0 <= n) (firstn 8 ns))
    by (apply List.Forall_forall; intros x Hx; rewrite List.Forall_forall in Hns;
        apply Hns; rewrite <- Hsplit; apply in_or_app; now left).
  assert (Hs : Forall (fun n => 0 <= n) (skipn 8 ns))
    by (apply List.Forall_forall; intros x Hx; rewrite List.Forall_forall in Hns;
        apply Hns; rewrite <- Hsplit; apply in_or_app; now right).
  assert (Hz : fold_right Z.add 0 ns
               = fold_right Z.add 0 (firstn 8 ns) + fold_right Z.add 0 (skipn 8 ns))
    by (rewrite <- zsum_app; now rewrite Hsplit).
  destruct (add_blocks_of_Z (length ns / 8 - 1)%nat (firstn 8 ns) (skipn 8 ns))
    as (rz & rest & Hrun & Hl & Hnn & Hrest & Hs');
    [rewrite List.length_firstn; lia
    | rewrite List.length_skipn;
      pose proof (Nat.Div0.mul_div_le (length ns) 8); lia
    | assumption | assumption | lia |].
  rewrite Hrun.
  destruct rz as [|r0 [|r1 [|r2 [|r3 [|r4 [|r5 [|r6 [|r7 [|]]]]]]]]];
    try discriminate Hl.
  cbn [map].
  pose proof (zsum_nonneg _ Hrest) as Hrest0.
  repeat match goal with
         | H : Forall _ (_ :: _) |- _ => inversion H; subst; clear H
         end.
  cbn [fold_right] in Hs'.
  rewrite !add_of_Z by lia.
  rewrite add_all_of_Z by (assumption || lia). f_equal. lia.
Qed.

Lemma pairwise_sum_upto_of_Z depth :
  forall ns,
    ns <> [] ->
    Forall (fun n => 0 <= n) ns ->
    fold_right Z.add 0 ns < 2 ^ 53 ->
    Np.pairwise_sum_upto depth (map F.of_Z ns) = F.of_Z (fold_right Z.add 0 ns).
Proof.
  induction depth as [|d IH]; intros ns Hne Hns Hsum;
    cbn [Np.pairwise_sum_upto]; rewrite List.length_map;
    destruct (length ns <? 8)%nat eqn:E8;
    try (now apply add_all_neg_zero);
    apply Nat.ltb_ge in E8;
    destruct (length ns <=? 128)%nat eqn:E128;
    try (now apply unrolled_sum_of_Z).
  apply Nat.leb_gt in E128.
  set (n2 := (length ns / 2 - (length ns / 2) mod 8)%nat).
  rewrite List.firstn_map, List.skipn_map.
  pose proof (List.firstn_skipn n2 ns) as Hsplit.
  assert (Hn2 : (1 <= n2 < length ns)%nat).
  { unfold n2. pose proof (Nat.mod_upper_bound (length ns / 2) 8).
    pose proof (Nat.Div0.mul_div_le (length ns) 2).
    assert (64 <= length ns / 2)%nat by (apply Nat.div_le_lower_bound; lia).
    lia. }
  assert (Hf : Forall (fun n => 0 <= n) (firstn n2 ns))
    by (apply List.Forall_forall; intros x Hx; rewrite List.Forall_forall in Hns;
        apply Hns; rewrite <- Hsplit; apply in_or_app; now left).
  assert (Hs : Forall (fun n => 0 <= n) (skipn n2 ns))
    by (apply List.Forall_forall; intros x Hx; rewrite List.Forall_forall in Hns;
        apply Hns; rewrite <- Hsplit; apply in_or_app; now right).
  assert (Hz : fold_right Z.add 0 ns
               = fold_right Z.add 0 (firstn n2 ns) + fold_right Z.add 0 (skipn n2 ns))
    by (rewrite <- zsum_app; now rewrite Hsplit).
  pose proof (zsum_nonneg _ Hf). pose proof (zsum_nonneg _ Hs).
  assert (Hfne : firstn n2 ns <> []).
  { intros E. apply (f_equal (@length Z)) in E.
    rewrite List.length_firstn in E. cbn [length] in E. lia. }
  assert (Hsne : skipn n2 ns <> []).
  { intros E. apply (f_equal (@length Z)) in E.
    rewrite List.length_skipn in E. cbn [length] in E. lia. }
  rewrite (IH _ Hfne Hf) by lia. rewrite (IH _ Hsne Hs) by lia.
  rewrite add_of_Z by lia. f_equal. lia.
Qed.

Lemma np_sum_of_Z ns :
  Forall (fun n => 0 <= n) ns ->
  fold_right Z.add 0 ns < 2 ^ 53 ->
  Np.sum (map F.of_Z ns) = F.of_Z (fold_right Z.add 0 ns).
Proof.
  intros Hns Hsum. destruct ns as [|n rest] eqn:E; [reflexivity|].
  rewrite <- E in *. unfold Np.sum.
  assert (Hne : ns <> []) by (rewrite E; discriminate).
  destruct (map F.of_Z ns) eqn:Em; [now destruct ns|]. rewrite <- Em.
  unfold Np.pairwise_sum. rewrite pairwise_sum_upto_of_Z by assumption.
  apply neg_zero_add_of_Z. pose proof (zsum_nonneg _ Hns). lia.
Qed.

Lemma fill_nan_of_Z ns :
  Forall (fun n => 0 <= n) ns ->
  fold_right Z.add 0 ns < 2 ^ 53 ->
  map fill_nan (map F.of_Z ns) = map F.of_Z ns.
Proof.
  induction ns as [|n ns IH]; intros Hns Hsum; [reflexivity|].
  inversion Hns as [|? ? Hn Hns']; subst. cbn [fold_right] in Hsum.
  pose proof (zsum_nonneg _ Hns').
  cbn [map]. rewrite of_Z_fill_nan by lia. rewrite IH by (assumption || lia).
  reflexivity.
Qed.

Lemma series_sum_of_Z ns :
  Forall (fun n => 0 <= n) ns ->
  fold_right Z.add 0 ns < 2 ^ 53 ->
  series_sum (map F.of_Z ns) = F.of_Z (fold_right Z.add 0 ns).
Proof.
  intros Hns Hsum. unfold series_sum.
  rewrite fill_nan_of_Z by assumption. now apply np_sum_of_Z.
Qed.

(** The bound on the depth of the recursion is immaterial once it
    reaches the length of the array: a longer array is the sum of the
    pairwise sums of its two parts. *)
Lemma pairwise_sum_upto_depth d1 :
  forall d2 a,
    (length a <= d1)%nat -> (length a <= d2)%nat ->
    Np.pairwise_sum_upto d1 a = Np.pairwise_sum_upto d2 a.
Proof.
  induction d1 as [|d1 IH]; intros d2 a H1 H2.
  - destruct a; [|cbn in H1; lia]. now destruct d2.
  - destruct d2 as [|d2].
    { destruct a; [|cbn in H2; lia]. reflexivity. }
    cbn [Np.pairwise_sum_upto].
    destruct (length a <? 8)%nat eqn:E8; [reflexivity|].
    destruct (length a <=? 128)%nat eqn:E128; [reflexivity|].
    apply Nat.ltb_ge in E8. apply Nat.leb_gt in E128.
    set (n2 := (length a / 2 - (length a / 2) mod 8)%nat).
    assert (Hn2 : (1 <= n2 < length a)%nat).
    { unfold n2. pose proof (Nat.mod_upper_bound (length a / 2) 8).
      pose proof (Nat.Div0.mul_div_le (length a) 2).
      assert (64 <= length a / 2)%nat by (apply Nat.div_le_lower_bound; lia).
      lia. }
    f_equal; apply IH; rewrite ?List.length_firstn, ?List.length_skipn; lia.
Qed.

Lemma pairwise_sum_split a :
  (128 < length a)%nat ->
  let n2 := (length a / 2 - (length a / 2) mod 8)%nat in
  Np.pairwise_sum a
  = F.add (Np.pairwise_sum (firstn n2 a)) (Np.pairwise_sum (skipn n2 a)).
Proof.
  intros Hlen n2. unfold Np.pairwise_sum at 1.
  destruct (length a) as [|d] eqn:El; [lia|].
  cbn [Np.pairwise_sum_upto]. rewrite El.
  replace (S d <? 8)%nat with false by (symmetry; apply Nat.ltb_ge; lia).
  replace (S d <=? 128)%nat with false by (symmetry; apply Nat.leb_gt; lia).
  fold n2.
  assert (Hn2 : (1 <= n2 < S d)%nat).
  { unfold n2. pose proof (Nat.mod_upper_bound (S d / 2) 8).
    pose proof (Nat.Div0.mul_div_le (S d) 2).
    assert (64 <= S d / 2)%nat by (apply Nat.div_le_lower_bound; lia).
    lia. }
  unfold Np.pairwise_sum.
  f_equal; apply pairwise_sum_upto_depth;
    rewrite ?List.length_firstn, ?List.length_skipn; lia.
Qed.

Lemma row_int_nonneg r : 0 <= row_int r.
Proof.
  unfold row_int. destruct (int_value (Team.KTC_Value r)) eqn:E; [|lia].
  exact (int_value_nonneg _ _ E).
Qed.

Lemma total_value_exact rows :
  Forall grouped_int rows ->
  exact_total rows < 2 ^ 53 ->
  total_value rows = F.of_Z (exact_total rows).
Proof.
  intros Hrows Hsum. unfold total_value, exact_total in *.
  assert (Hmap : map safe_float (map Team.KTC_Value rows)
                 = map F.of_Z (map row_int rows)).
  { clear Hsum. induction Hrows as [|r rows [n Hn] _ IH]; [reflexivity|].
    cbn [map]. rewrite IH. f_equal. unfold row_int. rewrite Hn.
    now apply safe_float_int. }
  rewrite Hmap. apply series_sum_of_Z; [|assumption].
  clear. induction rows; constructor; [apply row_int_nonneg | assumption].
Qed.

Lemma exact_total_perm rows rows' :
  Permutation rows rows' -> exact_total rows = exact_total rows'.
Proof.
  unfold exact_total. induction 1; cbn [map fold_right]; lia.
Qed.

(** C9, as amended: when every value is [None] or a numeral of digits
    grouped by commas, and the values add up to less than 2^53, the total
    is the float of their exact sum, and so it is the same for every
    permutation of the rows. *)
Theorem total_value_permutation rows rows' :
  Permutation rows rows' ->
  Forall grouped_int rows ->
  exact_total rows < 2 ^ 53 ->
  total_value rows' = total_value rows
  /\ total_value rows = F.of_Z (exact_total rows).
Proof.
  intros Hperm Hrows Hsum.
  assert (Hrows' : Forall grouped_int rows').
  { rewrite Forall_forall in *. intros r Hr. apply Hrows.
    apply Permutation_sym in Hperm. 
    apply (proj1 (list_elem_of_In _ _)) in Hr.
    apply list_elem_of_In. apply (Permutation_in _ Hperm). assumption. }
  rewrite (total_value_exact rows Hrows Hsum). split; [|reflexivity].
  rewrite total_value_exact; [|assumption|].
  - now rewrite (exact_total_perm _ _ Hperm).
  - now rewrite <- (exact_total_perm _ _ Hperm).
Qed.

(** C9 as stated fails: the rows below are a permutation of one another
    and their totals differ, 2^53 in one order and 2^53 + 2 in the other,
    since 2^53 + 1 is not a float. *)
Lemma total_value_order_counterexample :
  Permutation rows_2_53 rows_2_53_reordered
  /\ total_value rows_2_53 <> total_value rows_2_53_reordered.
Proof.
  split.
  - unfold rows_2_53, rows_2_53_reordered.
    eapply perm_trans; [apply perm_swap|]. apply perm_skip. apply perm_swap.
  - vm_compute. discriminate.
Qed.

(** From eight rows on the sum is not taken from left to right: 2^53 and
    seven times 1 add up to 2^53 + 6, where adding them in order would
    leave 2^53. *)
Example total_value_eight_rows :
  total_value rows_2_53_eight = F.of_Z (2 ^ 53 + 6)
  /\ fold_left F.add
       (map safe_float (map Team.KTC_Value rows_2_53_eight)) F.zero
     = F.of_Z (2 ^ 53).
Proof. split; vm_compute; reflexivity. Qed.

(** The same at ordinary magnitudes: 0.1 + 0.2 + 0.3 is
    0.6000000000000001 in that order and 0.6 in the reverse order. *)
Example total_value_order_tenths :
  total_value rows_tenths = Prim2SF 0.6000000000000001%float
  /\ total_value (rev rows_tenths) = Prim2SF 0.6%float
  /\ total_value rows_tenths <> total_value (rev rows_tenths).
Proof. repeat split; vm_compute; (reflexivity || discriminate). Qed.

Lemma total_value_permutation_witness :
  total_value (rev sample_team) = total_value sample_team
  /\ total_value sample_team = F.of_Z (exact_total sample_team).
Proof.
  apply (total_value_permutation sample_team (rev sample_team)).
  - apply Permutation_rev.
  - repeat constructor; vm_compute; eauto.
  - vm_compute. reflexivity.
Defined.

(** ** [classify_team] *)

Lemma apply_parse_age col : apply parse_age col = Ok (map spec_parse_age col).
Proof.
  induction col as [|v col IH]; [reflexivity|].
  cbn [apply map]. rewrite parse_age_spec, IH. reflexivity.
Qed.

(** C3: [classify_team] returns, with the label "Contender" when the total
    value is above 110000 and the average age above 25, "Rebuild" when the
    total is below 90000 and the average age below 24, and "Tweener" in
    every other case; so 120000 and 26 give "Contender", 80000 and 22
    "Rebuild", 100000 and 25 "Tweener".  The total is the sum of the column
    [Value_Numeric], the average age the mean of the column [Age_Numeric],
    computed from [Age] by [parse_age] when the frame lacks it. *)
Theorem classify_team_thresholds (df : Frame.t) :
  exists df' ages,
    with_age_numeric df = Ok (df', ages)
    /\ ages = match Frame.Age_Numeric df with
              | Some col => col
              | None => map spec_parse_age (Frame.Age df)
              end
    /\ let total := series_sum (Frame.Value_Numeric df) in
       let avg := series_mean ages in
       (gt_int total 110000 = true -> gt_int avg 25 = true ->
        classify_team df = Ok ("Contender"%string, df'))
       /\ (lt_int total 90000 = true -> lt_int avg 24 = true ->
           classify_team df = Ok ("Rebuild"%string, df'))
       /\ (gt_int total 110000 && gt_int avg 25 = false ->
           lt_int total 90000 && lt_int avg 24 = false ->
           classify_team df = Ok ("Tweener"%string, df'))
       /\ (total = F.of_Z 120000 -> avg = F.of_Z 26 ->
           classify_team df = Ok ("Contender"%string, df'))
       /\ (total = F.of_Z 80000 -> avg = F.of_Z 22 ->
           classify_team df = Ok ("Rebuild"%string, df'))
       /\ (total = F.of_Z 100000 -> avg = F.of_Z 25 ->
           classify_team df = Ok ("Tweener"%string, df')).
Proof.
  assert (Hw : exists df' ages,
             with_age_numeric df = Ok (df', ages)
             /\ ages = match Frame.Age_Numeric df with
                       | Some col => col
                       | None => map spec_parse_age (Frame.Age df)
                       end).
  { unfold with_age_numeric. destruct (Frame.Age_Numeric df) as [col|].
    - now eexists _, _.
    - rewrite apply_parse_age. cbn [res_bind]. now eexists _, _. }
  destruct Hw as (df' & ages & Hw & Hages). exists df', ages.
  split; [exact Hw|]. split; [exact Hages|]. clear Hages.
  assert (Hrun : classify_team df =
                 if gt_int (series_sum (Frame.Value_Numeric df)) 110000
                    && gt_int (series_mean ages) 25
                 then Ok ("Contender"%string, df')
                 else if lt_int (series_sum (Frame.Value_Numeric df)) 90000
                         && lt_int (series_mean ages) 24
                 then Ok ("Rebuild"%string, df')
                 else Ok ("Tweener"%string, df')).
  { unfold classify_team. rewrite Hw. reflexivity. }
  cbv zeta. rewrite Hrun. clear Hrun Hw.
  generalize (series_sum (Frame.Value_Numeric df)) as total.
  generalize (series_mean ages) as avg. intros avg total.
  repeat split.
  - intros -> ->. reflexivity.
  - intros Ht Ha. rewrite (lt_90000_not_gt_110000 _ Ht), Ht, Ha. reflexivity.
  - intros -> ->. reflexivity.
  - intros -> ->. vm_compute. reflexivity.
  - intros -> ->. vm_compute. reflexivity.
  - intros -> ->. vm_compute. reflexivity.
Qed.

Lemma classify_team_thresholds_witness :
  (exists df', classify_team contender_df = Ok ("Contender"%string, df'))
  /\ (exists df', classify_team rebuild_df = Ok ("Rebuild"%string, df'))
  /\ (exists df', classify_team tweener_df = Ok ("Tweener"%string, df')).
Proof.
  split; [|split].
  - destruct (classify_team_thresholds contender_df)
      as (df' & ages & _ & Hages & _ & _ & _ & H & _).
    exists df'. apply H; [|rewrite Hages]; vm_compute; reflexivity.
  - destruct (classify_team_thresholds rebuild_df)
      as (df' & ages & _ & Hages & _ & _ & _ & _ & H & _).
    exists df'. apply H; [|rewrite Hages]; vm_compute; reflexivity.
  - destruct (classify_team_thresholds tweener_df)
      as (df' & ages & _ & Hages & _ & _ & _ & _ & _ & H).
    exists df'. apply H; [|rewrite Hages]; vm_compute; reflexivity.
Defined.

(** The scenario of the specification from roster to summary: one exact
    match and one player without match, a single call of [extractOne],
    total value 9500.0 and average age 12.05. *)
Example end_to_end :
  match_roster sample_extractOne sample_ktc_df
    ["Justin Jefferson"; "Unknown Player123"]%string []
  = (Ok sample_team,
     [("Unknown Player123"%string, ["Justin Jefferson"; "Ja'Marr Chase"]%string)])
  /\ team_summary sample_team
     = Ok {| total_val := F.of_Z 9500;
             label := "Rebuild";
             mean_age := Prim2SF 12.05%float |}.
Proof. split; vm_compute; reflexivity. Qed.

(** * Further properties: names, rosters, scraper and team tab *)

(** ** Strings: strip, lower and split *)

Lemma of_chars_chars s : Str.of_chars (Str.chars s) = s.
Proof. apply string_of_list_ascii_of_string. Qed.

Lemma isspace_lower_char c : Str.isspace (Str.lower_char c) = Str.isspace c.
Proof. destruct c as [[] [] [] [] [] [] [] []]; reflexivity. Qed.

Lemma lower_char_idem c : Str.lower_char (Str.lower_char c) = Str.lower_char c.
Proof. destruct c as [[] [] [] [] [] [] [] []]; reflexivity. Qed.

Lemma lower_of_chars l : Str.lower (Str.of_chars l) = Str.of_chars (map Str.lower_char l).
Proof. unfold Str.lower. now rewrite chars_of_chars. Qed.

Lemma lower_idem s : Str.lower (Str.lower s) = Str.lower s.
Proof.
  unfold Str.lower. rewrite chars_of_chars, map_map.
  f_equal. apply map_ext. intros c. apply lower_char_idem.
Qed.

Lemma split_go_lower l :
  forall cur,
    Str.split_go (map Str.lower_char cur) (map Str.lower_char l)
    = map Str.lower (Str.split_go cur l).
Proof.
  induction l as [|c l IH]; intros cur.
  - destruct cur as [|a cur]; [reflexivity|].
    cbn [Str.split_go map]. rewrite lower_of_chars.
    change (Str.lower_char a :: map Str.lower_char cur)
      with (map Str.lower_char (a :: cur)).
    now rewrite map_rev.
  - cbn [Str.split_go map]. rewrite isspace_lower_char.
    destruct (Str.isspace c).
    + destruct cur as [|a cur].
      * apply (IH []).
      * cbn [map]. rewrite lower_of_chars, <- (IH []).
        change (Str.lower_char a :: map Str.lower_char cur)
          with (map Str.lower_char (a :: cur)).
        now rewrite map_rev.
    + apply (IH (c :: cur)).
Qed.

Lemma split_lower s : Str.split (Str.lower s) = map Str.lower (Str.split s).
Proof.
  unfold Str.split, Str.lower. rewrite chars_of_chars. apply (split_go_lower _ []).
Qed.

Lemma split_go_lstrip l : Str.split_go [] (Str.lstrip_chars l) = Str.split_go [] l.
Proof.
  induction l as [|c l IH]; [reflexivity|].
  cbn [Str.lstrip_chars Str.split_go]. destruct (Str.isspace c) eqn:E.
  - exact IH.
  - cbn [Str.split_go]. now rewrite E.
Qed.

Lemma split_go_spaces ws :
  Forall (fun c => Str.isspace c = true) ws ->
  forall cur, Str.split_go cur ws = Str.split_go cur [].
Proof.
  induction 1 as [|c ws Hc _ IH]; intros cur; [reflexivity|].
  cbn [Str.split_go]. rewrite Hc. destruct cur as [|a cur].
  - apply IH.
  - now rewrite IH.
Qed.

Lemma split_go_trailing ws :
  Forall (fun c => Str.isspace c = true) ws ->
  forall l cur, Str.split_go cur (l ++ ws) = Str.split_go cur l.
Proof.
  intros Hws. induction l as [|c l IH]; intros cur.
  - now apply split_go_spaces.
  - cbn [app Str.split_go]. destruct (Str.isspace c).
    + destruct cur; now rewrite IH.
    + apply IH.
Qed.

Lemma lstrip_decomp l :
  exists ws, Forall (fun c => Str.isspace c = true) ws
             /\ l = ws ++ Str.lstrip_chars l.
Proof.
  induction l as [|c l (ws & Hws & Hl)]; [now exists []|].
  cbn [Str.lstrip_chars]. destruct (Str.isspace c) eqn:E.
  - exists (c :: ws). split; [now constructor | cbn; congruence].
  - now exists [].
Qed.

Lemma rstrip_decomp l :
  exists ws, Forall (fun c => Str.isspace c = true) ws
             /\ l = Str.rstrip_chars l ++ ws.
Proof.
  destruct (lstrip_decomp (rev l)) as (ws & Hws & Hl).
  exists (rev ws). split.
  - now apply Forall_rev.
  - unfold Str.rstrip_chars. rewrite <- rev_app_distr, <- Hl.
    now rewrite rev_involutive.
Qed.

Lemma split_go_rstrip l : Str.split_go [] (Str.rstrip_chars l) = Str.split_go [] l.
Proof.
  destruct (rstrip_decomp l) as (ws & Hws & Hl).
  rewrite Hl at 2. now rewrite split_go_trailing.
Qed.

Lemma split_strip s : Str.split (Str.strip s) = Str.split s.
Proof.
  unfold Str.split, Str.strip. rewrite chars_of_chars.
  now rewrite split_go_rstrip, split_go_lstrip.
Qed.

Lemma normalize_name_parts name :
  normalize_name name =
  match map Str.lower (Str.split name) with
  | [] => Raise IndexError
  | [first] => Ok (first, ""%string)
  | first :: (_ :: _) as parts =>
      match last parts with
      | Some l => Ok (first, l)
      | None => Raise IndexError
      end
  end.
Proof. now rewrite normalize_name_tokens, split_lower, split_strip. Qed.

(** [normalize_name] reads the words of the raw name: stripping changes
    none of them and lowering acts word by word. *)
Lemma normalize_name_split name :
  (Str.split name = [] -> normalize_name name = Raise IndexError)
  /\ (forall t, Str.split name = [t] ->
                normalize_name name = Ok (Str.lower t, ""%string))
  /\ (forall t mid u, Str.split name = t :: mid ++ [u] ->
                      normalize_name name = Ok (Str.lower t, Str.lower u)).
Proof.
  rewrite normalize_name_parts. repeat split.
  - now intros ->.
  - now intros t ->.
  - intros t mid u ->.
    assert (Hlast : last (map Str.lower (mid ++ [u])) = Some (Str.lower u)).
    { rewrite map_app. apply last_snoc. }
    destruct mid as [|m mid]; cbn [map app] in *; now rewrite Hlast.
Qed.

Lemma split_go_word t :
  Forall (fun c => Str.isspace c = false) t ->
  forall cur l, Str.split_go cur (t ++ l) = Str.split_go (rev t ++ cur) l.
Proof.
  induction 1 as [|c t Hc _ IH]; intros cur l; [reflexivity|].
  cbn [app Str.split_go rev]. rewrite Hc, IH, <- app_assoc. reflexivity.
Qed.

Lemma split_go_leading ws l :
  Forall (fun c => Str.isspace c = true) ws ->
  Str.split_go [] (ws ++ l) = Str.split_go [] l.
Proof.
  induction 1 as [|c ws Hc _ IH]; [reflexivity|].
  cbn [app Str.split_go]. now rewrite Hc.
Qed.

Lemma split_go_spaced words :
  well_spaced words ->
  Str.split_go [] (concat (map (fun w => fst w ++ snd w) words))
  = map (fun w => Str.of_chars (fst w)) words.
Proof.
  induction words as [|[t g] rest IH]; [reflexivity|].
  intros (Ht & Hns & Hg & Hnext & Hrest).
  cbn [map concat fst snd]. rewrite <- app_assoc, split_go_word by assumption.
  rewrite app_nil_r.
  destruct (rev t) as [|a cur] eqn:Erev.
  { apply (f_equal (@rev ascii)) in Erev. rewrite rev_involutive in Erev.
    contradiction. }
  rewrite <- Erev. clear a cur Erev.
  destruct g as [|c g].
  - destruct rest as [|w rest]; [|now destruct Hnext].
    cbn [app concat map Str.split_go]. destruct (rev t) eqn:E.
    + apply (f_equal (@rev ascii)) in E. rewrite rev_involutive in E. contradiction.
    + rewrite <- E. now rewrite rev_involutive.
  - inversion Hg as [|? ? Hc Hg']; subst.
    cbn [app Str.split_go]. rewrite Hc. destruct (rev t) eqn:E.
    + apply (f_equal (@rev ascii)) in E. rewrite rev_involutive in E. contradiction.
    + rewrite <- E, rev_involutive. f_equal.
      rewrite split_go_leading by assumption. now apply IH.
Qed.

Lemma split_spaced g0 words :
  Forall (fun c => Str.isspace c = true) g0 ->
  well_spaced words ->
  Str.split (Str.of_chars (spaced g0 words))
  = map (fun w => Str.of_chars (fst w)) words.
Proof.
  intros Hg0 Hw. unfold Str.split, spaced. rewrite chars_of_chars.
  rewrite split_go_leading by assumption. now apply split_go_spaced.
Qed.

Lemma split_go_nil l :
  forall cur, Str.split_go cur l = [] ->
              cur = [] /\ Forall (fun c => Str.isspace c = true) l.
Proof.
  induction l as [|c l IH]; intros cur.
  - destruct cur; [now split | discriminate].
  - cbn [Str.split_go]. destruct (Str.isspace c) eqn:E.
    + destruct cur; [|discriminate]. intros H. apply IH in H as [_ H].
      split; [reflexivity | now constructor].
    + intros H. apply IH in H as [H _]. discriminate.
Qed.

Lemma split_nil_iff s : Str.split s = [] <-> blank s.
Proof.
  unfold Str.split, blank. split.
  - intros H. now apply split_go_nil in H.
  - intros H. now rewrite split_go_spaces.
Qed.

Lemma normalize_name_raises name e :
  normalize_name name = Raise e -> e = IndexError.
Proof.
  rewrite normalize_name_parts.
  destruct (map Str.lower (Str.split name)) as [|t [|u rest]].
  - now intros [= <-].
  - discriminate.
  - cbn [last]. destruct (last (u :: rest)); [discriminate | now intros [= <-]].
Qed.

Lemma has_token_not_blank name : has_token name <-> ~ blank name.
Proof.
  rewrite normalize_name_ok_iff, split_lower, split_strip, <- split_nil_iff.
  destruct (Str.split name); cbn [map]; split; intros H; congruence.
Qed.

(** X1: [normalize_name] raises exactly on the names that are blank (empty
    or white space only), and what it raises is [IndexError]; on every
    other name it returns a key. *)
Theorem normalize_name_blank name :
  (blank name <-> normalize_name name = Raise IndexError)
  /\ (~ blank name <-> has_token name).
Proof.
  pose proof (has_token_not_blank name) as Hiff.
  split; [|now rewrite Hiff].
  split.
  - intros Hb. destruct (normalize_name name) as [k|e] eqn:E.
    + exfalso. apply Hiff; [now exists k | exact Hb].
    + now rewrite (normalize_name_raises _ _ E).
  - intros E. apply split_nil_iff. rewrite normalize_name_parts in E.
    destruct (Str.split name) as [|t [|u rest]]; [reflexivity|discriminate|].
    cbn [map last] in E.
    destruct (last (Str.lower u :: map Str.lower rest)) eqn:El; [discriminate|].
    apply last_None in El. discriminate.
Qed.

Lemma normalize_name_one_word g0 t g :
  Forall (fun c => Str.isspace c = true) g0 ->
  well_spaced [(t, g)] ->
  normalize_name (Str.of_chars (spaced g0 [(t, g)]))
  = Ok (Str.lower (Str.of_chars t), ""%string).
Proof.
  intros Hg0 Hw.
  destruct (normalize_name_split (Str.of_chars (spaced g0 [(t, g)])))
    as (_ & H & _).
  apply H. now rewrite split_spaced.
Qed.

Lemma normalize_name_first_last g0 t g mid u gu :
  Forall (fun c => Str.isspace c = true) g0 ->
  well_spaced ((t, g) :: mid ++ [(u, gu)]) ->
  normalize_name (Str.of_chars (spaced g0 ((t, g) :: mid ++ [(u, gu)])))
  = Ok (Str.lower (Str.of_chars t), Str.lower (Str.of_chars u)).
Proof.
  intros Hg0 Hw.
  destruct (normalize_name_split
              (Str.of_chars (spaced g0 ((t, g) :: mid ++ [(u, gu)]))))
    as (_ & _ & H).
  apply (H _ (map (fun w => Str.of_chars (fst w)) mid)).
  rewrite split_spaced by assumption. cbn [map fst]. now rewrite map_app.
Qed.

(** X2: the key of a name is made of its first and its last word in
    lower case, whatever white space stands before, between and after the
    words and whatever words stand in between; a name of one word has the
    empty string as last component. *)
Theorem normalize_name_words g0 t g :
  Forall (fun c => Str.isspace c = true) g0 ->
  (well_spaced [(t, g)] ->
   normalize_name (Str.of_chars (spaced g0 [(t, g)]))
   = Ok (Str.lower (Str.of_chars t), ""%string))
  /\ (forall mid u gu,
        well_spaced ((t, g) :: mid ++ [(u, gu)]) ->
        normalize_name (Str.of_chars (spaced g0 ((t, g) :: mid ++ [(u, gu)])))
        = Ok (Str.lower (Str.of_chars t), Str.lower (Str.of_chars u))).
Proof.
  intros Hg0. split.
  - now apply normalize_name_one_word.
  - intros mid u gu. now apply normalize_name_first_last.
Qed.

Lemma normalize_name_words_witness :
  normalize_name "  Michael   Pittman JR "
  = Ok ("michael", "jr")%string.
Proof.
  destruct (normalize_name_words (Str.chars "  ") (Str.chars "Michael")
              (Str.chars "   ")) as [_ H].
  - repeat constructor.
  - apply (H [(Str.chars "Pittman", Str.chars " ")] (Str.chars "JR")
             (Str.chars " ")).
    cbn. repeat split; try discriminate; repeat constructor.
Defined.

(** X3: the key does not depend on the case of the letters nor on white
    space around the name. *)
Theorem normalize_name_case_and_padding name :
  normalize_name (Str.lower name) = normalize_name name
  /\ normalize_name (Str.strip name) = normalize_name name.
Proof.
  rewrite !normalize_name_parts. split.
  - rewrite split_lower, map_map.
    rewrite (map_ext _ Str.lower lower_idem). reflexivity.
  - now rewrite split_strip.
Qed.

Lemma chars_append s1 s2 :
  Str.chars (s1 ++ s2)%string = Str.chars s1 ++ Str.chars s2.
Proof.
  unfold Str.chars. induction s1 as [|c s1 IH]; [reflexivity|].
  change (String c s1 +:+ s2) with (String c (s1 +:+ s2)).
  cbn [list_ascii_of_string app]. now rewrite IH.
Qed.

Lemma split_go_tokens l :
  forall cur,
    Forall (fun c => Str.isspace c = false) cur ->
    Forall (fun tok => Str.chars tok <> []
                       /\ Forall (fun c => Str.isspace c = false) (Str.chars tok))
           (Str.split_go cur l).
Proof.
  assert (Htok : forall a cur,
             Forall (fun c => Str.isspace c = false) (a :: cur) ->
             Str.chars (Str.of_chars (rev (a :: cur))) <> []
             /\ Forall (fun c => Str.isspace c = false)
                       (Str.chars (Str.of_chars (rev (a :: cur))))).
  { intros a cur H. rewrite chars_of_chars. split.
    - cbn [rev]. now destruct (rev cur).
    - now apply Forall_rev. }
  induction l as [|c l IH]; intros cur Hcur.
  - destruct cur as [|a cur]; constructor; [now apply Htok | constructor].
  - cbn [Str.split_go]. destruct (Str.isspace c) eqn:E.
    + destruct cur as [|a cur]; [now apply IH|].
      constructor; [now apply Htok | now apply IH].
    + apply IH. now constructor.
Qed.

Lemma lower_token tok :
  Str.chars tok <> [] /\ Forall (fun c => Str.isspace c = false) (Str.chars tok) ->
  Str.chars (Str.lower tok) <> []
  /\ Forall (fun c => Str.isspace c = false) (Str.chars (Str.lower tok)).
Proof.
  intros [Hne Hns]. unfold Str.lower. rewrite chars_of_chars. split.
  - now destruct (Str.chars tok).
  - apply Forall_map. eapply Forall_impl; [exact Hns|].
    intros c Hc. cbn. now rewrite isspace_lower_char.
Qed.

(** X4: keys are canonical.  When [normalize_name] returns the key
    [(first, final)], its components have no white space and no letter to
    lower, [first] is not empty, and the name made of [first], a space
    and [final] has that same key. *)
Theorem normalize_name_key_canonical name first final :
  normalize_name name = Ok (first, final) ->
  first <> ""%string
  /\ Forall (fun c => Str.isspace c = false) (Str.chars first)
  /\ Forall (fun c => Str.isspace c = false) (Str.chars final)
  /\ Str.lower first = first
  /\ Str.lower final = final
  /\ normalize_name (first ++ " " ++ final) = Ok (first, final).
Proof.
  intros Hn.
  pose proof (split_go_tokens (Str.chars name) [] (List.Forall_nil _)) as Htoks.
  fold (Str.split name) in Htoks.
  assert (Hshape : exists t, In t (Str.split name) /\ first = Str.lower t
                   /\ (final = ""%string \/ exists u, In u (Str.split name)
                                                 /\ final = Str.lower u)).
  { rewrite normalize_name_parts in Hn.
    destruct (Str.split name) as [|t [|u rest]] eqn:Es; [discriminate| |].
    - injection Hn as <- <-. exists t. split; [now left|]. split; [reflexivity|now left].
    - cbn [map last] in Hn.
      destruct (last (Str.lower u :: map Str.lower rest)) as [l|] eqn:El;
        [|discriminate].
      injection Hn as <- <-. exists t. split; [now left|]. split; [reflexivity|].
      right. change (Str.lower u :: map Str.lower rest)
               with (map Str.lower (u :: rest)) in El.
      apply last_Some_elem_of, list_elem_of_In, in_map_iff in El
        as (x & <- & Hx).
      exists x. split; [now right | reflexivity]. }
  destruct Hshape as (t & Ht & -> & Hlast).
  rewrite Forall_forall in Htoks.
  pose proof (lower_token t (Htoks t (proj2 (list_elem_of_In _ _) Ht)))
    as [Hfne Hfns].
  assert (Hf : Str.lower t <> ""%string).
  { intros E. rewrite E in Hfne. now apply Hfne. }
  assert (Hl : (final = ""%string) \/
               (Str.chars final <> []
                /\ Forall (fun c => Str.isspace c = false) (Str.chars final)
                /\ Str.lower final = final)).
  { destruct Hlast as [->|(u & Hu & ->)]; [now left|right].
    destruct (lower_token u (Htoks u (proj2 (list_elem_of_In _ _) Hu))) as [? ?].
    repeat split; try assumption. apply lower_idem. }
  split; [exact Hf|]. split; [exact Hfns|].
  assert (Hg0 : Forall (fun c => Str.isspace c = true) (@nil ascii)) by constructor.
  destruct Hl as [->|(Hlne & Hlns & Hll)].
  - repeat split; try reflexivity; [constructor | apply lower_idem |].
    pose proof (normalize_name_one_word [] (Str.chars (Str.lower t))
                  [" "%char] Hg0) as H.
    unfold spaced in H. cbn [map concat fst snd app] in H.
    rewrite app_nil_r in H.
    replace (Str.lower t ++ " " ++ "")%string
      with (Str.of_chars (Str.chars (Str.lower t) ++ [" "%char])).
    2:{ rewrite <- (of_chars_chars (Str.lower t ++ " " ++ "")).
        now rewrite chars_append. }
    rewrite H; [now rewrite of_chars_chars, lower_idem|].
    cbn. repeat split; try assumption; try easy; repeat constructor.
  - repeat split; try assumption; [apply lower_idem|].
    pose proof (normalize_name_first_last [] (Str.chars (Str.lower t))
                  [" "%char] [] (Str.chars final) [] Hg0) as H.
    unfold spaced in H. cbn [map concat fst snd app] in H.
    rewrite !app_nil_r in H.
    replace (Str.lower t ++ " " ++ final)%string
      with (Str.of_chars ((Str.chars (Str.lower t) ++ [" "%char]) ++ Str.chars final)).
    2:{ rewrite <- (of_chars_chars (Str.lower t ++ " " ++ final)).
        rewrite !chars_append. now rewrite <- app_assoc. }
    rewrite H; [now rewrite !of_chars_chars, lower_idem, Hll|].
    cbn. repeat split; try assumption; try easy; repeat constructor.
Qed.

Lemma normalize_name_key_canonical_witness :
  normalize_name ("justin" ++ " " ++ "jefferson") = Ok ("justin", "jefferson")%string.
Proof.
  apply (normalize_name_key_canonical " Justin  JEFFERSON ").
  vm_compute. reflexivity.
Defined.

(** ** The mapping from keys to valuation rows *)

Lemma build_name_map_last key rows :
  forall m m',
    build_name_map rows m = Ok m' ->
    m' !! key = match last (List.filter (has_key key) rows) with
                | Some r => Some r
                | None => m !! key
                end.
Proof.
  induction rows as [|r rows IH]; intros m m' Hbuild.
  - injection Hbuild as <-. reflexivity.
  - cbn [build_name_map] in Hbuild. cbn [List.filter]. unfold has_key at 1.
    destruct (normalize_name (Ktc.Name r)) as [k|e]; [|discriminate].
    cbn [res_bind] in Hbuild. rewrite (IH _ _ Hbuild).
    destruct (bool_decide (k = key)) eqn:E.
    + apply bool_decide_eq_true in E. subst k. rewrite last_cons.
      destruct (last (List.filter (has_key key) rows)); [reflexivity|].
      apply lookup_insert_eq.
    + apply bool_decide_eq_false in E.
      destruct (last (List.filter (has_key key) rows)); [reflexivity|].
      now apply lookup_insert_ne.
Qed.

(** X5: in the mapping built from the valuation list a key leads to the
    last row of the list whose name has that key, and to nothing when no
    name has it: a later record replaces an earlier one with the same first
    and last word. *)
Theorem ktc_name_map_last_wins ktc_df name_map key :
  ktc_name_map ktc_df = Ok name_map ->
  name_map !! key = last (List.filter (has_key key) ktc_df).
Proof.
  intros Hbuild. rewrite (build_name_map_last key _ _ _ Hbuild).
  destruct (last (List.filter (has_key key) ktc_df)); [reflexivity|].
  apply lookup_empty.
Qed.

Lemma build_name_map_names rows :
  forall m m',
    build_name_map rows m = Ok m' ->
    Forall (fun r => ~ blank (Ktc.Name r)) rows.
Proof.
  induction rows as [|r rows IH]; intros m m' H; [constructor|].
  cbn [build_name_map] in H.
  destruct (normalize_name (Ktc.Name r)) as [k|e] eqn:Ek; [|discriminate].
  constructor; [|exact (IH _ _ H)].
  apply has_token_not_blank. now exists k.
Qed.

Lemma ktc_name_map_builds ktc_df :
  Forall (fun r => ~ blank (Ktc.Name r)) ktc_df ->
  exists name_map, ktc_name_map ktc_df = Ok name_map.
Proof.
  intros H. apply build_name_map_ok. eapply Forall_impl; [exact H|].
  intros r Hr. now apply has_token_not_blank.
Qed.

Lemma ktc_name_map_raises ktc_df :
  Exists (fun r => blank (Ktc.Name r)) ktc_df ->
  ktc_name_map ktc_df = Raise IndexError.
Proof.
  intros Hex. destruct (ktc_name_map ktc_df) as [m|e] eqn:E.
  - exfalso. apply build_name_map_names in E. rewrite Forall_forall in E.
    apply Exists_exists in Hex as (r & Hr & Hb).
    exact (E r Hr Hb).
  - f_equal. clear Hex. unfold ktc_name_map in E.
    revert E. generalize (∅ : gmap (string * string) Ktc.Row).
    induction ktc_df as [|r rows IH]; intros m E; [discriminate|].
    cbn [build_name_map] in E.
    destruct (normalize_name (Ktc.Name r)) as [k|e'] eqn:Ek.
    + exact (IH _ E).
    + injection E as <-. exact (normalize_name_raises _ _ Ek).
Qed.

(** X6: the mapping is built exactly when no valuation name is blank; a
    blank name anywhere in the list makes the construction raise
    [IndexError]. *)
Theorem ktc_name_map_blank_name ktc_df :
  (Forall (fun r => ~ blank (Ktc.Name r)) ktc_df <->
   exists name_map, ktc_name_map ktc_df = Ok name_map)
  /\ (Exists (fun r => blank (Ktc.Name r)) ktc_df ->
      ktc_name_map ktc_df = Raise IndexError).
Proof.
  split; [split|].
  - apply ktc_name_map_builds.
  - intros [m Hm]. exact (build_name_map_names _ _ _ Hm).
  - apply ktc_name_map_raises.
Qed.

(** ** The rows and the calls of the loop *)

Section LoopShape.

Variable extractOne : string -> list string -> option (string * Z).
Variable ktc_df : list Ktc.Row.

Lemma rows_named_In name r :
  index0 (rows_named name ktc_df) = Ok r -> In r ktc_df /\ Ktc.Name r = name.
Proof.
  unfold rows_named.
  destruct (List.filter _ ktc_df) as [|x l] eqn:E; [discriminate|].
  intros [= <-].
  assert (Hin : In x (List.filter (fun r => String.eqb (Ktc.Name r) name) ktc_df))
    by (rewrite E; now left).
  apply filter_In in Hin as [Hin Hn]. split; [exact Hin|].
  now apply String.eqb_eq.
Qed.

Lemma match_player_shape name_map p_name log row log' :
  (forall key r, name_map !! key = Some r -> In r ktc_df) ->
  match_player extractOne ktc_df name_map p_name log = (Ok row, log') ->
  from_valuation ktc_df row
  /\ Team.Player row = p_name
  /\ log' = log ++ (if fuzzy_needed name_map p_name
                    then [(p_name, map Ktc.Name ktc_df)] else []).
Proof.
  intros Hmap. unfold match_player, best_match_of, mbind, lift, mret,
    call_extractOne, fuzzy_needed, from_valuation.
  destruct (normalize_name p_name) as [key|e]; [|discriminate].
  destruct (name_map !! key) as [r|] eqn:Hlook.
  - intros [= <- <-]. split; [left; exists r; split; [eauto|reflexivity]|].
    split; [reflexivity | now rewrite app_nil_r].
  - unfold column. destruct ktc_df as [|r0 rows] eqn:Edf; [discriminate|].
    destruct (extractOne p_name (map Ktc.Name (r0 :: rows))) as [[name score]|];
      [|discriminate].
    rewrite <- Edf in *.
    cbn [unpack_pair]. destruct (negb (score =? 0) && (80 <? score)).
    + destruct (index0 (rows_named name ktc_df)) as [r|e] eqn:Er; [|discriminate].
      intros [= <- <-]. apply rows_named_In in Er as [Hin _].
      split; [left; exists r; now split|]. split; [reflexivity|].
      now rewrite Edf.
    + intros [= <- <-]. split; [now right|]. split; [reflexivity|].
      now rewrite Edf.
Qed.

Lemma match_loop_shape name_map roster_players :
  (forall key r, name_map !! key = Some r -> In r ktc_df) ->
  forall acc log rows log',
    match_loop extractOne ktc_df name_map roster_players acc log = (Ok rows, log') ->
    exists new,
      rows = acc ++ new
      /\ Forall (from_valuation ktc_df) new
      /\ log' = log ++ map (fun p => (p, map Ktc.Name ktc_df))
                         (List.filter (fuzzy_needed name_map) roster_players).
Proof.
  intros Hmap.
  induction roster_players as [|p rest IH]; intros acc log rows log' H.
  - injection H as <- <-. exists []. now rewrite !app_nil_r.
  - cbn [match_loop] in H. unfold mbind in H at 1.
    destruct (match_player extractOne ktc_df name_map p log) as [[row|e] l] eqn:Hp;
      [|discriminate].
    apply (match_player_shape _ _ _ _ _ Hmap) in Hp as (Hrow & _ & ->).
    destruct (IH _ _ _ _ H) as (new & -> & Hnew & ->).
    exists (row :: new). split; [now rewrite <- app_assoc|].
    split; [now constructor|].
    cbn [List.filter]. destruct (fuzzy_needed name_map p).
    + now rewrite <- app_assoc.
    + now rewrite app_nil_r.
Qed.

(** X7: whatever [extractOne] returns, every row the loop builds is either
    the "No Match" row of its player or carries the name, position, value
    and age of a record of the valuation list: the matcher invents no
    record. *)
Theorem match_roster_rows_from_valuation roster_players log rows log' :
  match_roster extractOne ktc_df roster_players log = (Ok rows, log') ->
  Forall (from_valuation ktc_df) rows.
Proof.
  unfold match_roster, mbind, lift.
  destruct (ktc_name_map ktc_df) as [m|e] eqn:Em; [|discriminate].
  intros H.
  destruct (match_loop_shape m roster_players
              (fun key r Hr => proj1 (ktc_name_map_lookup _ _ _ _ Em Hr))
              _ _ _ _ H) as (new & -> & Hnew & _).
  exact Hnew.
Qed.

(** X8: when the loop returns, it has called [extractOne] once for each
    roster player whose key is not in the mapping, in roster order, each
    time with the raw name and all valuation names, and not at all for the
    players with an exact match. *)
Theorem match_roster_calls name_map roster_players log rows log' :
  ktc_name_map ktc_df = Ok name_map ->
  match_roster extractOne ktc_df roster_players log = (Ok rows, log') ->
  log' = log ++ map (fun p => (p, map Ktc.Name ktc_df))
                   (List.filter (fuzzy_needed name_map) roster_players).
Proof.
  intros Em. unfold match_roster, mbind, lift. rewrite Em. intros H.
  destruct (match_loop_shape name_map roster_players
              (fun key r Hr => proj1 (ktc_name_map_lookup _ _ _ _ Em Hr))
              _ _ _ _ H) as (new & _ & _ & Hlog).
  exact Hlog.
Qed.

(** X9: when the fuzzy candidate is accepted, the row built has the
    returned name and the position, the value and the age of the first
    row of the valuation list with that name (where the mapping keeps the
    last row of a key); a returned name that no row has makes the loop
    raise [IndexError]. *)
Theorem fuzzy_match_first_row name_map p_name key name score log :
  normalize_name p_name = Ok key ->
  name_map !! key = None ->
  ktc_df <> [] ->
  extractOne p_name (map Ktc.Name ktc_df) = Some (name, score) ->
  80 < score ->
  match_player extractOne ktc_df name_map p_name log
  = (match List.find (fun r => String.eqb (Ktc.Name r) name) ktc_df with
     | Some r => Ok {| Team.Player := p_name;
                       Team.KTC_Name := name;
                       Team.Position := VStr (Ktc.Position r);
                       Team.KTC_Value := VStr (Ktc.KTC_Value r);
                       Team.Age := VStr (Ktc.Age r) |}
     | None => Raise IndexError
     end,
     log ++ [(p_name, map Ktc.Name ktc_df)]).
Proof.
  intros Hkey Hlook Hne Hex Hscore.
  unfold match_player, best_match_of, mbind, lift, mret, call_extractOne, column.
  rewrite Hkey, Hlook. destruct ktc_df as [|r0 rows] eqn:Edf; [contradiction|].
  rewrite <- Edf in *. rewrite Hex. cbn [unpack_pair].
  replace (negb (score =? 0) && (80 <? score)) with true.
  2:{ symmetry. apply andb_true_iff. split.
      - apply negb_true_iff, Z.eqb_neq. lia.
      - now apply Z.ltb_lt. }
  assert (Hfind : index0 (rows_named name ktc_df)
                  = match List.find (fun r => String.eqb (Ktc.Name r) name) ktc_df with
                    | Some r => Ok r
                    | None => Raise IndexError
                    end).
  { unfold rows_named. clear. induction ktc_df as [|r rows IH]; [reflexivity|].
    cbn [List.filter List.find]. now destruct (String.eqb (Ktc.Name r) name). }
  rewrite Hfind.
  destruct (List.find (fun r => String.eqb (Ktc.Name r) name) ktc_df) as [r|] eqn:Ef;
    [|reflexivity].
  apply find_some in Ef as [_ Er]. apply String.eqb_eq in Er.
  cbn [res_bind]. unfold mret, matched. now rewrite Er.
Qed.

End LoopShape.

Lemma match_roster_calls_witness :
  [("Unknown Player123"%string, map Ktc.Name sample_ktc_df)]
  = [] ++ map (fun p => (p, map Ktc.Name sample_ktc_df))
            (List.filter (fuzzy_needed sample_name_map)
               ["Justin Jefferson"; "Unknown Player123"]%string).
Proof.
  apply (match_roster_calls sample_extractOne sample_ktc_df sample_name_map
           ["Justin Jefferson"; "Unknown Player123"]%string [] sample_team).
  - vm_compute. reflexivity.
  - vm_compute. reflexivity.
Defined.

(** ** The player map *)

Lemma strip_blank s : blank s -> Str.strip s = ""%string.
Proof.
  unfold blank, Str.strip. intros H.
  assert (Hl : Str.lstrip_chars (Str.chars s) = []).
  { induction H as [|c l Hc _ IH]; [reflexivity|]. cbn. now rewrite Hc. }
  now rewrite Hl.
Qed.

Lemma blank_empty : blank "".
Proof. constructor. Qed.

Lemma strip_not_blank s : Str.strip s <> ""%string -> ~ blank (Str.strip s).
Proof.
  intros Hne Hb. apply Hne. apply split_nil_iff in Hb.
  rewrite split_strip in Hb. apply split_nil_iff in Hb.
  now apply strip_blank.
Qed.

Lemma full_name_of_not_blank pid pdata name :
  full_name_of pid pdata = Ok name -> ~ blank pid -> ~ blank name.
Proof.
  unfold full_name_of.
  destruct (get_stripped (Sleeper.first_name pdata)) as [first|]; [|discriminate].
  destruct (get_stripped (Sleeper.last_name pdata)) as [last|]; [|discriminate].
  cbn [res_bind].
  destruct (String.eqb (Str.strip (first +:+ " " +:+ last)) "") eqn:E.
  - cbn [orb]. now intros [= <-].
  - apply String.eqb_neq in E. cbn [orb].
    destruct (String.eqb _ "None None"); intros [= <-]; [easy|].
    intros _. now apply strip_not_blank.
Qed.

Lemma player_map_loop_lookup items :
  forall m m' pid name,
    player_map_loop items m = Ok m' ->
    m' !! pid = Some name ->
    (exists pdata, In (pid, pdata) items /\ full_name_of pid pdata = Ok name)
    \/ m !! pid = Some name.
Proof.
  induction items as [|[p pdata] items IH]; intros m m' pid name Hrun Hlook.
  - injection Hrun as <-. now right.
  - cbn [player_map_loop] in Hrun.
    destruct (full_name_of p pdata) as [n|e] eqn:En; [|discriminate].
    cbn [res_bind] in Hrun.
    destruct (IH _ _ _ _ Hrun Hlook) as [(pd & Hin & Hn)|Hm].
    + left. exists pd. split; [now right | exact Hn].
    + destruct (decide (p = pid)) as [->|Hne].
      * rewrite lookup_insert_eq in Hm. injection Hm as <-.
        left. exists pdata. split; [now left | exact En].
      * rewrite lookup_insert_ne in Hm by exact Hne. now right.
Qed.

Lemma player_map_name_not_blank data player_map pid name :
  get_sleeper_player_map data = Ok player_map ->
  player_map !! pid = Some name -> ~ blank pid -> ~ blank name.
Proof.
  intros Hrun Hlook Hpid.
  destruct (player_map_loop_lookup _ _ _ _ _ Hrun Hlook) as [(pd & _ & Hn)|Hm].
  - exact (full_name_of_not_blank _ _ _ Hn Hpid).
  - rewrite lookup_empty in Hm. discriminate.
Qed.

Lemma full_name_of_text pid pdata name :
  full_name_of pid pdata = Ok name ->
  exists first last,
    name_text (Sleeper.first_name pdata) = Some first
    /\ name_text (Sleeper.last_name pdata) = Some last
    /\ name = (let full_name :=
                 Str.strip (Str.strip first +:+ " " +:+ Str.strip last) in
               if String.eqb full_name "" || String.eqb full_name "None None"
               then pid else full_name).
Proof.
  unfold full_name_of, get_stripped, name_text.
  destruct (Sleeper.first_name pdata) as [[|first|]|];
    destruct (Sleeper.last_name pdata) as [[|last|]|];
    cbn [res_bind]; try discriminate; intros [= <-];
    eexists _, _; repeat split; reflexivity.
Qed.

(** X10: in the player map every id of the response has a display name;
    the display name of an id is, for an entry of that id, the first and
    the last name stripped and joined by a space, stripped again, or the id
    itself when that text is empty or reads "None None"; and the display
    name of an id that is not blank is not blank. *)
Theorem player_map_names_not_blank data player_map :
  get_sleeper_player_map data = Ok player_map ->
  (forall pid pdata, In (pid, pdata) data -> is_Some (player_map !! pid))
  /\ (forall pid name,
        player_map !! pid = Some name ->
        exists pdata first last,
          In (pid, pdata) data
          /\ name_text (Sleeper.first_name pdata) = Some first
          /\ name_text (Sleeper.last_name pdata) = Some last
          /\ name = (let full_name :=
                       Str.strip (Str.strip first +:+ " " +:+ Str.strip last) in
                     if String.eqb full_name "" || String.eqb full_name "None None"
                     then pid else full_name))
  /\ (forall pid name,
        player_map !! pid = Some name -> ~ blank pid -> ~ blank name).
Proof.
  intros Hrun. split; [|split].
  2:{ intros pid name Hlook.
      destruct (player_map_loop_lookup _ _ _ _ _ Hrun Hlook)
        as [(pd & Hin & Hn)|Hm]; [|rewrite lookup_empty in Hm; discriminate].
      destruct (full_name_of_text _ _ _ Hn) as (first & last & Hf & Hl & Hname).
      now exists pd, first, last. }
  - unfold get_sleeper_player_map in Hrun. revert Hrun.
    generalize (∅ : gmap string string) as m. revert player_map.
    assert (Hkeep : forall items m m' pid,
               player_map_loop items m = Ok m' ->
               is_Some (m !! pid) -> is_Some (m' !! pid)).
    { induction items as [|[p pd] items IH]; intros m m' pid H Hs.
      - now injection H as <-.
      - cbn [player_map_loop] in H.
        destruct (full_name_of p pd) as [n|]; [|discriminate].
        apply (IH _ _ _ H). destruct (decide (p = pid)) as [->|Hne].
        + rewrite lookup_insert_eq. eauto.
        + now rewrite lookup_insert_ne. }
    induction data as [|[p pd] items IH]; intros player_map m Hrun pid pdata Hin;
      [destruct Hin|].
    cbn [player_map_loop] in Hrun.
    destruct (full_name_of p pd) as [n|]; [|discriminate].
    cbn [res_bind] in Hrun. destruct Hin as [[= -> ->]|Hin].
    + apply (Hkeep _ _ _ _ Hrun). rewrite lookup_insert_eq. eauto.
    + exact (IH _ _ Hrun _ _ Hin).
  - intros pid name. now apply (player_map_name_not_blank data).
Qed.

(** X11: the player map is built when every [first_name] and [last_name]
    of the response is absent or a string; a null or a number in one of
    them makes the whole construction raise [AttributeError], whatever the
    other players are. *)
Theorem player_map_needs_strings data :
  (forallb player_ok data = true ->
   exists player_map, get_sleeper_player_map data = Ok player_map)
  /\ (forallb player_ok data = false ->
      get_sleeper_player_map data = Raise AttributeError).
Proof.
  unfold get_sleeper_player_map. generalize (∅ : gmap string string) as m.
  induction data as [|[pid pdata] items IH]; intros m.
  - split; [now exists m | discriminate].
  - cbn [player_map_loop forallb]. unfold player_ok at 1 3, full_name_of.
    cbn [snd].
    destruct (Sleeper.first_name pdata) as [[|first|]|];
      destruct (Sleeper.last_name pdata) as [[|last|]|];
      cbn [name_field_ok get_stripped res_bind andb];
      try (split; [discriminate | reflexivity]); apply IH.
Qed.

(** ** The roster frame *)

Lemma rosters_loop_rows user_map player_map rosters_data :
  forall rows out,
    rosters_loop user_map player_map rosters_data rows = Ok out ->
    exists new,
      out = rows ++ new
      /\ Forall2 (fun roster row => roster_row user_map player_map roster = Ok row)
                 rosters_data new.
Proof.
  induction rosters_data as [|r rest IH]; intros rows out H.
  - injection H as <-. exists []. split; [now rewrite app_nil_r | constructor].
  - cbn [rosters_loop] in H.
    destruct (roster_row user_map player_map r) as [row|e] eqn:Er; [|discriminate].
    cbn [res_bind] in H. destruct (IH _ _ H) as (new & -> & Hnew).
    exists (row :: new). split; [now rewrite <- app_assoc | now constructor].
Qed.

Lemma parse_rosters_frame users_data rosters_data player_map rows :
  parse_rosters_into_dataframe users_data rosters_data player_map = Ok rows ->
  Forall2
    (fun roster row =>
       Sleeper.roster_id roster = Some (League.Roster_ID row)
       /\ League.Players row
          = map (id_to_name player_map) (or_empty (Sleeper.players roster))
       /\ League.Taxi_Squad row
          = map (id_to_name player_map) (or_empty (Sleeper.taxi roster))
       /\ League.Reserve row
          = map (id_to_name player_map) (or_empty (Sleeper.reserve roster)))
    rosters_data rows.
Proof.
  unfold parse_rosters_into_dataframe.
  destruct (user_map_loop users_data ∅) as [um|]; [|discriminate].
  cbn [res_bind]. intros H.
  destruct (rosters_loop_rows _ _ _ _ _ H) as (new & -> & Hnew).
  cbn [app]. eapply Forall2_impl; [exact Hnew|].
  intros roster row Hrow. unfold roster_row in Hrow.
  destruct (Sleeper.roster_id roster) as [rid|]; [|discriminate].
  cbn [getitem res_bind] in Hrow. injection Hrow as <-. now cbn.
Qed.

(** X12: the roster frame has one row per roster of the response, in the
    same order; the row has the roster id, and in [Players], [Taxi Squad]
    and [Reserve] one name per id, in the order of the ids: the display
    name the player map has for the id as a string, or "Unknown (id)" when
    it has none; a list of ids that is absent or null gives the empty
    list. *)
Theorem parse_rosters_rows users_data rosters_data player_map rows :
  parse_rosters_into_dataframe users_data rosters_data player_map = Ok rows ->
  let name_of pid :=
    match player_map !! py_str pid with
    | Some name => name
    | None => ("Unknown (" +:+ py_str pid +:+ ")")%string
    end in
  let names ids :=
    match ids with
    | Some l => map name_of l
    | None => []
    end in
  length rows = length rosters_data
  /\ Forall2
       (fun roster row =>
          Sleeper.roster_id roster = Some (League.Roster_ID row)
          /\ League.Players row = names (Sleeper.players roster)
          /\ League.Taxi_Squad row = names (Sleeper.taxi roster)
          /\ League.Reserve row = names (Sleeper.reserve roster))
       rosters_data rows.
Proof.
  intros H name_of names. apply parse_rosters_frame in H.
  split; [symmetry; exact (Forall2_length _ _ _ H)|].
  eapply Forall2_impl; [exact H|].
  intros roster row (Hid & Hp & Ht & Hr).
  split; [exact Hid|]. rewrite Hp, Ht, Hr. unfold names, or_empty.
  repeat split;
    match goal with
    | |- context [match ?x with Some _ => _ | None => _ end] =>
        destruct x; reflexivity
    end.
Qed.

(** X13: the roster frame is built when every user has a [user_id] and
    every roster a [roster_id]; a user or a roster without it makes the
    construction raise [KeyError]. *)
Theorem parse_rosters_missing_id users_data rosters_data player_map :
  (forallb (fun u => has_field (Sleeper.user_id u)) users_data
   && forallb (fun r => has_field (Sleeper.roster_id r)) rosters_data = true ->
   exists rows,
     parse_rosters_into_dataframe users_data rosters_data player_map = Ok rows)
  /\ (forallb (fun u => has_field (Sleeper.user_id u)) users_data
      && forallb (fun r => has_field (Sleeper.roster_id r)) rosters_data = false ->
      parse_rosters_into_dataframe users_data rosters_data player_map
      = Raise KeyError).
Proof.
  unfold parse_rosters_into_dataframe.
  assert (Hu : forall m,
             (forallb (fun u => has_field (Sleeper.user_id u)) users_data = true ->
              exists um, user_map_loop users_data m = Ok um)
             /\ (forallb (fun u => has_field (Sleeper.user_id u)) users_data = false ->
                 user_map_loop users_data m = Raise KeyError)).
  { induction users_data as [|u rest IH]; intros m.
    - split; [now exists m | discriminate].
    - cbn [forallb user_map_loop].
      destruct (Sleeper.user_id u) as [uid|]; cbn [has_field getitem res_bind andb].
      + apply IH.
      + split; [discriminate | reflexivity]. }
  assert (Hr : forall um rows,
             (forallb (fun r => has_field (Sleeper.roster_id r)) rosters_data = true ->
              exists out, rosters_loop um player_map rosters_data rows = Ok out)
             /\ (forallb (fun r => has_field (Sleeper.roster_id r)) rosters_data = false ->
                 rosters_loop um player_map rosters_data rows = Raise KeyError)).
  { intros um. induction rosters_data as [|r rest IH]; intros rows.
    - split; [now exists rows | discriminate].
    - cbn [forallb rosters_loop]. unfold roster_row.
      destruct (Sleeper.roster_id r) as [rid|]; cbn [has_field getitem res_bind andb].
      + apply IH.
      + split; [discriminate | reflexivity]. }
  destruct (forallb (fun u => has_field (Sleeper.user_id u)) users_data) eqn:Eu.
  - destruct (proj1 (Hu ∅) eq_refl) as [um ->]. cbn [res_bind andb].
    split; intros H; now apply Hr.
  - rewrite (proj2 (Hu ∅) eq_refl). cbn [res_bind andb].
    split; [discriminate | reflexivity].
Qed.

Lemma unknown_not_blank pid : ~ blank ("Unknown (" +:+ py_str pid +:+ ")").
Proof.
  unfold blank. intros H.
  change ("Unknown (" +:+ py_str pid +:+ ")")
    with (String "U" ("nknown (" +:+ py_str pid +:+ ")")) in H.
  cbn [Str.chars list_ascii_of_string] in H.
  inversion H as [|? ? Hc _]. discriminate Hc.
Qed.

(** X14: the names of the roster frame never make [normalize_name] raise.
    With the player map built from a response whose ids are not blank,
    every name in [Players], [Taxi Squad] and [Reserve] has a key: it is a
    display name of the map or reads "Unknown (id)". *)
Theorem roster_names_have_keys data player_map users_data rosters_data rows :
  get_sleeper_player_map data = Ok player_map ->
  Forall (fun item => ~ blank (fst item)) data ->
  parse_rosters_into_dataframe users_data rosters_data player_map = Ok rows ->
  Forall (fun row => Forall has_token (League.Players row)
                     /\ Forall has_token (League.Taxi_Squad row)
                     /\ Forall has_token (League.Reserve row)) rows.
Proof.
  intros Hpm Hids Hrows.
  assert (Hname : forall pid, has_token (id_to_name player_map pid)).
  { intros pid. apply has_token_not_blank. unfold id_to_name.
    destruct (player_map !! py_str pid) as [name|] eqn:El;
      [|apply unknown_not_blank].
    apply (player_map_name_not_blank _ _ _ _ Hpm El).
    destruct (player_map_loop_lookup _ _ _ _ _ Hpm El) as [(pd & Hin & _)|Hm].
    - rewrite Forall_forall in Hids.
      exact (Hids _ (proj2 (list_elem_of_In _ _) Hin)).
    - rewrite lookup_empty in Hm. discriminate. }
  assert (Hall : forall ids, Forall has_token (map (id_to_name player_map) ids)).
  { intros ids. apply Forall_map. apply Forall_forall. intros pid _. apply Hname. }
  apply parse_rosters_frame in Hrows.
  induction Hrows as [|roster row rosters rows' (_ & Hp & Ht & Hr) _ IH];
    constructor; [|exact IH].
  rewrite Hp, Ht, Hr. repeat split; apply Hall.
Qed.

(** ** The team summary *)

Lemma column_rows {R A : Type} (proj : R -> A) (df : list R) :
  df <> [] -> column proj df = Ok (map proj df).
Proof. now destruct df. Qed.

Lemma team_summary_rows rows :
  rows <> [] ->
  team_summary rows
  = Ok {| total_val := total_value rows;
          label := label_for (total_value rows)
                     (series_mean (map spec_parse_age (map Team.Age rows)));
          mean_age := series_mean (map spec_parse_age (map Team.Age rows)) |}.
Proof.
  intros Hne. set (avg := series_mean _).
  unfold team_summary. rewrite !column_rows by assumption. cbn [res_bind].
  unfold classify_team, with_age_numeric.
  cbn [Frame.Age_Numeric Frame.Age Frame.Value_Numeric].
  rewrite apply_parse_age. cbn [res_bind].
  fold (total_value rows) avg. unfold label_for.
  destruct (gt_int _ 110000 && gt_int avg 25).
  - cbn [res_bind Frame.Age]. now rewrite apply_parse_age.
  - destruct (lt_int _ 90000 && lt_int avg 24);
      cbn [res_bind Frame.Age]; now rewrite apply_parse_age.
Qed.



Lemma series_sum_zeros n :
  series_sum (repeat F.zero n) = F.zero.
Proof.
  replace (repeat F.zero n) with (map F.of_Z (repeat 0 n))
    by (induction n as [|n IH]; [reflexivity | cbn; now rewrite IH]).
  assert (Hz : fold_right Z.add 0 (repeat 0 n) = 0)
    by (induction n as [|n IH]; [reflexivity | cbn [repeat fold_right]; lia]).
  rewrite series_sum_of_Z, Hz; [reflexivity| |rewrite Hz; lia].
  clear. induction n; constructor; [lia | assumption].
Qed.

Lemma series_count_zeros n : series_count (repeat F.zero n) = n.
Proof.
  unfold series_count. induction n as [|n IH]; [reflexivity|].
  cbn [repeat List.filter F.is_nan F.zero negb length]. now rewrite IH.
Qed.

Lemma series_mean_zeros n :
  (0 < n)%nat -> Z.of_nat n < 2 ^ 53 -> series_mean (repeat F.zero n) = F.zero.
Proof.
  intros Hn Hlt. unfold series_mean. rewrite series_count_zeros, series_sum_zeros.
  destruct n as [|n]; [lia|].
  destruct (Z.of_nat (S n)) as [|p|p] eqn:Ep; try lia.
  rewrite of_Z_pos by lia. reflexivity.
Qed.

(** X16: a team none of whose players is matched has total value 0.0 and
    average age 0.0, and is labelled "Rebuild". *)
Theorem team_summary_no_match names :
  names <> [] ->
  Z.of_nat (length names) < 2 ^ 53 ->
  team_summary (map no_match names)
  = Ok {| total_val := F.zero; label := "Rebuild"; mean_age := F.zero |}.
Proof.
  intros Hne Hlen.
  rewrite (team_summary_rows (map no_match names)) by (now destruct names).
  assert (Hages : map spec_parse_age (map Team.Age (map no_match names))
                  = repeat F.zero (length names)).
  { clear. induction names as [|n names IH]; [reflexivity|]. cbn. now rewrite <- IH. }
  assert (Hvals : total_value (map no_match names) = F.zero).
  { unfold total_value.
    replace (map safe_float (map Team.KTC_Value (map no_match names)))
      with (repeat F.zero (length names)).
    - apply series_sum_zeros.
    - clear. induction names as [|n names IH]; [reflexivity|]. cbn. now rewrite IH. }
  cbv zeta. rewrite Hages, Hvals, series_mean_zeros; [reflexivity| |exact Hlen].
  destruct names; [contradiction | cbn; lia].
Qed.

Lemma team_summary_no_match_witness :
  team_summary (map no_match ["Unknown Player123"; "Nobody"]%string)
  = Ok {| total_val := F.zero; label := "Rebuild"; mean_age := F.zero |}.
Proof.
  apply (team_summary_no_match ["Unknown Player123"; "Nobody"]%string).
  - discriminate.
  - vm_compute. reflexivity.
Defined.

Lemma with_age_numeric_cases df :
  exists col,
    with_age_numeric df = Ok (with_age_column df col, col)
    /\ Frame.Age_Numeric (with_age_column df col) = Some col
    /\ Frame.Value_Numeric (with_age_column df col) = Frame.Value_Numeric df
    /\ Frame.Age (with_age_column df col) = Frame.Age df.
Proof.
  unfold with_age_numeric, with_age_column.
  destruct (Frame.Age_Numeric df) as [col|] eqn:Ea.
  - exists col. now rewrite Ea.
  - rewrite apply_parse_age. cbn [res_bind]. eexists. now repeat split.
Qed.

Lemma classify_team_label df df' col :
  with_age_numeric df = Ok (df', col) ->
  classify_team df
  = Ok (label_for (series_sum (Frame.Value_Numeric df)) (series_mean col), df').
Proof.
  intros Hw. unfold classify_team. rewrite Hw. cbn [res_bind]. unfold label_for.
  destruct (_ && _); [reflexivity|]. now destruct (_ && _).
Qed.

(** X17: [classify_team] leaves a frame on which it returns the same
    answer: the frame it returns has the column [Age_Numeric], classifying
    it again gives the same label and changes nothing, and the ages are not
    read a second time. *)
Theorem classify_team_again df l df' :
  classify_team df = Ok (l, df') ->
  is_Some (Frame.Age_Numeric df')
  /\ Frame.Value_Numeric df' = Frame.Value_Numeric df
  /\ Frame.Age df' = Frame.Age df
  /\ classify_team df' = Ok (l, df')
  /\ (forall ages,
        classify_team {| Frame.Age := ages;
                         Frame.Value_Numeric := Frame.Value_Numeric df';
                         Frame.Age_Numeric := Frame.Age_Numeric df' |}
        = Ok (l, {| Frame.Age := ages;
                    Frame.Value_Numeric := Frame.Value_Numeric df';
                    Frame.Age_Numeric := Frame.Age_Numeric df' |})).
Proof.
  intros H.
  destruct (with_age_numeric_cases df) as (col & Hw & Hcol & Hv & Ha).
  rewrite (classify_team_label _ _ _ Hw) in H. injection H as Hl Hdf.
  subst df'. split; [rewrite Hcol; eauto|]. split; [exact Hv|]. split; [exact Ha|].
  set (df' := with_age_column df col) in *.
  assert (Hgen : forall ages,
             classify_team {| Frame.Age := ages;
                              Frame.Value_Numeric := Frame.Value_Numeric df';
                              Frame.Age_Numeric := Frame.Age_Numeric df' |}
             = Ok (l, {| Frame.Age := ages;
                         Frame.Value_Numeric := Frame.Value_Numeric df';
                         Frame.Age_Numeric := Frame.Age_Numeric df' |})).
  { intros ages. rewrite Hcol, Hv.
    erewrite classify_team_label by reflexivity.
    cbn [Frame.Value_Numeric]. now rewrite Hl. }
  split; [|exact Hgen].
  specialize (Hgen (Frame.Age df')). now destruct df'.
Qed.

Lemma classify_team_again_witness :
  exists df', classify_team contender_df = Ok ("Contender"%string, df')
              /\ classify_team df' = Ok ("Contender"%string, df').
Proof.
  destruct (classify_team contender_df) as [[l df']|e] eqn:E;
    [|vm_compute in E; discriminate E].
  assert (Hl : l = "Contender"%string)
    by (vm_compute in E; now injection E as <- _).
  subst l. exists df'. split; [reflexivity|].
  exact (proj1 (proj2 (proj2 (proj2 (classify_team_again _ _ _ E))))).
Defined.

(** ** The team tab *)

Lemma owned_by_owner username row :
  owned_by username row = true <-> League.Owner row = SStr username.
Proof.
  unfold owned_by. destruct (League.Owner row) as [|s|z]; try easy.
  rewrite String.eqb_eq. split; [now intros -> | now intros [= ->]].
Qed.

Lemma filter_nil_Forall {A : Type} (f : A -> bool) (l : list A) :
  List.filter f l = [] <-> Forall (fun x => f x = false) l.
Proof.
  induction l as [|x l IH]; cbn [List.filter].
  - split; [constructor | reflexivity].
  - destruct (f x) eqn:E.
    + split; [discriminate|]. intros H. inversion H; congruence.
    + rewrite IH. split; [now constructor | now inversion 1].
Qed.

Lemma roster_players_of_concat my_roster acc :
  roster_players_of my_roster acc = acc ++ concat (map League.Players my_roster).
Proof.
  revert acc. induction my_roster as [|row rest IH]; intros acc.
  - cbn. now rewrite List.app_nil_r.
  - cbn [roster_players_of map concat]. rewrite IH. now rewrite <- List.app_assoc.
Qed.

Lemma my_roster_of_rows username rosters_df :
  rosters_df <> [] ->
  my_roster_of username rosters_df = Ok (List.filter (owned_by username) rosters_df).
Proof. intros H. unfold my_roster_of. now rewrite column_rows. Qed.

Lemma team_tab_roster extractOne username rosters_df ktc_df log :
  List.filter (owned_by username) rosters_df <> [] ->
  team_tab extractOne username rosters_df ktc_df log
  = (data <- match_roster extractOne ktc_df
               (concat (map League.Players
                          (List.filter (owned_by username) rosters_df)));;
     summary <- lift (team_summary data);;
     mret (Shown data summary))%M log.
Proof.
  intros Hne. unfold team_tab. unfold mbind at 1, lift at 1.
  rewrite my_roster_of_rows by (intros ->; now apply Hne).
  rewrite roster_players_of_concat. cbn [app].
  now destruct (List.filter (owned_by username) rosters_df).
Qed.

(** X18: the warning that no roster was found is what the team tab shows
    exactly when the league has rosters and none is owned by a user of the
    display name entered; this holds whatever the valuation frame is, and
    the fuzzy matcher is not called.  For a league without rosters the
    frame has no column [Owner] and [KeyError] is raised. *)
Theorem team_tab_warning extractOne username rosters_df ktc_df log :
  (rosters_df = [] ->
   team_tab extractOne username rosters_df ktc_df log = (Raise KeyError, log))
  /\ (rosters_df <> [] ->
      Forall (fun row => League.Owner row <> SStr username) rosters_df ->
      team_tab extractOne username rosters_df ktc_df log = (Ok Warning, log))
  /\ (forall log',
        team_tab extractOne username rosters_df ktc_df log = (Ok Warning, log') ->
        rosters_df <> []
        /\ Forall (fun row => League.Owner row <> SStr username) rosters_df).
Proof.
  assert (Hnone : Forall (fun row => League.Owner row <> SStr username) rosters_df
                  <-> List.filter (owned_by username) rosters_df = []).
  { rewrite filter_nil_Forall. apply Forall_proper; [|reflexivity].
    intros row. rewrite <- owned_by_owner. now destruct (owned_by username row). }
  split; [now intros ->|]. split.
  - intros Hne Hall. unfold team_tab, mbind, lift.
    rewrite my_roster_of_rows by assumption.
    now rewrite (proj1 Hnone Hall).
  - intros log' H.
    destruct rosters_df as [|row rest] eqn:E; [discriminate H|].
    split; [discriminate|]. rewrite <- E in *. apply Hnone.
    destruct (List.filter (owned_by username) rosters_df) eqn:Ef; [reflexivity|].
    rewrite team_tab_roster in H by (rewrite Ef; discriminate).
    unfold mbind, lift, mret in H.
    destruct (match_roster _ _ _ _) as [[data|e] l1]; [|discriminate H].
    destruct (team_summary data); discriminate H.
Qed.

Lemma team_tab_warning_witness :
  team_tab sample_extractOne "nobody" sample_rosters_df sample_ktc_df []
  = (Ok Warning, []).
Proof.
  apply (team_tab_warning sample_extractOne "nobody" sample_rosters_df
           sample_ktc_df []).
  - discriminate.
  - repeat constructor; discriminate.
Defined.

Lemma match_roster_nil extractOne ktc_df log :
  Forall (fun r => has_token (Ktc.Name r)) ktc_df ->
  match_roster extractOne ktc_df [] log = (Ok [], log).
Proof.
  intros Hktc. destruct (build_name_map_ok _ Hktc ∅) as [m Hm].
  unfold match_roster, mbind, lift, ktc_name_map. now rewrite Hm.
Qed.

(** X19: an owner whose rosters list no player gets no summary: the
    matching loop builds no row, the team frame has no column and
    [KeyError] is raised, without a call of the fuzzy matcher. *)
Theorem team_tab_no_players extractOne username rosters_df ktc_df log :
  Forall (fun r => has_token (Ktc.Name r)) ktc_df ->
  List.filter (owned_by username) rosters_df <> [] ->
  Forall (fun row => League.Players row = [])
    (List.filter (owned_by username) rosters_df) ->
  team_tab extractOne username rosters_df ktc_df log = (Raise KeyError, log).
Proof.
  intros Hktc Hne Hnil. rewrite team_tab_roster by assumption.
  replace (concat _) with (@nil string).
  - unfold mbind at 1. now rewrite match_roster_nil.
  - clear Hne. induction Hnil as [|row rest Hrow _ IH]; [reflexivity|].
    cbn [map concat]. now rewrite Hrow.
Qed.

Lemma team_tab_no_players_witness :
  team_tab sample_extractOne "sam" sample_rosters_df sample_ktc_df []
  = (Raise KeyError, []).
Proof.
  apply (team_tab_no_players sample_extractOne "sam" sample_rosters_df
           sample_ktc_df []).
  - repeat constructor; eexists; vm_compute; reflexivity.
  - vm_compute. discriminate.
  - vm_compute. repeat constructor.
Defined.

Section TeamTabShown.

Variable ratio : string -> string -> Z.
Variable extractOne : string -> list string -> option (string * Z).
Hypothesis extractOne_best :
  forall query choices,
    choices <> [] ->
    exists c, extractOne query choices = Some (c, ratio query c)
              /\ In c choices
              /\ forall c', In c' choices -> ratio query c' <= ratio query c.


End TeamTabShown.


(** ** The scraper *)

Lemma divs_loop_kept player_divs all_players :
  divs_loop player_divs all_players = all_players ++ kept player_divs.
Proof.
  revert all_players. induction player_divs as [|d rest IH]; intros acc.
  - cbn. now rewrite List.app_nil_r.
  - cbn [divs_loop kept]. rewrite IH.
    destruct (parse_player_div d) as [row|e]; cbn [res_bind try_except].
    + now rewrite <- List.app_assoc.
    + reflexivity.
Qed.

Lemma pages_loop_cons fetch page_num rest all_players fetched :
  pages_loop fetch (page_num :: rest) all_players fetched
  = match fetch page_num with
    | Raise e => (Raise e, fetched ++ [page_num])
    | Ok player_divs =>
        if (length player_divs <? 50)%nat
        then (Ok (divs_loop player_divs all_players), fetched ++ [page_num])
        else pages_loop fetch rest (divs_loop player_divs all_players)
               (fetched ++ [page_num])
    end.
Proof.
  cbn [pages_loop]. destruct (fetch page_num) as [[|d divs]|e]; reflexivity.
Qed.

(** What a run of the loop over the pages [s, s+1, ...] does. *)
Lemma pages_loop_run fetch n : forall s all_players fetched r fetched',
  pages_loop fetch (seq s n) all_players fetched = (r, fetched') ->
  exists k,
    (k <= n)%nat
    /\ fetched' = fetched ++ seq s k
    /\ (forall p, (s <= p)%nat -> (S p < s + k)%nat ->
          exists divs, fetch p = Ok divs /\ (50 <= length divs)%nat)
    /\ (n = 0%nat \/ 0 < k)%nat
    /\ match r with
       | Raise e => (0 < k)%nat /\ fetch (s + k - 1)%nat = Raise e
       | Ok rows =>
           exists pages,
             Forall2 (fun p divs => fetch p = Ok divs) (seq s k) pages
             /\ rows = all_players ++ concat (map kept pages)
             /\ ((k < n)%nat ->
                 exists divs, fetch (s + k - 1)%nat = Ok divs
                              /\ (length divs < 50)%nat)
       end.
Proof.
  induction n as [|n IH]; intros s acc fetched r fetched' H.
  - cbn in H. injection H as <- <-. exists 0%nat. cbn [seq].
    rewrite List.app_nil_r. repeat split; [lia | intros; lia | now left |].
    exists []. repeat split; [constructor | now rewrite List.app_nil_r | lia].
  - cbn [seq] in H. rewrite pages_loop_cons in H.
    destruct (fetch s) as [divs|e] eqn:Ef.
    + destruct (length divs <? 50)%nat eqn:El.
      * injection H as <- <-. apply Nat.ltb_lt in El. exists 1%nat. cbn [seq].
        repeat split; [lia | intros; lia | right; lia |].
        exists [divs]. repeat split.
        -- now repeat constructor.
        -- cbn [map concat]. rewrite List.app_nil_r. apply divs_loop_kept.
        -- intros _. exists divs. replace (s + 1 - 1)%nat with s by lia.
           now split.
      * apply Nat.ltb_ge in El.
        destruct (IH _ _ _ _ _ H) as (k & Hk & Hf & Hfull & Hpos & Hr).
        exists (S k). split; [lia|]. split.
        { rewrite Hf. cbn [seq]. now rewrite <- List.app_assoc. }
        split.
        { intros p Hp1 Hp2. destruct (Nat.eq_dec p s) as [->|Hne].
          - now exists divs.
          - apply Hfull; lia. }
        split; [right; lia|].
        destruct r as [rows|e].
        -- destruct Hr as (pages & Hpages & Hrows & Hshort).
           exists (divs :: pages). split; [|split].
           ++ cbn [seq]. now constructor.
           ++ rewrite Hrows, divs_loop_kept. cbn [map concat].
              now rewrite <- List.app_assoc.
           ++ intros Hlt.
              destruct Hpos as [->|Hpos]; [lia|].
              destruct Hshort as (ds & Hds & Hlen); [lia|].
              exists ds. split; [|exact Hlen].
              now replace (s + S k - 1)%nat with (S s + k - 1)%nat by lia.
        -- destruct Hr as [Hk0 Hr]. split; [lia|].
           now replace (s + S k - 1)%nat with (S s + k - 1)%nat by lia.
    + injection H as <- <-. exists 1%nat. cbn [seq].
      repeat split; [lia | intros; lia | right; lia | lia |].
      now replace (s + 1 - 1)%nat with s by lia.
Qed.

(** X21: the scraper requests the pages 0, 1, 2, ... in order, at most
    [max_pages] of them and none for a [max_pages] that is not positive;
    every page before the last one requested had at least 50 player divs;
    and when it stops before [max_pages] pages without raising, the last
    page requested had fewer than 50 player divs. *)
Theorem scraper_pages fetch max_pages r fetched :
  get_all_ktc_players_paginated fetch max_pages = (r, fetched) ->
  exists k,
    fetched = seq 0 k
    /\ Z.of_nat k <= Z.max 0 max_pages
    /\ (0 < max_pages -> (0 < k)%nat)
    /\ (forall p, (S p < k)%nat ->
          exists divs, fetch p = Ok divs /\ (50 <= length divs)%nat)
    /\ (forall rows, r = Ok rows -> Z.of_nat k < max_pages ->
          exists divs, fetch (k - 1)%nat = Ok divs /\ (length divs < 50)%nat).
Proof.
  intros H. unfold get_all_ktc_players_paginated in H.
  destruct (pages_loop_run _ _ _ _ _ _ _ H) as (k & Hk & Hf & Hfull & Hpos & Hr).
  exists k. split; [exact Hf|]. split; [lia|]. split; [lia|]. split.
  - intros p Hp. apply Hfull; lia.
  - intros rows -> Hlt. destruct Hr as (pages & _ & _ & Hshort).
    apply Hshort. lia.
Qed.

Lemma scraper_pages_witness :
  exists k,
    [0; 1]%nat = seq 0 k
    /\ Z.of_nat k <= Z.max 0 10
    /\ (0 < 10 -> (0 < k)%nat)
    /\ (forall p, (S p < k)%nat ->
          exists divs, sample_fetch p = Ok divs /\ (50 <= length divs)%nat)
    /\ (forall rows,
          fst (get_all_ktc_players_paginated sample_fetch 10) = Ok rows ->
          Z.of_nat k < 10 ->
          exists divs, sample_fetch (k - 1)%nat = Ok divs
                       /\ (length divs < 50)%nat).
Proof.
  apply (scraper_pages sample_fetch 10
           (fst (get_all_ktc_players_paginated sample_fetch 10)) [0; 1]%nat).
  vm_compute. reflexivity.
Defined.

(** X22: the scraper raises exactly the error of a failed request, and
    only the last request made can have failed: the records of the pages
    read before are not returned.  When no request for a page below
    [max_pages] fails, the scraper returns a frame. *)
Theorem scraper_errors fetch max_pages :
  (forall e fetched,
     get_all_ktc_players_paginated fetch max_pages = (Raise e, fetched) ->
     exists k, fetched = seq 0 (S k) /\ Z.of_nat k < max_pages
               /\ fetch k = Raise e)
  /\ ((forall p, Z.of_nat p < max_pages -> exists divs, fetch p = Ok divs) ->
      exists rows fetched,
        get_all_ktc_players_paginated fetch max_pages = (Ok rows, fetched)).
Proof.
  assert (Hraise : forall e fetched,
             get_all_ktc_players_paginated fetch max_pages = (Raise e, fetched) ->
             exists k, fetched = seq 0 (S k) /\ Z.of_nat k < max_pages
                       /\ fetch k = Raise e).
  { intros e fetched H. unfold get_all_ktc_players_paginated in H.
    destruct (pages_loop_run _ _ _ _ _ _ _ H) as (k & Hk & Hf & _ & _ & Hk0 & He).
    destruct k as [|k]; [lia|]. exists k. split; [exact Hf|]. split; [lia|].
    now replace (0 + S k - 1)%nat with k in He by lia. }
  split; [exact Hraise|].
  intros Hok.
  destruct (get_all_ktc_players_paginated fetch max_pages) as [[rows|e] fetched] eqn:E.
  - now exists rows, fetched.
  - destruct (Hraise _ _ eq_refl) as (k & _ & Hk & He).
    destruct (Hok k Hk) as [divs Hd]. congruence.
Qed.

Lemma scraper_errors_witness :
  exists k, [0; 1; 2]%nat = seq 0 (S k) /\ Z.of_nat k < 10
            /\ (fun p => match p with
                         | 0%nat | 1%nat => sample_fetch 0
                         | _ => Raise ValueError
                         end) k = Raise ValueError.
Proof.
  apply (scraper_errors
           (fun p => match p with
                     | 0%nat | 1%nat => sample_fetch 0
                     | _ => Raise ValueError
                     end) 10).
  vm_compute. reflexivity.
Defined.

(** X23: the frame returned holds, for the pages requested in order and
    for the divs of each page in document order, the record of every div
    whose parsing does not raise; the other divs are skipped without a
    trace, so there are at most as many records as divs. *)
Theorem scraper_records fetch max_pages rows fetched :
  get_all_ktc_players_paginated fetch max_pages = (Ok rows, fetched) ->
  exists pages,
    Forall2 (fun p divs => fetch p = Ok divs) fetched pages
    /\ rows = concat (map kept pages)
    /\ (length rows <= length (concat pages))%nat.
Proof.
  intros H. unfold get_all_ktc_players_paginated in H.
  destruct (pages_loop_run _ _ _ _ _ _ _ H)
    as (k & _ & Hf & _ & _ & pages & Hpages & Hrows & _).
  exists pages. cbn [app] in Hf, Hrows. subst fetched rows.
  split; [exact Hpages|]. split; [reflexivity|].
  clear. induction pages as [|divs pages IH]; [reflexivity|].
  cbn [map concat]. rewrite !length_app.
  assert (length (kept divs) <= length divs)%nat; [|lia].
  clear. induction divs as [|d divs IH]; [reflexivity|].
  cbn [kept]. destruct (parse_player_div d); cbn [length]; lia.
Qed.

Lemma scraper_records_witness :
  exists rows pages,
    Forall2 (fun p divs => sample_fetch p = Ok divs) [0; 1]%nat pages
    /\ rows = concat (map kept pages)
    /\ (length rows <= length (concat pages))%nat.
Proof.
  eexists.
  apply (scraper_records sample_fetch 10 _ [0; 1]%nat).
  vm_compute. reflexivity.
Defined.

(** ** The fields of the scraped records *)

Lemma lstrip_chars_start l : starts_with_space (Str.lstrip_chars l) = false.
Proof.
  induction l as [|c l IH]; [reflexivity|].
  cbn [Str.lstrip_chars]. destruct (Str.isspace c) eqn:E; [exact IH|].
  exact E.
Qed.

Lemma rstrip_chars_start l :
  starts_with_space l = false -> starts_with_space (Str.rstrip_chars l) = false.
Proof.
  intros H. destruct (rstrip_decomp l) as (ws & _ & Hl).
  destruct (Str.rstrip_chars l) as [|c r]; [reflexivity|].
  rewrite Hl in H. exact H.
Qed.

Lemma strip_trimmed s : trimmed (Str.strip s).
Proof.
  unfold trimmed, Str.strip. rewrite chars_of_chars. split.
  - apply rstrip_chars_start, lstrip_chars_start.
  - unfold Str.rstrip_chars. rewrite rev_involutive. apply lstrip_chars_start.
Qed.

Lemma parse_player_div_trimmed d row :
  parse_player_div d = Ok row -> row_trimmed row.
Proof.
  unfold parse_player_div, row_trimmed.
  destruct (Html.player_name d) as [[[t|] team]|]; cbn [text res_bind Html.a];
    try discriminate;
    (destruct (Html.position_team d) as [[[p|] age]|];
     cbn [text res_bind Html.position]; try discriminate;
     (destruct (Html.value d) as [[v|]|]; cbn [text res_bind]; try discriminate;
      intros [= <-];
      cbn [Ktc.Rank Ktc.Name Ktc.Team Ktc.Position Ktc.Age Ktc.KTC_Value
           Html.player_team Html.position_hidden_xs];
      repeat match goal with
             | |- _ /\ _ => split
             | |- trimmed (match ?x with _ => _ end) => destruct x
             | |- trimmed (Str.strip _) => apply strip_trimmed
             | |- trimmed _ => now split
             end)).
Qed.

Lemma kept_from_div divs row :
  In row (kept divs) -> exists d, In d divs /\ parse_player_div d = Ok row.
Proof.
  induction divs as [|d divs IH]; [intros []|].
  cbn [kept]. destruct (parse_player_div d) as [r|e] eqn:E.
  - intros [<-|Hin].
    + exists d. split; [now left | exact E].
    + destruct (IH Hin) as (d' & Hd & Hp). exists d'. split; [now right | exact Hp].
  - intros Hin. destruct (IH Hin) as (d' & Hd & Hp).
    exists d'. split; [now right | exact Hp].
Qed.

Lemma kept_of_div divs d row :
  In d divs -> parse_player_div d = Ok row -> In row (kept divs).
Proof.
  induction divs as [|d0 divs IH]; [intros []|].
  intros [->|Hin] Hp; cbn [kept].
  - rewrite Hp. now left.
  - destruct (parse_player_div d0); [right|]; now apply IH.
Qed.

(** The records of a frame the scraper returns, and the divs they come
    from. *)
Lemma scraper_rows_divs fetch max_pages rows fetched :
  get_all_ktc_players_paginated fetch max_pages = (Ok rows, fetched) ->
  forall row,
    In row rows <->
    exists p divs d,
      In p fetched /\ fetch p = Ok divs /\ In d divs
      /\ parse_player_div d = Ok row.
Proof.
  intros H. unfold get_all_ktc_players_paginated in H.
  destruct (pages_loop_run _ _ _ _ _ _ _ H)
    as (k & _ & Hf & _ & _ & pages & Hpages & Hrows & _).
  cbn [app] in Hf, Hrows. subst fetched rows. clear H.
  intros row. revert Hpages. generalize (seq 0 k) as ps.
  intros ps Hpages. induction Hpages as [|p divs ps pages Hp _ IH].
  - split; [intros [] | intros (p & divs & d & [] & _)].
  - cbn [map concat]. rewrite in_app_iff, IH. split.
    + intros [Hin|(p' & divs' & d & Hp' & Hf & Hd & Hrow)].
      * destruct (kept_from_div _ _ Hin) as (d & Hd & Hrow).
        exists p, divs, d. repeat split; try assumption. now left.
      * exists p', divs', d. repeat split; try assumption. now right.
    + intros (p' & divs' & d & [->|Hp'] & Hf & Hd & Hrow).
      * left. rewrite Hp in Hf. injection Hf as <-.
        exact (kept_of_div _ _ _ Hd Hrow).
      * right. now exists p', divs', d.
Qed.

(** X24: no field of a scraped record starts or ends with white space:
    each is a stripped text or one of the defaults "Unknown", "N/A" and
    "0". *)
Theorem scraper_fields_trimmed fetch max_pages rows fetched :
  get_all_ktc_players_paginated fetch max_pages = (Ok rows, fetched) ->
  Forall row_trimmed rows.
Proof.
  intros H. apply List.Forall_forall. intros row Hin.
  apply (scraper_rows_divs _ _ _ _ H) in Hin as (p & divs & d & _ & _ & _ & Hrow).
  exact (parse_player_div_trimmed _ _ Hrow).
Qed.

Lemma scraper_fields_trimmed_witness :
  exists rows, rows <> [] /\ Forall row_trimmed rows.
Proof.
  eexists. split; [|apply (scraper_fields_trimmed sample_fetch 10 _ [0; 1]%nat);
                     vm_compute; reflexivity].
  discriminate.
Defined.

Lemma blank_strip s : blank (Str.strip s) <-> blank s.
Proof. now rewrite <- !split_nil_iff, split_strip. Qed.

Lemma parse_player_div_name d row :
  parse_player_div d = Ok row -> (blank (Ktc.Name row) <-> blank_anchor d).
Proof.
  unfold parse_player_div, blank_anchor.
  destruct (Html.player_name d) as [[[t|] team]|]; cbn [text res_bind Html.a];
    try discriminate.
  - destruct (match Html.position_team d with Some _ => _ | None => _ end);
      [|discriminate].
    cbn [res_bind].
    destruct (match Html.value d with Some _ => _ | None => _ end);
      [|discriminate].
    cbn [res_bind]. intros [= <-]. cbn [Ktc.Name]. rewrite blank_strip. split.
    + intros Hb. now eexists _, t.
    + now intros (tag & t' & [= <-] & [= <-] & Hb).
  - destruct (match Html.position_team d with Some _ => _ | None => _ end);
      [|discriminate].
    cbn [res_bind].
    destruct (match Html.value d with Some _ => _ | None => _ end);
      [|discriminate].
    cbn [res_bind]. intros [= <-]. cbn [Ktc.Name]. split.
    + intros Hb. inversion Hb as [|? ? Hc _]. discriminate Hc.
    + now intros (tag & t' & [=] & _).
Qed.

(** X25: the mapping of the matcher is built from a scraped frame unless a
    player div that is not skipped has an anchor of blank text: such a div
    gives a record of empty name, on which building the mapping raises
    [IndexError]; a div without name tag gives the name "Unknown", which
    has a key. *)
Theorem scraper_blank_anchor fetch max_pages rows fetched :
  get_all_ktc_players_paginated fetch max_pages = (Ok rows, fetched) ->
  let kept_blank :=
    exists p divs d row,
      In p fetched /\ fetch p = Ok divs /\ In d divs
      /\ parse_player_div d = Ok row /\ blank_anchor d in
  (kept_blank -> ktc_name_map rows = Raise IndexError)
  /\ (~ kept_blank -> exists name_map, ktc_name_map rows = Ok name_map).
Proof.
  intros H kept_blank. pose proof (scraper_rows_divs _ _ _ _ H) as Hrows. split.
  - intros (p & divs & d & row & Hp & Hf & Hd & Hrow & Hb).
    apply ktc_name_map_raises. apply List.Exists_exists. exists row. split.
    + apply Hrows. now exists p, divs, d.
    + now apply (parse_player_div_name _ _ Hrow).
  - intros Hno. apply ktc_name_map_builds. apply List.Forall_forall.
    intros row Hin Hb. apply Hno.
    apply Hrows in Hin as (p & divs & d & Hp & Hf & Hd & Hrow).
    exists p, divs, d, row. repeat split; try assumption.
    now apply (parse_player_div_name _ _ Hrow).
Qed.

Lemma scraper_blank_anchor_witness :
  ktc_name_map [{| Ktc.Rank := "1"; Ktc.Name := ""; Ktc.Team := "N/A";
                   Ktc.Position := "Unknown"; Ktc.Age := "N/A";
                   Ktc.KTC_Value := "9,500" |}]
  = Raise IndexError.
Proof.
  apply (scraper_blank_anchor (fun _ => Ok [sample_div "  "]) 10 _ [0%nat]).
  - vm_compute. reflexivity.
  - exists 0%nat, [sample_div "  "], (sample_div "  "). eexists.
    split; [now left|]. split; [reflexivity|]. split; [now left|].
    split; [vm_compute; reflexivity|].
    eexists _, "  "%string. split; [reflexivity|]. split; [reflexivity|].
    repeat constructor.
Defined.

(** ** Instances of the statements above *)

Lemma ktc_name_map_last_wins_witness :
  sample_name_map !! ("justin", "jefferson")%string
  = last (List.filter (has_key ("justin", "jefferson")%string) sample_ktc_df).
Proof.
  apply (ktc_name_map_last_wins sample_ktc_df sample_name_map).
  vm_compute. reflexivity.
Defined.

Lemma match_roster_rows_from_valuation_witness :
  Forall (from_valuation sample_ktc_df) sample_team.
Proof.
  apply (match_roster_rows_from_valuation sample_extractOne sample_ktc_df
           ["Justin Jefferson"; "Unknown Player123"]%string []
           sample_team
           [("Unknown Player123"%string, map Ktc.Name sample_ktc_df)]).
  vm_compute. reflexivity.
Defined.

Lemma fuzzy_match_first_row_witness :
  match_player (first_best prefix_ratio) sample_ktc_df sample_name_map "Justin" []
  = (Ok {| Team.Player := "Justin";
           Team.KTC_Name := "Justin Jefferson";
           Team.Position := VStr "WR1";
           Team.KTC_Value := VStr "9,500";
           Team.Age := VStr "24.1 y.o." |},
     [("Justin"%string, ["Justin Jefferson"; "Ja'Marr Chase"]%string)]).
Proof.
  apply (fuzzy_match_first_row (first_best prefix_ratio) sample_ktc_df
           sample_name_map "Justin" ("justin", "")%string "Justin Jefferson" 85 []).
  - vm_compute. reflexivity.
  - vm_compute. reflexivity.
  - discriminate.
  - vm_compute. reflexivity.
  - lia.
Defined.

Lemma player_map_names_not_blank_witness :
  (forall pid pdata,
     In (pid, pdata) sample_player_data -> is_Some (sample_player_map !! pid))
  /\ (forall pid name,
        sample_player_map !! pid = Some name ->
        exists pdata first last,
          In (pid, pdata) sample_player_data
          /\ name_text (Sleeper.first_name pdata) = Some first
          /\ name_text (Sleeper.last_name pdata) = Some last
          /\ name = (let full_name :=
                       Str.strip (Str.strip first +:+ " " +:+ Str.strip last) in
                     if String.eqb full_name "" || String.eqb full_name "None None"
                     then pid else full_name))
  /\ (forall pid name,
        sample_player_map !! pid = Some name -> ~ blank pid -> ~ blank name).
Proof.
  apply (player_map_names_not_blank sample_player_data sample_player_map).
  vm_compute. reflexivity.
Defined.

(** The sample player map: a name made of the two stripped fields, and the
    id for the entry without names. *)
Example sample_player_map_names :
  sample_player_map !! "4034"%string = Some "Justin Jefferson"%string
  /\ sample_player_map !! "DET"%string = Some "DET"%string.
Proof. split; vm_compute; reflexivity. Qed.

Lemma parse_rosters_rows_witness :
  length sample_league_df = length sample_rosters_data
  /\ Forall2
       (fun roster row =>
          Sleeper.roster_id roster = Some (League.Roster_ID row)
          /\ League.Players row
             = match Sleeper.players roster with
               | Some l => map (id_to_name sample_player_map) l
               | None => []
               end
          /\ League.Taxi_Squad row
             = match Sleeper.taxi roster with
               | Some l => map (id_to_name sample_player_map) l
               | None => []
               end
          /\ League.Reserve row
             = match Sleeper.reserve roster with
               | Some l => map (id_to_name sample_player_map) l
               | None => []
               end)
       sample_rosters_data sample_league_df.
Proof.
  apply (parse_rosters_rows sample_users_data sample_rosters_data
           sample_player_map sample_league_df).
  vm_compute. reflexivity.
Defined.

(** The sample roster frame: a name of the map, "Unknown (99)" for the id
    99 that the map lacks, and the empty list for the absent taxi squad. *)
Example sample_league_df_rows :
  sample_league_df
  = [{| League.Owner := SStr "drew";
        League.Roster_ID := SInt 1;
        League.Players := ["Justin Jefferson"; "Unknown (99)"]%string;
        League.Taxi_Squad := [];
        League.Reserve := ["DET"%string] |}].
Proof. vm_compute. reflexivity. Qed.

Lemma roster_names_have_keys_witness :
  Forall (fun row => Forall has_token (League.Players row)
                     /\ Forall has_token (League.Taxi_Squad row)
                     /\ Forall has_token (League.Reserve row)) sample_league_df.
Proof.
  apply (roster_names_have_keys sample_player_data sample_player_map
           sample_users_data sample_rosters_data sample_league_df).
  - vm_compute. reflexivity.
  - repeat constructor; cbn [fst]; intros H; inversion H as [|? ? Hc _];
      discriminate Hc.
  - vm_compute. reflexivity.
Defined.

Lemma normalize_name_blank_witness :
  normalize_name "  " = Raise IndexError.
Proof.
  apply (normalize_name_blank "  "). repeat constructor.
Defined.

Lemma ktc_name_map_blank_name_witness :
  ktc_name_map [jefferson; {| Ktc.Rank := "2"; Ktc.Name := " "; Ktc.Team := "N/A";
                              Ktc.Position := "Unknown"; Ktc.Age := "N/A";
                              Ktc.KTC_Value := "0" |}]
  = Raise IndexError.
Proof.
  apply (ktc_name_map_blank_name
           [jefferson; {| Ktc.Rank := "2"; Ktc.Name := " "; Ktc.Team := "N/A";
                          Ktc.Position := "Unknown"; Ktc.Age := "N/A";
                          Ktc.KTC_Value := "0" |}]).
  right. left. repeat constructor.
Defined.

Lemma player_map_needs_strings_witness :
  get_sleeper_player_map
    (sample_player_data
     ++ [("9"%string, {| Sleeper.first_name := Some SNone;
                         Sleeper.last_name := Some (SStr "Doe") |})])
  = Raise AttributeError.
Proof.
  apply (player_map_needs_strings
           (sample_player_data
            ++ [("9"%string, {| Sleeper.first_name := Some SNone;
                                Sleeper.last_name := Some (SStr "Doe") |})])).
  vm_compute. reflexivity.
Defined.

Lemma parse_rosters_missing_id_witness :
  parse_rosters_into_dataframe sample_users_data
    (sample_rosters_data
     ++ [{| Sleeper.owner_id := None; Sleeper.roster_id := None;
            Sleeper.players := None; Sleeper.taxi := None;
            Sleeper.reserve := None |}])
    sample_player_map
  = Raise KeyError.
Proof.
  apply (parse_rosters_missing_id sample_users_data
           (sample_rosters_data
            ++ [{| Sleeper.owner_id := None; Sleeper.roster_id := None;
                   Sleeper.players := None; Sleeper.taxi := None;
                   Sleeper.reserve := None |}])
           sample_player_map).
  vm_compute. reflexivity.
Defined.
